(** * Three SAT engines: Davis-Putnam elimination, DPLL search and
    resolution closure.

    The development embeds [src/dp.py], [src/dpll.py] and
    [src/resolution.py] and states the properties of the specification
    over that embedding.

    Conventions.
    - A literal is a [Z]; a clause of the DP and DPLL engines is a Python
      list, here [list Z]; a clause of the resolution engine is a
      [frozenset], here [gset Z].
    - Python does not fix the order in which a [set] or [frozenset] is
      iterated; the order belongs to the object and depends on how it
      was built.  The engines that iterate over one take the
      enumeration as a parameter, constrained only to list exactly the
      elements of the set: [union_iter c1 c2] enumerates
      [set(c1) | set(c2)], and [set_iter i s] enumerates the
      [frozenset] at position [i] of the resolution pool.
    - [while True] loops and the recursion of DPLL take a [fuel : nat];
      running out of it is a distinct outcome, never a verdict.
    - The recursion limit of the interpreter is no part of
      [DPLL.solve_rec]; [DPLL.solve_rec_limited] is the same search with
      [RecursionError] as an outcome.
    - For the readers a file is the list of its lines and a line the
      list of its code points; [str.strip] and [str.split] are written
      out over a test for whitespace, and [int] is a parameter. *)

From stdpp Require Import gmap list.

Local Open Scope Z_scope.

Abbreviation clause := (list Z) (only parsing).
Abbreviation formula := (list (list Z)) (only parsing).

(** ** Propositional semantics, shared by the statements *)

(** A total valuation gives each variable (a positive integer) a truth
    value; a literal is true when its polarity matches. *)
Definition lit_true (a : Z → bool) (l : Z) : bool :=
  if 0 <? l then a l else negb (a (- l)).

Definition clause_true (a : Z → bool) (c : clause) : bool :=
  existsb (lit_true a) c.

Definition formula_true (a : Z → bool) (f : formula) : bool :=
  forallb (clause_true a) f.

Definition satisfiable (f : formula) : Prop :=
  ∃ a, formula_true a f = true.

(** The variables of a clause set. *)
Definition clause_vars (c : clause) : gset Z :=
  list_to_set (Z.abs <$> c).

Definition formula_vars (f : formula) : gset Z :=
  ⋃ (clause_vars <$> f).

(** ** [src/dp.py]: class [DPSolver] *)

Module DP.

Record stats := Stats { vars_eliminated : nat; resolvents : nat }.

Record solver := Solver { _clauses : formula; _stats : stats }.

(** [DPSolver.__init__]: every clause is copied ([c[:]]). *)
Definition __init__ (clauses : formula) : solver :=
  Solver ((λ c, c) <$> clauses) (Stats 0 0).

(** [DPSolver._choose_var]: magnitude of the first literal of the first
    non-empty clause. *)
Fixpoint _choose_var (clauses : formula) : option Z :=
  match clauses with
  | [] => None
  | [] :: clauses' => _choose_var clauses'
  | (l :: _) :: _ => Some (Z.abs l)
  end.

(** The first loop of [_eliminate]: one step of the three-way split. *)
Definition split_step (var : Z) (acc : formula * formula * formula)
    (c : clause) : formula * formula * formula :=
  let '(pos, neg, rest) := acc in
  if decide (var ∈ c) then (pos ++ [c], neg, rest)
  else if decide (- var ∈ c) then (pos, neg ++ [c], rest)
  else (pos, neg, rest ++ [c]).

Definition split (var : Z) (clauses : formula) : formula * formula * formula :=
  foldl (split_step var) ([], [], []) clauses.

(** One admissible enumeration of [set(c1) | set(c2)]. *)
Definition canonical_union (c1 c2 : clause) : list Z :=
  elements (list_to_set c1 ∪ list_to_set c2 : gset Z).

Section with_set_order.
Variable union_iter : clause → clause → list Z.

(** [[l for l in (set(c1) | set(c2)) if l not in {var, -var}]] *)
Definition resolvent (var : Z) (c1 c2 : clause) : clause :=
  filter (λ l, l ∉ ({[ var; - var ]} : gset Z))
         (union_iter c1 c2).

(** The inner loop [for c2 in neg].  The accumulator is [new_clauses]
    and the counter [resolvents]; [None] is the early [return None]. *)
Fixpoint resolve_inner (var : Z) (c1 : clause) (neg : formula)
    (new_clauses : formula) (n : nat) : option formula * nat :=
  match neg with
  | [] => (Some new_clauses, n)
  | c2 :: neg' =>
      match resolvent var c1 c2 with
      | [] => (None, n)
      | r => resolve_inner var c1 neg' (new_clauses ++ [r]) (S n)
      end
  end.

(** The outer loop [for c1 in pos]. *)
Fixpoint resolve_outer (var : Z) (pos neg : formula)
    (new_clauses : formula) (n : nat) : option formula * nat :=
  match pos with
  | [] => (Some new_clauses, n)
  | c1 :: pos' =>
      match resolve_inner var c1 neg new_clauses n with
      | (None, n') => (None, n')
      | (Some new_clauses', n') => resolve_outer var pos' neg new_clauses' n'
      end
  end.

(** [DPSolver._eliminate]: [None] reports an empty resolvent; the clause
    set is then left as it was. *)
Definition _eliminate (var : Z) (s : solver) : option formula * solver :=
  let '(pos, neg, rest) := split var (_clauses s) in
  match resolve_outer var pos neg [] (resolvents (_stats s)) with
  | (None, n) =>
      (None, Solver (_clauses s) (Stats (vars_eliminated (_stats s)) n))
  | (Some new_clauses, n) =>
      let clauses' := rest ++ new_clauses in
      (Some clauses',
       Solver clauses' (Stats (S (vars_eliminated (_stats s))) n))
  end.

(** The body of [while True] in [DPSolver.solve]. *)
Fixpoint solve_loop (fuel : nat) (s : solver) : option bool * solver :=
  match fuel with
  | O => (None, s)
  | S fuel' =>
      if decide (_clauses s = []) then (Some true, s)
      else if existsb (λ c, bool_decide (length c = 0%nat)) (_clauses s)
      then (Some false, s)
      else match _choose_var (_clauses s) with
           | None => (Some true, s)
           | Some v =>
               match _eliminate v s with
               | (None, s') => (Some false, s')
               | (Some _, s') => solve_loop fuel' s'
               end
           end
  end.

(** [DPSolver(clauses).solve()]: [Some true] is SAT, [Some false] is
    UNSAT, [None] is fuel exhausted. *)
Definition solve (fuel : nat) (clauses : formula) : option bool :=
  (solve_loop fuel (__init__ clauses)).1.

End with_set_order.

End DP.

(** ** [src/dpll.py]: class [DPLLSolver] *)

Module DPLL.

(** The four counters of [self._stats]. *)
Record stats := Stats {
  decisions : nat; backtracks : nat; unit_props : nat; pure_lits : nat }.

Definition incr_decisions (st : stats) : stats :=
  Stats (S (decisions st)) (backtracks st) (unit_props st) (pure_lits st).
Definition incr_backtracks (st : stats) : stats :=
  Stats (decisions st) (S (backtracks st)) (unit_props st) (pure_lits st).
Definition incr_unit (st : stats) : stats :=
  Stats (decisions st) (backtracks st) (S (unit_props st)) (pure_lits st).
Definition incr_pure (st : stats) : stats :=
  Stats (decisions st) (backtracks st) (unit_props st) (S (pure_lits st)).

(** How a call ends: it returns a value, it raises [IndexError] (at
    [clauses[0][0]]), or the embedding ran out of fuel. *)
Inductive outcome (A : Type) : Type :=
  | Ret (a : A)
  | IndexError
  | OutOfFuel.
Arguments Ret {A} a.
Arguments IndexError {A}.
Arguments OutOfFuel {A}.

(** [DPLLSolver._find_unit] *)
Fixpoint _find_unit (clauses : formula) : option Z :=
  match clauses with
  | [] => None
  | [l] :: _ => Some l
  | _ :: clauses' => _find_unit clauses'
  end.

(** The dictionary [counter] of [_find_pure]: keys in insertion order. *)
Fixpoint counter_incr (lit : Z) (counter : list (Z * nat)) : list (Z * nat) :=
  match counter with
  | [] => [(lit, 1%nat)]
  | (k, n) :: counter' =>
      if decide (k = lit) then (k, S n) :: counter'
      else (k, n) :: counter_incr lit counter'
  end.

Definition count_literals (clauses : formula) : list (Z * nat) :=
  foldl (λ counter c, foldl (λ counter lit, counter_incr lit counter) counter c)
        [] clauses.

(** [DPLLSolver._find_pure] *)
Definition _find_pure (clauses : formula) : option Z :=
  let counter := count_literals clauses in
  fst <$> find (λ kv, bool_decide (- kv.1 ∉ counter.*1)) counter.

(** The loop of [_simplify], with [new_formula] as accumulator; [None]
    is the early [return None]. *)
Fixpoint simplify_loop (lit : Z) (clauses new_formula : formula)
    : option formula :=
  match clauses with
  | [] => Some new_formula
  | c :: clauses' =>
      if decide (lit ∈ c) then simplify_loop lit clauses' new_formula
      else if decide (- lit ∈ c) then
        match filter (λ x, x ≠ - lit) c with
        | [] => None
        | reduced => simplify_loop lit clauses' (new_formula ++ [reduced])
        end
      else simplify_loop lit clauses' (new_formula ++ [c])
  end.

(** [DPLLSolver._simplify] *)
Definition _simplify (clauses : formula) (lit : Z) : option formula :=
  simplify_loop lit clauses [].

(** First [while True] of [_propagate]: unit propagation. *)
Fixpoint unit_loop (fuel : nat) (clauses : formula) (model : gmap Z bool)
    (st : stats) : outcome (option formula * gmap Z bool * stats) :=
  match fuel with
  | O => OutOfFuel
  | S fuel' =>
      match _find_unit clauses with
      | None => Ret (Some clauses, model, st)
      | Some u =>
          let st' := incr_unit st in
          let model' := <[Z.abs u := (0 <? u)]> model in
          match _simplify clauses u with
          | None => Ret (None, model', st')
          | Some clauses' => unit_loop fuel' clauses' model' st'
          end
      end
  end.

(** Second [while True] of [_propagate]: pure-literal elimination. *)
Fixpoint pure_loop (fuel : nat) (clauses : formula) (model : gmap Z bool)
    (st : stats) : outcome (option formula * gmap Z bool * stats) :=
  match fuel with
  | O => OutOfFuel
  | S fuel' =>
      match _find_pure clauses with
      | None => Ret (Some clauses, model, st)
      | Some p =>
          pure_loop fuel' (filter (λ c, p ∉ c) clauses)
                    (<[Z.abs p := (0 <? p)]> model) (incr_pure st)
      end
  end.

(** [DPLLSolver._propagate] *)
Definition _propagate (fuel : nat) (clauses : formula) (model : gmap Z bool)
    (st : stats) : outcome (option formula * gmap Z bool * stats) :=
  match unit_loop fuel clauses model st with
  | Ret (Some clauses', model', st') => pure_loop fuel clauses' model' st'
  | r => r
  end.

(** The loop [for truth in (True, False)] of [solve]; [rec] is the
    recursive call. *)
Fixpoint branch
    (rec : formula → gmap Z bool → stats → outcome (option (gmap Z bool) * stats))
    (truths : list bool) (pivot : Z) (clauses : formula) (model : gmap Z bool)
    (st : stats) : outcome (option (gmap Z bool) * stats) :=
  match truths with
  | [] => Ret (None, st)
  | truth :: truths' =>
      let next_model := <[Z.abs pivot := truth]> model in
      match _simplify clauses (if truth then pivot else - pivot) with
      | Some reduced =>
          match rec reduced next_model st with
          | Ret (Some result, st') => Ret (Some result, st')
          | Ret (None, st') =>
              branch rec truths' pivot clauses model (incr_backtracks st')
          | IndexError => IndexError
          | OutOfFuel => OutOfFuel
          end
      | None => branch rec truths' pivot clauses model (incr_backtracks st)
      end
  end.

(** [DPLLSolver.solve(clauses, model)] with both arguments given.  The
    recursion is not limited here; [solve_rec_limited] below is the run
    under the recursion limit of the interpreter. *)
Fixpoint solve_rec (fuel : nat) (clauses : formula) (model : gmap Z bool)
    (st : stats) : outcome (option (gmap Z bool) * stats) :=
  match fuel with
  | O => OutOfFuel
  | S fuel' =>
      match _propagate fuel clauses model st with
      | OutOfFuel => OutOfFuel
      | IndexError => IndexError
      | Ret (None, _, st') => Ret (None, st')
      | Ret (Some [], model', st') => Ret (Some model', st')
      | Ret (Some (c :: clauses'), model', st') =>
          match c with
          | [] => IndexError
          | pivot :: _ =>
              branch (solve_rec fuel') [true; false] pivot (c :: clauses')
                     model' (incr_decisions st')
          end
      end
  end.

(** [DPLLSolver(cnf).solve()]: the formula is copied, the model starts
    empty and the counters at zero.  [Ret (Some m, st)] is SAT with model
    [m], [Ret (None, st)] is UNSAT. *)
Definition solve (fuel : nat) (cnf : formula)
    : outcome (option (gmap Z bool) * stats) :=
  solve_rec fuel ((λ c, c) <$> cnf) ∅ (Stats 0 0 0 0).

(** A literal made true by a model: a positive literal whose variable is
    mapped to [True], or a negative one whose variable is mapped to
    [False]. *)
Definition model_lit (m : gmap Z bool) (l : Z) : bool :=
  bool_decide (m !! Z.abs l = Some ((0 <? l))).

Definition model_clause (m : gmap Z bool) (c : clause) : bool :=
  existsb (model_lit m) c.

Definition model_formula (m : gmap Z bool) (f : formula) : bool :=
  forallb (model_clause m) f.

(** How a call ends under the recursion limit of the interpreter: within
    the limit, in one of the outcomes above, or by [RecursionError],
    which nothing in [dpll.py] catches. *)
Inductive limited (A : Type) : Type :=
  | Within (r : outcome A)
  | RecursionError.
Arguments Within {A} r.
Arguments RecursionError {A}.

(** The loop [for truth in (True, False)] under the limit. *)
Fixpoint branch_limited
    (rec : formula → gmap Z bool → stats →
           limited (option (gmap Z bool) * stats))
    (truths : list bool) (pivot : Z) (clauses : formula) (model : gmap Z bool)
    (st : stats) : limited (option (gmap Z bool) * stats) :=
  match truths with
  | [] => Within (Ret (None, st))
  | truth :: truths' =>
      let next_model := <[Z.abs pivot := truth]> model in
      match _simplify clauses (if truth then pivot else - pivot) with
      | Some reduced =>
          match rec reduced next_model st with
          | Within (Ret (Some result, st')) => Within (Ret (Some result, st'))
          | Within (Ret (None, st')) =>
              branch_limited rec truths' pivot clauses model
                             (incr_backtracks st')
          | Within IndexError => Within IndexError
          | Within OutOfFuel => Within OutOfFuel
          | RecursionError => RecursionError
          end
      | None =>
          branch_limited rec truths' pivot clauses model (incr_backtracks st)
      end
  end.

(** [DPLLSolver.solve(clauses, model)] under the limit.  [depth] is the
    number of nested calls of [solve] that the interpreter still has room
    for, the frames of [_propagate] and of the helpers included: every
    call of [solve] takes one, and a call for which none is left ends the
    whole run with [RecursionError].  The two loops of [_propagate] do
    not nest; they run on [fuel]. *)
Fixpoint solve_rec_limited (fuel depth : nat) (clauses : formula)
    (model : gmap Z bool) (st : stats)
    : limited (option (gmap Z bool) * stats) :=
  match depth with
  | O => RecursionError
  | S depth' =>
      match _propagate fuel clauses model st with
      | OutOfFuel => Within OutOfFuel
      | IndexError => Within IndexError
      | Ret (None, _, st') => Within (Ret (None, st'))
      | Ret (Some [], model', st') => Within (Ret (Some model', st'))
      | Ret (Some (c :: clauses'), model', st') =>
          match c with
          | [] => Within IndexError
          | pivot :: _ =>
              branch_limited (solve_rec_limited fuel depth') [true; false]
                             pivot (c :: clauses') model' (incr_decisions st')
          end
      end
  end.

(** [DPLLSolver(cnf).solve()] under the limit. *)
Definition solve_limited (fuel depth : nat) (cnf : formula)
    : limited (option (gmap Z bool) * stats) :=
  solve_rec_limited fuel depth ((λ c, c) <$> cnf) ∅ (Stats 0 0 0 0).

End DPLL.

(** ** [src/resolution.py]: class [ResolutionEngine] *)

Module Resolution.

(** The instance fields together with the locals [pool] and
    [total_count] of [solve]. *)
Record state := State {
  clauses_initial : list (gset Z);
  clauses_seen : gset (gset Z);
  derived_indices : list nat;
  pairs : nat;
  pool : list (gset Z);
  total_count : nat }.

(** [frozenset(...)], as [load_dimacs] applies it to the literals of each
    clause it reads: the same clause, in the representation of this
    engine. *)
Definition frozenset (c : clause) : gset Z := list_to_set c.

(** How a loop is left early: [return True], or an index out of range. *)
Inductive exit := Returned (b : bool) | Raised.

(** [ResolutionEngine.__init__] followed by the first two statements of
    [solve]. *)
Definition __init__ (clauses_input : list (gset Z)) : state :=
  State clauses_input (list_to_set clauses_input) [] 0
        clauses_input (length clauses_input).

(** One admissible enumeration of the [frozenset] at a position. *)
Definition canonical_iter (i : nat) (s : gset Z) : list Z := elements s.

Section with_set_order.
Variable set_iter : nat → gset Z → list Z.

(** [ResolutionEngine._resolve_pair], [i] being the position of [lhs]
    in the pool. *)
Definition _resolve_pair (i : nat) (lhs rhs : gset Z) : list (gset Z) :=
  (λ lit, (lhs ∖ {[ lit ]}) ∪ (rhs ∖ {[ - lit ]}))
    <$> filter (λ lit, - lit ∈ rhs) (set_iter i lhs).

(** The innermost loop [for clause in self._resolve_pair(...)]. *)
Fixpoint add_resolvents (rs : list (gset Z)) (s : state) : option exit * state :=
  match rs with
  | [] => (None, s)
  | c :: rs' =>
      let s1 := State (clauses_initial s) (clauses_seen s) (derived_indices s)
                      (S (pairs s)) (pool s) (total_count s) in
      if decide (c ∉ clauses_seen s1) then
        let n := S (total_count s1) in
        let s2 := State (clauses_initial s1) ({[ c ]} ∪ clauses_seen s1)
                        (derived_indices s1 ++ [n]) (pairs s1)
                        (pool s1 ++ [c]) n in
        if decide (c = ∅) then (Some (Returned true), s2)
        else add_resolvents rs' s2
      else add_resolvents rs' s1
  end.

(** The loop [for j in range(i + 1, current_len)], over its indices. *)
Fixpoint loop_j (i : nat) (js : list nat) (s : state) : option exit * state :=
  match js with
  | [] => (None, s)
  | j :: js' =>
      match pool s !! i, pool s !! j with
      | Some lhs, Some rhs =>
          match add_resolvents (_resolve_pair i lhs rhs) s with
          | (None, s') => loop_j i js' s'
          | r => r
          end
      | _, _ => (Some Raised, s)
      end
  end.

(** The loop [for i in range(current_len)], over its indices. *)
Fixpoint loop_i (current_len : nat) (idx : list nat) (s : state)
    : option exit * state :=
  match idx with
  | [] => (None, s)
  | i :: idx' =>
      match loop_j i (seq (S i) (current_len - S i)) s with
      | (None, s') => loop_i current_len idx' s'
      | r => r
      end
  end.

(** One pass of the outer [while True]: the two index loops. *)
Definition pass (s : state) : option exit * state :=
  let current_len := length (pool s) in
  loop_i current_len (seq 0 current_len) s.

(** The test that ends [solve]:
    [len(pool) == len(self.clauses_initial) + len(self.derived_indices)
     == total_count]. *)
Definition exit_test (s : state) : bool :=
  bool_decide (length (pool s)
               = (length (clauses_initial s) + length (derived_indices s))%nat)
  && bool_decide ((length (clauses_initial s) + length (derived_indices s))%nat
                  = total_count s).

(** The [while True] of [solve]. *)
Fixpoint solve_loop (fuel : nat) (s : state) : option exit * state :=
  match fuel with
  | O => (None, s)
  | S fuel' =>
      match pass s with
      | (None, s') =>
          if exit_test s' then (Some (Returned false), s')
          else solve_loop fuel' s'
      | r => r
      end
  end.

(** [ResolutionEngine(clauses_input).solve()]: [Some (Returned true)] is
    UNSAT, [Some (Returned false)] is SAT, [None] is fuel exhausted. *)
Definition solve (fuel : nat) (clauses_input : list (gset Z)) : option exit :=
  (solve_loop fuel (__init__ clauses_input)).1.

End with_set_order.

End Resolution.

(** ** The engines over a store of mutable objects

    The lists and dictionaries of Python are objects that are shared by
    reference and changed in place.  This second embedding keeps them in
    a store: a clause is a list object holding integers, a formula a list
    object holding references to clauses, a model a dictionary object,
    and [self._stats] an object holding the counters.  Every list display
    or comprehension, slice copy, [dict.copy()] and [+] on lists
    allocates; [append], item assignment and [+=] on a counter write in
    place.  A computation that reads an object of the wrong kind is
    stuck ([None]). *)

Module Store.

Definition loc := nat.

Inductive obj :=
  | Ints (lits : list Z)
  | Refs (items : list loc)
  | Dict (entries : gmap Z bool)
  | DPCounters (st : DP.stats)
  | DPLLCounters (st : DPLL.stats).

Definition store := list obj.

Definition M (A : Type) : Type := store → option (A * store).

#[export] Instance M_ret : MRet M := λ A a h, Some (a, h).

#[export] Instance M_bind : MBind M := λ A B k m h,
  match m h with
  | Some (a, h') => k a h'
  | None => None
  end.

(** A fresh object, at the next free location. *)
Definition new (o : obj) : M loc := λ h, Some (length h, h ++ [o]).

Definition get_ints (l : loc) : M (list Z) := λ h,
  match h !! l with Some (Ints c) => Some (c, h) | _ => None end.

Definition get_refs (l : loc) : M (list loc) := λ h,
  match h !! l with Some (Refs rs) => Some (rs, h) | _ => None end.

Definition get_dict (l : loc) : M (gmap Z bool) := λ h,
  match h !! l with Some (Dict m) => Some (m, h) | _ => None end.

(** [l.append(r)] *)
Definition append (l r : loc) : M () := λ h,
  match h !! l with
  | Some (Refs rs) => Some ((), <[l := Refs (rs ++ [r])]> h)
  | _ => None
  end.

(** [l[k] = v] on a dictionary *)
Definition setitem (l : loc) (k : Z) (v : bool) : M () := λ h,
  match h !! l with
  | Some (Dict m) => Some ((), <[l := Dict (<[k := v]> m)]> h)
  | _ => None
  end.

(** [self._stats[key] += 1], for the two kinds of counters *)
Definition bump_dp (l : loc) (f : DP.stats → DP.stats) : M () := λ h,
  match h !! l with
  | Some (DPCounters st) => Some ((), <[l := DPCounters (f st)]> h)
  | _ => None
  end.

Definition bump_dpll (l : loc) (f : DPLL.stats → DPLL.stats) : M () := λ h,
  match h !! l with
  | Some (DPLLCounters st) => Some ((), <[l := DPLLCounters (f st)]> h)
  | _ => None
  end.

(** [for x in xs: body], where the body may leave the enclosing
    function with a value ([Some]). *)
Fixpoint for_ {A R} (xs : list A) (body : A → M (option R)) : M (option R) :=
  match xs with
  | [] => mret None
  | x :: xs' =>
      r ← body x;
      match r with
      | Some v => mret (Some v)
      | None => for_ xs' body
      end
  end.

(** The clauses a list of clauses refers to, read without writing. *)
Definition read_formula (l : loc) : M formula :=
  cs ← get_refs l; mapM get_ints cs.

(** [[c[:] for c in clauses]] *)
Definition copy_clauses (clauses : loc) : M loc :=
  cs ← get_refs clauses;
  out ← new (Refs []);
  _ ← for_ (R := ()) cs (λ c,
        lits ← get_ints c; c' ← new (Ints lits); append out c';; mret None);
  mret out.

End Store.

Module StoreDP.
Import Store.

(** The attributes of a [DPSolver] instance: references to its clause
    list and to its counters. *)
Record solver := Solver { _clauses : loc; _stats : loc }.

Definition __init__ (clauses : loc) : M solver :=
  copy ← copy_clauses clauses;
  st ← new (DPCounters (DP.Stats 0 0));
  mret (Solver copy st).

Section with_set_order.
Variable union_iter : clause → clause → list Z.

Definition _eliminate (self : solver) (var : Z) : M (option loc * solver) :=
  pos ← new (Refs []);
  neg ← new (Refs []);
  rest ← new (Refs []);
  cs ← get_refs (_clauses self);
  _ ← for_ (R := ()) cs (λ c,
        lits ← get_ints c;
        (if decide (var ∈ lits) then append pos c
         else if decide (- var ∈ lits) then append neg c
         else append rest c);;
        mret None);
  new_clauses ← new (Refs []);
  ps ← get_refs pos;
  r ← for_ ps (λ c1,
        ns ← get_refs neg;
        for_ ns (λ c2,
          l1 ← get_ints c1;
          l2 ← get_ints c2;
          let lits := filter (λ l, l ∉ ({[ var; - var ]} : gset Z))
                             (union_iter l1 l2) in
          resolvent ← new (Ints lits);
          match lits with
          | [] => mret (Some ())
          | _ =>
              append new_clauses resolvent;;
              bump_dp (_stats self)
                (λ st, DP.Stats (DP.vars_eliminated st) (S (DP.resolvents st)));;
              mret None
          end));
  match r with
  | Some _ => mret (None, self)
  | None =>
      rs ← get_refs rest;
      ns ← get_refs new_clauses;
      out ← new (Refs (rs ++ ns));
      bump_dp (_stats self)
        (λ st, DP.Stats (S (DP.vars_eliminated st)) (DP.resolvents st));;
      mret (Some out, Solver out (_stats self))
  end.

Fixpoint solve_loop (fuel : nat) (self : solver) : M (option bool * solver) :=
  match fuel with
  | O => mret (None, self)
  | S fuel' =>
      F ← read_formula (_clauses self);
      if decide (F = []) then mret (Some true, self)
      else if existsb (λ c, bool_decide (length c = 0%nat)) F
      then mret (Some false, self)
      else match DP._choose_var F with
           | None => mret (Some true, self)
           | Some v =>
               '(r, self') ← _eliminate self v;
               match r with
               | None => mret (Some false, self')
               | Some _ => solve_loop fuel' self'
               end
           end
  end.

(** [DPSolver(clauses).solve()], [clauses] being the caller's list. *)
Definition run (fuel : nat) (clauses : loc) : M (option bool * solver) :=
  self ← __init__ clauses; solve_loop fuel self.

End with_set_order.
End StoreDP.

Module StoreDPLL.
Import Store.

Record solver := Solver { _formula : loc; _stats : loc }.

(** [__init__] keeps the reference it is given. *)
Definition __init__ (cnf : loc) : M solver :=
  st ← new (DPLLCounters (DPLL.Stats 0 0 0 0));
  mret (Solver cnf st).

Definition _simplify (clauses : loc) (lit : Z) : M (option loc) :=
  new_formula ← new (Refs []);
  cs ← get_refs clauses;
  r ← for_ cs (λ c,
        lits ← get_ints c;
        if decide (lit ∈ lits) then mret None
        else if decide (- lit ∈ lits) then
          let kept := filter (λ x, x ≠ - lit) lits in
          reduced ← new (Ints kept);
          match kept with
          | [] => mret (Some ())
          | _ => append new_formula reduced;; mret None
          end
        else
          copy ← new (Ints lits);
          append new_formula copy;; mret None);
  mret (match r with Some _ => None | None => Some new_formula end).

Fixpoint unit_loop (fuel : nat) (self : solver) (clauses model : loc)
    : M (DPLL.outcome (option loc)) :=
  match fuel with
  | O => mret DPLL.OutOfFuel
  | S fuel' =>
      F ← read_formula clauses;
      match DPLL._find_unit F with
      | None => mret (DPLL.Ret (Some clauses))
      | Some u =>
          bump_dpll (_stats self) DPLL.incr_unit;;
          setitem model (Z.abs u) (0 <? u);;
          r ← _simplify clauses u;
          match r with
          | None => mret (DPLL.Ret None)
          | Some clauses' => unit_loop fuel' self clauses' model
          end
      end
  end.

Fixpoint pure_loop (fuel : nat) (self : solver) (clauses model : loc)
    : M (DPLL.outcome (option loc)) :=
  match fuel with
  | O => mret DPLL.OutOfFuel
  | S fuel' =>
      F ← read_formula clauses;
      match DPLL._find_pure F with
      | None => mret (DPLL.Ret (Some clauses))
      | Some p =>
          bump_dpll (_stats self) DPLL.incr_pure;;
          setitem model (Z.abs p) (0 <? p);;
          cs ← get_refs clauses;
          kept ← new (Refs []);
          _ ← for_ (R := ()) cs (λ c,
                lits ← get_ints c;
                (if decide (p ∉ lits) then append kept c else mret ());;
                mret None);
          pure_loop fuel' self kept model
      end
  end.

Definition _propagate (fuel : nat) (self : solver) (clauses model : loc)
    : M (DPLL.outcome (option loc)) :=
  r ← unit_loop fuel self clauses model;
  match r with
  | DPLL.Ret (Some clauses') => pure_loop fuel self clauses' model
  | r => mret r
  end.

Fixpoint branch (rec : loc → loc → M (DPLL.outcome (option loc)))
    (truths : list bool) (pivot : Z) (self : solver) (clauses model : loc)
    : M (DPLL.outcome (option loc)) :=
  match truths with
  | [] => mret (DPLL.Ret None)
  | truth :: truths' =>
      m ← get_dict model;
      next_model ← new (Dict m);
      setitem next_model (Z.abs pivot) truth;;
      reduced ← _simplify clauses (if truth then pivot else - pivot);
      match reduced with
      | Some reduced =>
          result ← rec reduced next_model;
          match result with
          | DPLL.Ret (Some result) => mret (DPLL.Ret (Some result))
          | DPLL.Ret None =>
              bump_dpll (_stats self) DPLL.incr_backtracks;;
              branch rec truths' pivot self clauses model
          | DPLL.IndexError => mret DPLL.IndexError
          | DPLL.OutOfFuel => mret DPLL.OutOfFuel
          end
      | None =>
          bump_dpll (_stats self) DPLL.incr_backtracks;;
          branch rec truths' pivot self clauses model
      end
  end.

Fixpoint solve_rec (fuel : nat) (self : solver) (clauses model : loc)
    : M (DPLL.outcome (option loc)) :=
  match fuel with
  | O => mret DPLL.OutOfFuel
  | S fuel' =>
      r ← _propagate fuel self clauses model;
      match r with
      | DPLL.OutOfFuel => mret DPLL.OutOfFuel
      | DPLL.IndexError => mret DPLL.IndexError
      | DPLL.Ret None => mret (DPLL.Ret None)
      | DPLL.Ret (Some clauses') =>
          F ← read_formula clauses';
          match F with
          | [] => mret (DPLL.Ret (Some model))
          | [] :: _ => mret DPLL.IndexError
          | (pivot :: _) :: _ =>
              bump_dpll (_stats self) DPLL.incr_decisions;;
              branch (solve_rec fuel' self) [true; false] pivot self
                     clauses' model
          end
      end
  end.

(** [self.solve()] with both arguments defaulted. *)
Definition solve (fuel : nat) (self : solver) : M (DPLL.outcome (option loc)) :=
  clauses ← copy_clauses (_formula self);
  model ← new (Dict ∅);
  solve_rec fuel self clauses model.

(** [DPLLSolver(cnf).solve()], [cnf] being the caller's list. *)
Definition run (fuel : nat) (cnf : loc) : M (DPLL.outcome (option loc)) :=
  self ← __init__ cnf; solve fuel self.

End StoreDPLL.

(** A store holding the clauses of [F] and, last, the list that refers
    to them. *)
Definition store_of (F : formula) : Store.store :=
  (Store.Ints <$> F) ++ [Store.Refs (seq 0 (length F))].

(** ** The readers of DIMACS files *)

(** A file is given by its lines, as the iteration [for line in fh]
    yields them, and a line by its characters (code points).  The
    builtins [str.strip] and [str.split] are written out over the test
    [is_space] for whitespace that both share; [int] is a parameter, its
    [None] standing for [ValueError]. *)
Module Py.

Definition is_comment (ch : N) : bool :=
  bool_decide (ch = 99%N ∨ ch = 112%N).

Section builtins.
Variable is_space : N → bool.

Fixpoint lstrip (s : list N) : list N :=
  match s with
  | [] => []
  | ch :: s' => if is_space ch then lstrip s' else s
  end.

(** [s.strip()] *)
Definition strip (s : list N) : list N :=
  rev (lstrip (rev (lstrip s))).

Fixpoint split_from (word s : list N) : list (list N) :=
  match s with
  | [] => match word with [] => [] | _ => [word] end
  | ch :: s' =>
      if is_space ch then
        match word with
        | [] => split_from [] s'
        | _ => word :: split_from [] s'
        end
      else split_from (word ++ [ch]) s'
  end.

(** [s.split()] *)
Definition split (s : list N) : list (list N) := split_from [] s.

End builtins.

(** The ASCII characters that count as whitespace, and the value of a
    plain decimal numeral with an optional sign: instances of the two
    parameters. *)
Definition ascii_space (ch : N) : bool :=
  bool_decide (ch ∈ [9; 10; 11; 12; 13; 28; 29; 30; 31; 32]%N).

Definition digit (ch : N) : option Z :=
  if bool_decide (48 ≤ ch ≤ 57)%N then Some (Z.of_N ch - 48) else None.

Definition digits (s : list N) : option Z :=
  match s with
  | [] => None
  | _ => foldl (λ acc ch, n ← acc; d ← digit ch; Some (10 * n + d)) (Some 0) s
  end.

Definition decimal (s : list N) : option Z :=
  match s with
  | 45%N :: s' => Z.opp <$> digits s'
  | 43%N :: s' => digits s'
  | _ => digits s
  end.

End Py.

(** [src/dp.py]: [parse_dimacs] *)
Module DPReader.
Section reader.
Variable is_space : N → bool.
Variable int : list N → option Z.

Fixpoint parse_loop (lines : list (list N)) (cnf : formula) : option formula :=
  match lines with
  | [] => Some cnf
  | line :: lines' =>
      match Py.strip is_space line with
      | [] => parse_loop lines' cnf
      | ch :: rest =>
          if Py.is_comment ch then parse_loop lines' cnf
          else
            match mapM int (Py.split is_space (ch :: rest)) with
            | None => None
            | Some [] => parse_loop lines' cnf
            | Some lits => parse_loop lines' (cnf ++ [removelast lits])
            end
      end
  end.

Definition parse_dimacs (lines : list (list N)) : option formula :=
  parse_loop lines [].

End reader.
End DPReader.

(** [src/dpll.py]: [parse_dimacs] *)
Module DPLLReader.
Section reader.
Variable is_space : N → bool.
Variable int : list N → option Z.

(** [if literals and literals[-1] == 0: literals.pop()] *)
Definition pop_zero (literals : list Z) : list Z :=
  match last literals with
  | Some 0 => removelast literals
  | _ => literals
  end.

Fixpoint parse_loop (lines : list (list N)) (formula_ : formula)
    : option formula :=
  match lines with
  | [] => Some formula_
  | line :: lines' =>
      match line with
      | [] => parse_loop lines' formula_
      | ch :: _ =>
          if Py.is_comment ch then parse_loop lines' formula_
          else
            match mapM int (Py.split is_space (Py.strip is_space line)) with
            | None => None
            | Some literals =>
                match pop_zero literals with
                | [] => parse_loop lines' formula_
                | literals' => parse_loop lines' (formula_ ++ [literals'])
                end
            end
      end
  end.

Definition parse_dimacs (lines : list (list N)) : option formula :=
  parse_loop lines [].

End reader.
End DPLLReader.

(** [src/resolution.py]: [load_dimacs] *)
Module ResolutionReader.
Section reader.
Variable is_space : N → bool.
Variable int : list N → option Z.

Fixpoint load_loop (lines : list (list N)) (clauses : list (gset Z))
    : option (list (gset Z)) :=
  match lines with
  | [] => Some clauses
  | line :: lines' =>
      match Py.strip is_space line with
      | [] => load_loop lines' clauses
      | ch :: rest =>
          if Py.is_comment ch then load_loop lines' clauses
          else
            match mapM int (Py.split is_space (ch :: rest)) with
            | None => None
            | Some numbers =>
                load_loop lines'
                  (clauses ++ [Resolution.frozenset (removelast numbers)])
            end
      end
  end.

Definition load_dimacs (lines : list (list N)) : option (list (gset Z)) :=
  load_loop lines [].

End reader.
End ResolutionReader.

(** ** Notions used in the statements *)

(** All resolvents of the positive against the negative clauses, in the
    order of the two nested loops of [_eliminate]. *)
Definition pairwise_resolvents (union_iter : clause → clause → list Z)
    (var : Z) (pos neg : formula) : formula :=
  pos ≫= λ c1, DP.resolvent union_iter var c1 <$> neg.

(** The valuation [a] changed so as to make the literal [l] true. *)
Definition force (a : Z → bool) (l : Z) : Z → bool :=
  λ x, if decide (x = Z.abs l) then 0 <? l else a x.

(** The size of a clause set: its total number of literal occurrences. *)
Definition lit_count (f : formula) : nat := length (concat f).

Definition all_nonempty (f : formula) : Prop := Forall (λ c, c ≠ []) f.

(** A call of DPLL that, from [n] units of fuel on, ends in one fixed
    outcome, which is not fuel exhaustion, and which is not [IndexError]
    when [safe] holds. *)
Definition ends_from {A} (n : nat) (safe : Prop)
    (run : nat → DPLL.outcome A) : Prop :=
  ∃ res, (∀ fuel, (n ≤ fuel)%nat → run fuel = res)
         ∧ res ≠ DPLL.OutOfFuel
         ∧ (safe → res ≠ DPLL.IndexError).

(** The bookkeeping identity behind the test that ends
    [ResolutionEngine.solve]: the pool holds the initial clauses and the
    derived ones, and [total_count] counts them. *)
Definition counts_agree (s : Resolution.state) : Prop :=
  length (Resolution.pool s)
  = (length (Resolution.clauses_initial s)
     + length (Resolution.derived_indices s))%nat
  ∧ (length (Resolution.clauses_initial s)
     + length (Resolution.derived_indices s))%nat
    = Resolution.total_count s.

(** What every loop of a resolution pass preserves: the counts agree,
    the pool is only appended to; a loop is left early only by
    [return True], which takes the empty clause not to be in
    [clauses_seen] yet. *)
Definition pass_step (s : Resolution.state)
    (r : option Resolution.exit * Resolution.state) : Prop :=
  (counts_agree s → counts_agree r.2)
  ∧ (∃ new, Resolution.pool r.2 = Resolution.pool s ++ new)
  ∧ Resolution.clauses_seen s ⊆ Resolution.clauses_seen r.2
  ∧ r.1 ≠ Some (Resolution.Returned false)
  ∧ r.1 ≠ Some Resolution.Raised
  ∧ (r.1 = Some (Resolution.Returned true) → ∅ ∉ Resolution.clauses_seen s).

(** A pool in which every pair of clauses has at most one resolvent. *)
Definition single_resolvents (p : list (gset Z)) : bool :=
  forallb (λ lhs,
    forallb (λ rhs,
      bool_decide
        (length (Resolution._resolve_pair Resolution.canonical_iter 0 lhs rhs)
         ≤ 1)%nat) p) p.

Section store_notions.
Import Store.

(** [wp m Q h]: from the store [h] the computation [m] is not stuck, and
    its value and final store satisfy [Q]. *)
Definition wp {A} (m : M A) (Q : A → store → Prop) (h : store) : Prop :=
  ∃ a h', m h = Some (a, h') ∧ Q a h'.

(** The references [cs] lead to the clauses of [F]. *)
Definition is_clauses (h : store) (cs : list loc) (F : formula) : Prop :=
  Forall2 (λ c lits, h !! c = Some (Ints lits)) cs F.

(** The object at [l] is a list of references to the clauses of [F]. *)
Definition is_formula (h : store) (l : loc) (F : formula) : Prop :=
  ∃ cs, h !! l = Some (Refs cs) ∧ is_clauses h cs F.

(** From [h] to [h'] every object of [h] outside the locations [ws] is
    unchanged. *)
Definition kept (ws : list loc) (h h' : store) : Prop :=
  ∀ l o, h !! l = Some o → l ∉ ws → h' !! l = Some o.

(** [h'] is [h] with the object at [l] replaced. *)
Definition written (l : loc) (h h' : store) : Prop :=
  length h' = length h ∧ ∀ l', l' ≠ l → h' !! l' = h !! l'.

(** Dictionaries and counters, as opposed to lists. *)
Definition scalar (o : obj) : Prop :=
  match o with Ints _ | Refs _ => False | _ => True end.

Definition scalars (h : store) (ws : list loc) : Prop :=
  Forall (λ w, ∃ o, h !! w = Some o ∧ scalar o) ws.

(** How a result over the store ([r], in [h']) renders the result of
    [_propagate] over values. *)
Definition propagated (h' : store) (model stats : loc)
    (r : DPLL.outcome (option loc))
    (p : DPLL.outcome (option formula * gmap Z bool * DPLL.stats)) : Prop :=
  match p with
  | DPLL.Ret (F', m', st') =>
      h' !! model = Some (Dict m')
      ∧ h' !! stats = Some (DPLLCounters st')
      ∧ match F' with
        | Some F' => ∃ cl, r = DPLL.Ret (Some cl) ∧ is_formula h' cl F'
        | None => r = DPLL.Ret None
        end
  | DPLL.IndexError => r = DPLL.IndexError
  | DPLL.OutOfFuel => r = DPLL.OutOfFuel
  end.

(** How a result over the store renders the result of [solve] over
    values: the returned reference leads to the returned model. *)
Definition solved (h' : store) (stats : loc)
    (r : DPLL.outcome (option loc))
    (p : DPLL.outcome (option (gmap Z bool) * DPLL.stats)) : Prop :=
  match p with
  | DPLL.Ret (res, st') =>
      h' !! stats = Some (DPLLCounters st')
      ∧ match res with
        | Some mres => ∃ l, r = DPLL.Ret (Some l) ∧ h' !! l = Some (Dict mres)
        | None => r = DPLL.Ret None
        end
  | DPLL.IndexError => r = DPLL.IndexError
  | DPLL.OutOfFuel => r = DPLL.OutOfFuel
  end.

End store_notions.

(** A line on which the readers of [dp.py] and [dpll.py] do the same:
    leading whitespace does not hide a [c] or [p], and the numbers of a
    clause line are at least one literal followed by a final [0]. *)
Definition well_formed_line (is_space : N → bool) (int : list N → option Z)
    (line : list N) : Prop :=
  from_option Py.is_comment false (head line)
  = from_option Py.is_comment false (head (Py.strip is_space line))
  ∧ (from_option Py.is_comment false (head line) = false →
     ∀ lits, mapM int (Py.split is_space (Py.strip is_space line)) = Some lits →
             lits = [] ∨ ∃ c, c ≠ [] ∧ lits = c ++ [0]).

(** [c] is a resolvent of two of the clauses [cs], the first at an
    earlier position than the second. *)
Definition resolvent_of (cs : list (gset Z)) (c : gset Z) : Prop :=
  ∃ (i j : nat) lit lhs rhs,
    (i < j)%nat ∧ cs !! i = Some lhs ∧ cs !! j = Some rhs
    ∧ lit ∈ lhs ∧ (- lit) ∈ rhs
    ∧ c = (lhs ∖ {[ lit ]}) ∪ (rhs ∖ {[ - lit ]}).

(** The state of [ResolutionEngine] in terms of the input [cs] and of
    the clauses [new] derived so far. *)
Definition bookkeeping (cs : list (gset Z)) (s : Resolution.state) : Prop :=
  ∃ new,
    Resolution.pool s = cs ++ new
    ∧ Resolution.clauses_initial s = cs
    ∧ Resolution.clauses_seen s = list_to_set (cs ++ new)
    ∧ Resolution.derived_indices s = seq (S (length cs)) (length new)
    ∧ Resolution.total_count s = (length cs + length new)%nat
    ∧ NoDup new
    ∧ (∀ c, c ∈ new → (c ∉ cs) ∧ resolvent_of cs c)
    ∧ (length new ≤ Resolution.pairs s)%nat.

(** The invariant of the two index loops over the pairs of input
    clauses: the state is as [bookkeeping] says; if the loop is left by
    [return True], the empty clause is in the pool; if it runs to its
    end, the resolvents of the pairs [done] are in [clauses_seen], and
    the empty clause is there only if it was there before. *)
Definition loop_post (set_iter : nat → gset Z → list Z)
    (cs : list (gset Z)) (done_ : nat → nat → Prop)
    (s : Resolution.state) (r : option Resolution.exit * Resolution.state)
    : Prop :=
  bookkeeping cs r.2
  ∧ (r.1 = Some (Resolution.Returned true) → ∅ ∈ Resolution.pool r.2)
  ∧ (r.1 = None →
     (∀ i j lhs rhs c, done_ i j →
        cs !! i = Some lhs → cs !! j = Some rhs →
        c ∈ Resolution._resolve_pair set_iter i lhs rhs →
        c ∈ Resolution.clauses_seen r.2)
     ∧ (∅ ∈ Resolution.clauses_seen r.2 → ∅ ∈ Resolution.clauses_seen s)).

(** What the model gains in a run of one of the loops: outside the
    variables of the clause set it is left as it was, and any model that
    agrees with it outside the variables still to be treated carries the
    clauses left over back to the clauses given. *)
Definition model_step (cs : formula) (m : gmap Z bool)
    (cs' : formula) (m' : gmap Z bool) : Prop :=
  formula_vars cs' ⊆ formula_vars cs
  ∧ (∀ k, k ∉ formula_vars cs → m' !! k = m !! k)
  ∧ (∀ M : gmap Z bool,
       (∀ k, k ∉ formula_vars cs' → M !! k = m' !! k) →
       DPLL.model_formula M cs' = true → DPLL.model_formula M cs = true).

(** A store with the clauses of [F], the list that refers to them, a
    dictionary and the counters of a solver. *)
Definition store_with_model (F : formula) (m : gmap Z bool)
    (st : DPLL.stats) : Store.store :=
  store_of F ++ [Store.Dict m; Store.DPLLCounters st].

(** * Properties *)

(** ** Edge cases *)

(** C7.  On the formula with zero clauses the three engines report SAT:
    DP returns [True], DPLL returns the empty model (and touches no
    counter), resolution returns [False].  This holds for every
    enumeration order of sets and as soon as one loop iteration is
    allowed. *)
Theorem empty_formula_is_sat (union_iter : clause → clause → list Z)
    (set_iter : nat → gset Z → list Z) (fuel : nat) :
  DP.solve union_iter (S fuel) [] = Some true
  ∧ DPLL.solve (S fuel) [] = DPLL.Ret (Some ∅, DPLL.Stats 0 0 0 0)
  ∧ Resolution.solve set_iter (S fuel) [] = Some (Resolution.Returned false).
Proof. repeat split. Qed.

(** ** The scenario [{1, 2}], [{-1}] of DPLL *)

Lemma dpll_scenario2_short (fuel : nat) :
  (fuel < 3)%nat → DPLL.solve fuel [[1; 2]; [-1]] = DPLL.OutOfFuel.
Proof.
  intros H. destruct fuel as [|[|[|fuel]]]; [reflexivity.. | lia].
Qed.

Lemma dpll_scenario2_run (fuel : nat) :
  DPLL.solve (3 + fuel) [[1; 2]; [-1]]
  = DPLL.Ret (Some (<[2 := true]> (<[1 := false]> ∅)), DPLL.Stats 0 0 2 0).
Proof. vm_compute. reflexivity. Qed.

(** C8, as stated, fails: no run of [solve] on [{1, 2}], [{-1}] returns
    with the unit-propagation counter at 1. *)
Lemma dpll_scenario2_counter_not_one :
  ¬ ∃ fuel m st,
      DPLL.solve fuel [[1; 2]; [-1]] = DPLL.Ret (Some m, st)
      ∧ m !! 1 = Some false ∧ m !! 2 = Some true
      ∧ DPLL.unit_props st = 1%nat.
Proof.
  intros (fuel & m & st & Hrun & _ & _ & Hunit).
  destruct (decide (fuel < 3)%nat) as [Hlt|Hge].
  - rewrite dpll_scenario2_short in Hrun by done. discriminate.
  - replace fuel with (3 + (fuel - 3))%nat in Hrun by lia.
    rewrite dpll_scenario2_run in Hrun. injection Hrun as _ <-.
    discriminate.
Qed.

(** C8, amended.  On [{1, 2}], [{-1}] DPLL returns the model that maps
    variable 1 to false and variable 2 to true, after two unit
    propagations (on [-1], then on the clause [{2}] this leaves), with no
    pure-literal step, decision or backtrack. *)
Theorem dpll_scenario2 (fuel : nat) :
  ∃ m, DPLL.solve (3 + fuel) [[1; 2]; [-1]]
       = DPLL.Ret (Some m, DPLL.Stats 0 0 2 0)
       ∧ m !! 1 = Some false ∧ m !! 2 = Some true
       ∧ dom m = {[ 1; 2 ]}.
Proof.
  eexists. split; [apply dpll_scenario2_run|].
  repeat split; vm_compute; reflexivity.
Qed.

(** ** Model validity of DPLL *)

(** C4.  On [{-1, 2}], [{1, -2}] DPLL decides on the pivot [-1], records
    variable 1 as true although it simplified under the literal [-1], and
    returns a model under which the first clause has no true literal. *)
Theorem dpll_negative_pivot_model (fuel : nat) :
  ∃ m, DPLL.solve (3 + fuel) [[-1; 2]; [1; -2]]
       = DPLL.Ret (Some m, DPLL.Stats 1 0 1 0)
       ∧ m !! 1 = Some true ∧ m !! 2 = Some false
       ∧ DPLL.model_clause m [-1; 2] = false
       ∧ DPLL.model_formula m [[-1; 2]; [1; -2]] = false.
Proof.
  exists (<[2 := false]> (<[1 := true]> ∅)).
  repeat split; vm_compute; reflexivity.
Qed.

(** ** Davis-Putnam elimination *)

Section DP_facts.
Variable union_iter : clause → clause → list Z.
Hypothesis union_iter_perm :
  ∀ c1 c2, union_iter c1 c2 ≡ₚ DP.canonical_union c1 c2.

Lemma split_step_acc var (cs : formula) pos neg rest :
  foldl (DP.split_step var) (pos, neg, rest) cs
  = (pos ++ filter (λ c, var ∈ c) cs,
     neg ++ filter (λ c, (var ∉ c) ∧ (- var) ∈ c) cs,
     rest ++ filter (λ c, (var ∉ c) ∧ (- var) ∉ c) cs).
Proof.
  revert pos neg rest. induction cs as [|c cs IH]; intros pos neg rest.
  - by rewrite !app_nil_r.
  - cbn [foldl]. unfold DP.split_step at 2.
    rewrite !filter_cons.
    destruct (decide (var ∈ c)) as [Hv|Hv].
    + rewrite IH. rewrite !decide_False by tauto.
      by rewrite <- app_assoc.
    + destruct (decide (- var ∈ c)) as [Hn|Hn]; rewrite IH.
      * rewrite decide_True by tauto. rewrite decide_False by tauto.
        by rewrite <- app_assoc.
      * rewrite decide_False by tauto. rewrite decide_True by tauto.
        by rewrite <- app_assoc.
Qed.

(** The three-way split of [_eliminate]: clauses with [var]; clauses
    with [-var] but not [var]; clauses with neither. *)
Lemma split_spec var (cs : formula) :
  DP.split var cs
  = (filter (λ c, var ∈ c) cs,
     filter (λ c, (var ∉ c) ∧ (- var) ∈ c) cs,
     filter (λ c, (var ∉ c) ∧ (- var) ∉ c) cs).
Proof. unfold DP.split. by rewrite split_step_acc. Qed.

Lemma elem_of_resolvent var c1 c2 l :
  l ∈ DP.resolvent union_iter var c1 c2
  ↔ (l ∈ c1 ∨ l ∈ c2) ∧ l ≠ var ∧ l ≠ - var.
Proof.
  unfold DP.resolvent. rewrite list_elem_of_filter, union_iter_perm.
  unfold DP.canonical_union. rewrite elem_of_elements. set_solver.
Qed.

Lemma resolvent_NoDup var c1 c2 : NoDup (DP.resolvent union_iter var c1 c2).
Proof.
  unfold DP.resolvent. apply NoDup_filter.
  rewrite union_iter_perm. apply NoDup_elements.
Qed.

Lemma resolve_inner_Some var c1 neg acc n new n' :
  DP.resolve_inner union_iter var c1 neg acc n = (Some new, n') →
  new = acc ++ (DP.resolvent union_iter var c1 <$> neg)
  ∧ n' = (n + length neg)%nat.
Proof.
  revert acc n. induction neg as [|c2 neg IH]; intros acc n; cbn.
  - intros [= <- <-]. by rewrite app_nil_r, Nat.add_0_r.
  - destruct (DP.resolvent union_iter var c1 c2) as [|l r] eqn:Hr; [done|].
    intros H. apply IH in H as [-> ->].
    split; [by rewrite <- app_assoc | lia].
Qed.

Lemma resolve_outer_Some var pos neg acc n new n' :
  DP.resolve_outer union_iter var pos neg acc n = (Some new, n') →
  new = acc ++ pairwise_resolvents union_iter var pos neg
  ∧ n' = (n + length pos * length neg)%nat.
Proof.
  unfold pairwise_resolvents.
  revert acc n. induction pos as [|c1 pos IH]; intros acc n; cbn.
  - intros [= <- <-]. by rewrite app_nil_r, Nat.add_0_r.
  - destruct (DP.resolve_inner union_iter var c1 neg acc n)
      as [[acc'|] m] eqn:Hin; [|done].
    apply resolve_inner_Some in Hin as [-> ->].
    intros H. apply IH in H as [-> ->].
    split; [by rewrite <- app_assoc | lia].
Qed.

Lemma resolve_inner_None var c1 neg acc n n' :
  DP.resolve_inner union_iter var c1 neg acc n = (None, n') →
  ∃ c2, c2 ∈ neg ∧ DP.resolvent union_iter var c1 c2 = [].
Proof.
  revert acc n. induction neg as [|c2 neg IH]; intros acc n; cbn; [done|].
  destruct (DP.resolvent union_iter var c1 c2) as [|l r] eqn:Hr.
  - intros _. exists c2. split; [left | done].
  - intros H. apply IH in H as (c & Hc & Hres).
    exists c. split; [by right | done].
Qed.

Lemma resolve_outer_None var pos neg acc n n' :
  DP.resolve_outer union_iter var pos neg acc n = (None, n') →
  ∃ c1 c2, c1 ∈ pos ∧ c2 ∈ neg ∧ DP.resolvent union_iter var c1 c2 = [].
Proof.
  revert acc n. induction pos as [|c1 pos IH]; intros acc n; cbn; [done|].
  destruct (DP.resolve_inner union_iter var c1 neg acc n)
    as [[acc'|] m] eqn:Hin.
  - intros H. apply IH in H as (c & c2 & Hc & Hc2 & Hres).
    exists c, c2. split; [by right | done].
  - intros _. apply resolve_inner_None in Hin as (c2 & Hc2 & Hres).
    exists c1, c2. split; [left | done].
Qed.

(** A successful [_eliminate]: the new clause set is the untouched rest
    followed by all pairwise resolvents; the counters move accordingly. *)
Lemma eliminate_Some var s cs' s' :
  DP._eliminate union_iter var s = (Some cs', s') →
  let cs := DP._clauses s in
  let pos := filter (λ c, var ∈ c) cs in
  let neg := filter (λ c, (var ∉ c) ∧ (- var) ∈ c) cs in
  cs' = filter (λ c, (var ∉ c) ∧ (- var) ∉ c) cs ++ pairwise_resolvents union_iter var pos neg
  ∧ DP._clauses s' = cs'
  ∧ DP.vars_eliminated (DP._stats s') = S (DP.vars_eliminated (DP._stats s))
  ∧ DP.resolvents (DP._stats s')
    = (DP.resolvents (DP._stats s) + length pos * length neg)%nat.
Proof.
  unfold DP._eliminate. rewrite split_spec.
  destruct (DP.resolve_outer _ _ _ _ _ _) as [[new|] n] eqn:Hout; [|done].
  apply resolve_outer_Some in Hout as [-> ->].
  intros [= <- <-]. by cbn.
Qed.

Lemma elem_of_pairwise_resolvents var pos neg r :
  r ∈ pairwise_resolvents union_iter var pos neg
  ↔ ∃ c1 c2, c1 ∈ pos ∧ c2 ∈ neg ∧ r = DP.resolvent union_iter var c1 c2.
Proof.
  unfold pairwise_resolvents. rewrite list_elem_of_bind. split.
  - intros (c1 & Hr & Hc1). apply list_elem_of_fmap in Hr as (c2 & -> & Hc2).
    eauto.
  - intros (c1 & c2 & Hc1 & Hc2 & ->). exists c1. split; [|done].
    apply list_elem_of_fmap. eauto.
Qed.

Lemma elem_of_formula_vars (f : formula) x :
  x ∈ formula_vars f ↔ ∃ c l, c ∈ f ∧ l ∈ c ∧ x = Z.abs l.
Proof.
  unfold formula_vars, clause_vars. rewrite elem_of_union_list. split.
  - intros (X & HX & Hx). apply list_elem_of_fmap in HX as (c & -> & Hc).
    apply elem_of_list_to_set, list_elem_of_fmap in Hx as (l & -> & Hl).
    eauto.
  - intros (c & l & Hc & Hl & ->). exists (list_to_set (Z.abs <$> c)).
    split; [apply list_elem_of_fmap; eauto|].
    apply elem_of_list_to_set, list_elem_of_fmap. eauto.
Qed.

(** After a successful elimination no clause mentions the variable in
    either polarity. *)
Lemma eliminate_no_var var s cs' s' :
  DP._eliminate union_iter var s = (Some cs', s') →
  ∀ c, c ∈ cs' → (var ∉ c) ∧ (- var) ∉ c.
Proof.
  intros H c Hc. apply eliminate_Some in H as (-> & _).
  apply elem_of_app in Hc as [Hc|Hc].
  - apply list_elem_of_filter in Hc. tauto.
  - apply elem_of_pairwise_resolvents in Hc as (c1 & c2 & _ & _ & ->).
    split; intros Hin; apply elem_of_resolvent in Hin; tauto.
Qed.

(** Elimination introduces no variable and removes the eliminated one. *)
Lemma eliminate_vars var s cs' s' :
  DP._eliminate union_iter var s = (Some cs', s') →
  formula_vars cs' ⊆ formula_vars (DP._clauses s) ∖ {[ var ]}.
Proof.
  intros H x Hx. apply eliminate_Some in H as (-> & _).
  apply elem_of_formula_vars in Hx as (c & l & Hc & Hl & ->).
  apply elem_of_difference. rewrite elem_of_singleton.
  apply elem_of_app in Hc as [Hc|Hc].
  - apply list_elem_of_filter in Hc as [[Hv Hn] Hc]. split.
    + apply elem_of_formula_vars. eauto.
    + intros Habs. destruct (Z.abs_eq_or_opp l) as [E|E].
      * apply Hv. congruence.
      * apply Hn. replace (- var) with l by lia. done.
  - apply elem_of_pairwise_resolvents in Hc as (c1 & c2 & Hc1 & Hc2 & ->).
    apply elem_of_resolvent in Hl as (Hl & Hv & Hn). split; [|lia].
    apply list_elem_of_filter in Hc1 as [_ Hc1].
    apply list_elem_of_filter in Hc2 as [_ Hc2].
    apply elem_of_formula_vars. destruct Hl; eauto.
Qed.

Lemma choose_var_in_vars (cs : formula) v :
  DP._choose_var cs = Some v → v ∈ formula_vars cs.
Proof.
  induction cs as [|c cs IH]; [done|].
  destruct c as [|l c]; cbn [DP._choose_var]; intros H.
  - apply IH, elem_of_formula_vars in H as (c & l & Hc & Hl & ->).
    apply elem_of_formula_vars. exists c, l. split; [by right | done].
  - injection H as <-. apply elem_of_formula_vars.
    exists (l :: c), l. repeat split; left.
Qed.

(** One elimination step strictly decreases the number of distinct
    variables of the clause set. *)
Lemma eliminate_measure s v cs' s' :
  DP._choose_var (DP._clauses s) = Some v →
  DP._eliminate union_iter v s = (Some cs', s') →
  (size (formula_vars (DP._clauses s')) < size (formula_vars (DP._clauses s)))%nat.
Proof.
  intros Hv He. pose proof (eliminate_vars _ _ _ _ He) as Hsub.
  apply eliminate_Some in He as (_ & -> & _).
  apply choose_var_in_vars in Hv.
  apply subset_size. set_solver.
Qed.

Lemma solve_loop_terminates n s :
  (size (formula_vars (DP._clauses s)) < n)%nat →
  ∃ b s', ∀ fuel, (n ≤ fuel)%nat →
    DP.solve_loop union_iter fuel s = (Some b, s').
Proof.
  revert s. induction n as [|n IH]; intros s Hn; [lia|].
  destruct (decide (DP._clauses s = [])) as [Hnil|Hnil].
  { exists true, s. intros [|fuel] Hf; [lia|]. cbn.
    by rewrite decide_True. }
  destruct (existsb (λ c, bool_decide (length c = 0%nat)) (DP._clauses s))
    eqn:Hempty.
  { exists false, s. intros [|fuel] Hf; [lia|]. cbn.
    rewrite decide_False by done. by rewrite Hempty. }
  destruct (DP._choose_var (DP._clauses s)) as [v|] eqn:Hv.
  2:{ exists true, s. intros [|fuel] Hf; [lia|]. cbn.
      rewrite decide_False by done. by rewrite Hempty, Hv. }
  destruct (DP._eliminate union_iter v s) as [[cs'|] s'] eqn:He.
  2:{ exists false, s'. intros [|fuel] Hf; [lia|]. cbn.
      rewrite decide_False by done. by rewrite Hempty, Hv, He. }
  pose proof (eliminate_measure _ _ _ _ Hv He) as Hlt.
  destruct (IH s') as (b & s'' & Hrun); [lia|].
  exists b, s''. intros [|fuel] Hf; [lia|]. cbn.
  rewrite decide_False by done. rewrite Hempty, Hv, He.
  apply Hrun. lia.
Qed.

(** C6.  For every finite input [DPSolver.solve] ends with a verdict:
    each iteration that does not return eliminates the chosen variable,
    which occurs in the clause set before and in no clause after, and
    brings in no new variable; so once the fuel exceeds the number of
    distinct variables of the input, the verdict no longer depends on
    it. *)
Theorem dp_solve_terminates (clauses : formula) :
  (∀ s v cs' s',
     DP._choose_var (DP._clauses s) = Some v →
     DP._eliminate union_iter v s = (Some cs', s') →
     v ∈ formula_vars (DP._clauses s)
     ∧ formula_vars (DP._clauses s') ⊆ formula_vars (DP._clauses s) ∖ {[ v ]})
  ∧ ∃ b : bool, ∀ fuel,
      (size (formula_vars clauses) < fuel)%nat →
      DP.solve union_iter fuel clauses = Some b.
Proof.
  split.
  - intros s v cs' s' Hv He. split; [by apply choose_var_in_vars|].
    pose proof (eliminate_vars _ _ _ _ He) as Hsub.
    by apply eliminate_Some in He as (_ & -> & _).
  - destruct (solve_loop_terminates (S (size (formula_vars clauses)))
                (DP.__init__ clauses)) as (b & s' & Hrun).
    { unfold DP.__init__. cbn [DP._clauses]. rewrite list_fmap_id. lia. }
    exists b. intros fuel Hf. unfold DP.solve. rewrite Hrun by lia. done.
Qed.

(** The enumeration order only permutes a resolvent. *)
Lemma resolvent_perm var c1 c2 :
  DP.resolvent union_iter var c1 c2 ≡ₚ DP.resolvent DP.canonical_union var c1 c2.
Proof. unfold DP.resolvent. by rewrite union_iter_perm. Qed.

Lemma resolvent_singleton var c1 c2 x :
  DP.resolvent DP.canonical_union var c1 c2 = [x] →
  DP.resolvent union_iter var c1 c2 = [x].
Proof.
  intros H. apply Permutation_singleton_r. rewrite <- H. apply resolvent_perm.
Qed.

Lemma resolvent_nil var c1 c2 :
  DP.resolvent DP.canonical_union var c1 c2 = [] →
  DP.resolvent union_iter var c1 c2 = [].
Proof.
  intros H. apply Permutation_nil_r. rewrite <- H. apply resolvent_perm.
Qed.

Lemma eliminate_unfold var s pos neg rest :
  DP.split var (DP._clauses s) = (pos, neg, rest) →
  DP._eliminate union_iter var s
  = match DP.resolve_outer union_iter var pos neg [] (DP.resolvents (DP._stats s)) with
    | (None, n) =>
        (None, DP.Solver (DP._clauses s)
                 (DP.Stats (DP.vars_eliminated (DP._stats s)) n))
    | (Some new_clauses, n) =>
        (Some (rest ++ new_clauses),
         DP.Solver (rest ++ new_clauses)
           (DP.Stats (S (DP.vars_eliminated (DP._stats s))) n))
    end.
Proof. intros H. unfold DP._eliminate. by rewrite H. Qed.

Lemma solve_loop_eliminated fuel s v cs' s' :
  DP._clauses s ≠ [] →
  existsb (λ c, bool_decide (length c = 0%nat)) (DP._clauses s) = false →
  DP._choose_var (DP._clauses s) = Some v →
  DP._eliminate union_iter v s = (Some cs', s') →
  DP.solve_loop union_iter (S fuel) s = DP.solve_loop union_iter fuel s'.
Proof.
  intros Hne Hex Hv He. cbn [DP.solve_loop].
  rewrite decide_False by done. by rewrite Hex, Hv, He.
Qed.

Lemma solve_loop_refuted fuel s v s' :
  DP._clauses s ≠ [] →
  existsb (λ c, bool_decide (length c = 0%nat)) (DP._clauses s) = false →
  DP._choose_var (DP._clauses s) = Some v →
  DP._eliminate union_iter v s = (None, s') →
  DP.solve_loop union_iter (S fuel) s = (Some false, s').
Proof.
  intros Hne Hex Hv He. cbn [DP.solve_loop].
  rewrite decide_False by done. by rewrite Hex, Hv, He.
Qed.

(** DP on the satisfiable formula [{1, 2}], [{-1, -2}], [{-2}]: the
    resolvent on variable 1 is the tautology over variable 2, which is
    then resolved against [{-2}] into the empty clause. *)
Lemma dp_tautological_resolvent_run (fuel : nat) :
  DP.solve union_iter (2 + fuel) [[1; 2]; [-1; -2]; [-2]] = Some false.
Proof.
  unfold DP.solve, DP.__init__. cbn [fmap list_fmap Nat.add].
  assert (DP.resolvent union_iter 1 [1; 2] [-1; -2] = [2; -2]
          ∨ DP.resolvent union_iter 1 [1; 2] [-1; -2] = [-2; 2]) as Hr.
  { apply Permutation_length_2_inv. symmetry.
    etrans; [apply resolvent_perm|]. vm_compute. apply perm_swap. }
  assert (∃ r, (r = [2; -2] ∨ r = [-2; 2])
    ∧ DP._eliminate union_iter 1
        (DP.Solver [[1; 2]; [-1; -2]; [-2]] (DP.Stats 0 0))
      = (Some [[-2]; r], DP.Solver [[-2]; r] (DP.Stats 1 1)))
    as (r & Hcases & He).
  { erewrite eliminate_unfold by (vm_compute; reflexivity).
    cbn [DP.resolve_outer DP.resolve_inner DP._clauses DP._stats DP.resolvents].
    destruct Hr as [-> | ->]; eexists; (split; [|reflexivity]); tauto. }
  erewrite solve_loop_eliminated; [|done|reflexivity|reflexivity|exact He].
  erewrite solve_loop_refuted; [reflexivity| | | |].
  - done.
  - by destruct Hcases as [-> | ->].
  - reflexivity.
  - destruct Hcases as [-> | ->].
    + erewrite eliminate_unfold by (vm_compute; reflexivity).
      cbn [DP.resolve_outer DP.resolve_inner DP._clauses DP._stats DP.resolvents].
      rewrite resolvent_nil by (vm_compute; reflexivity). reflexivity.
    + erewrite eliminate_unfold by (vm_compute; reflexivity).
      cbn [DP.resolve_outer DP.resolve_inner DP._clauses DP._stats DP.resolvents].
      rewrite resolvent_nil by (vm_compute; reflexivity). reflexivity.
Qed.

(** DP on [{1, 2}], [{-1, 2}], [{-2}]: variable 1 is eliminated, leaving
    [{-2}], [{2}], whose resolvent on variable 2 is empty. *)
Lemma dp_scenario3_run (fuel : nat) :
  DP.solve union_iter (2 + fuel) [[1; 2]; [-1; 2]; [-2]] = Some false.
Proof.
  unfold DP.solve, DP.__init__. cbn [fmap list_fmap Nat.add].
  erewrite (solve_loop_eliminated _ _ 1); [|done|reflexivity|reflexivity|].
  2:{ erewrite eliminate_unfold by (vm_compute; reflexivity).
      cbn [DP.resolve_outer DP.resolve_inner DP._clauses DP._stats DP.resolvents].
      rewrite (resolvent_singleton 1 [1; 2] [-1; 2] 2) by (vm_compute; reflexivity).
      reflexivity. }
  erewrite solve_loop_refuted; [reflexivity|done|reflexivity|reflexivity|].
  erewrite eliminate_unfold by (vm_compute; reflexivity).
  cbn [DP.resolve_outer DP.resolve_inner DP._clauses DP._stats DP.resolvents].
  rewrite resolvent_nil by (vm_compute; reflexivity). reflexivity.
Qed.

(** *** Elimination preserves satisfiability, tautologies apart *)

Lemma lit_true_force a l : l ≠ 0 → lit_true (force a l) l = true.
Proof.
  intros Hl. unfold lit_true, force.
  destruct (0 <? l) eqn:Hpos.
  - apply Z.ltb_lt in Hpos. by rewrite decide_True by lia.
  - apply Z.ltb_ge in Hpos. by rewrite decide_True by lia.
Qed.

Lemma forallb_false {A} (f : A → bool) (l : list A) :
  forallb f l = false → ∃ x, x ∈ l ∧ f x = false.
Proof.
  induction l as [|x l IH]; [done|]. cbn.
  destruct (f x) eqn:Hx; cbn.
  - intros (y & Hy & Hf)%IH. exists y. split; [by right|done].
  - intros _. exists x. split; [left|done].
Qed.

Lemma lit_true_force_other a l x :
  x ≠ l → x ≠ - l → lit_true (force a l) x = lit_true a x.
Proof.
  intros H1 H2. unfold lit_true, force.
  destruct (0 <? x); rewrite decide_False by lia; done.
Qed.

Lemma lit_true_opp a l : l ≠ 0 → lit_true a (- l) = negb (lit_true a l).
Proof.
  intros Hl. unfold lit_true.
  destruct (0 <? l) eqn:Hpos.
  - apply Z.ltb_lt in Hpos. replace (0 <? - l) with false
      by (symmetry; apply Z.ltb_ge; lia).
    by rewrite Z.opp_involutive.
  - apply Z.ltb_ge in Hpos. replace (0 <? - l) with true
      by (symmetry; apply Z.ltb_lt; lia).
    by rewrite negb_involutive.
Qed.

Lemma clause_true_elem a (c : clause) :
  clause_true a c = true ↔ ∃ l, l ∈ c ∧ lit_true a l = true.
Proof.
  unfold clause_true. rewrite existsb_exists.
  split; intros (l & Hl & Ht); exists l; by rewrite ?list_elem_of_In in *.
Qed.

Lemma formula_true_elem a (f : formula) :
  formula_true a f = true ↔ ∀ c, c ∈ f → clause_true a c = true.
Proof.
  unfold formula_true. rewrite forallb_forall.
  split; intros H c Hc; apply H; by rewrite ?list_elem_of_In in *.
Qed.

(** Where no clause holds both [var] and [-var], a successful
    [_eliminate] keeps the clause set satisfiable or unsatisfiable as it
    was. *)
Lemma eliminate_equisatisfiable var s cs' s' :
  var ≠ 0 →
  (∀ c, c ∈ DP._clauses s → ¬ (var ∈ c ∧ (- var) ∈ c)) →
  DP._eliminate union_iter var s = (Some cs', s') →
  satisfiable (DP._clauses s) ↔ satisfiable cs'.
Proof.
  intros Hvar Htaut He. apply eliminate_Some in He as (-> & _).
  set (cs := DP._clauses s) in *.
  set (pos := filter (λ c, var ∈ c) cs).
  set (neg := filter (λ c, (var ∉ c) ∧ (- var) ∈ c) cs).
  assert (∀ c, c ∈ cs →
            c ∈ pos ∨ c ∈ neg ∨ (c ∈ cs ∧ (var ∉ c) ∧ (- var) ∉ c)) as Hsplit.
  { intros c Hc. unfold pos, neg. rewrite !list_elem_of_filter.
    destruct (decide (var ∈ c)); [tauto|].
    destruct (decide (- var ∈ c)); tauto. }
  split; intros [a Ha]; rewrite formula_true_elem in Ha.
  - exists a. apply formula_true_elem. intros c Hc.
    apply elem_of_app in Hc as [Hc|Hc].
    { apply list_elem_of_filter in Hc as [_ Hc]. by apply Ha. }
    apply elem_of_pairwise_resolvents in Hc as (c1 & c2 & Hc1 & Hc2 & ->).
    apply list_elem_of_filter in Hc1 as [Hv1 Hc1].
    apply list_elem_of_filter in Hc2 as [[Hv2 Hn2] Hc2].
    pose proof (Ha _ Hc1) as (l1 & Hl1 & Ht1)%clause_true_elem.
    pose proof (Ha _ Hc2) as (l2 & Hl2 & Ht2)%clause_true_elem.
    apply clause_true_elem. destruct (lit_true a var) eqn:Htv.
    + exists l2. split; [|done]. apply elem_of_resolvent.
      split_and!; [by right|congruence|].
      intros ->. rewrite lit_true_opp, Htv in Ht2 by done. done.
    + exists l1. split; [|done]. apply elem_of_resolvent.
      split_and!; [by left|congruence|].
      intros ->. apply (Htaut c1); [done|]. by split.
  - assert (∀ c, c ∈ cs → var ∉ c → (- var) ∉ c → clause_true a c = true)
      as Hrest.
    { intros c Hc Hv Hn. apply Ha, elem_of_app. left.
      by apply list_elem_of_filter. }
    assert (∀ c1 c2, c1 ∈ pos → c2 ∈ neg →
              ∃ l, (l ∈ c1 ∨ l ∈ c2) ∧ l ≠ var ∧ l ≠ - var
                   ∧ lit_true a l = true) as Hres.
    { intros c1 c2 Hc1 Hc2.
      assert (clause_true a (DP.resolvent union_iter var c1 c2) = true)
        as (l & Hl & Ht)%clause_true_elem.
      { apply Ha, elem_of_app. right.
        apply elem_of_pairwise_resolvents. eauto. }
      apply elem_of_resolvent in Hl. exists l. tauto. }
    assert (∀ b c l, l ∈ c → l ≠ var → l ≠ - var → lit_true a l = true →
              clause_true (force a (if b : bool then var else - var)) c = true)
      as Hkeep.
    { intros b c l Hl H1 H2 Ht. apply clause_true_elem. exists l.
      split; [done|]. rewrite lit_true_force_other; [done|..];
        destruct b; lia. }
    destruct (forallb (λ c1 : clause,
                existsb (λ l, lit_true a l && bool_decide (l ≠ var)) c1) pos)
      eqn:Hall.
    + exists (force a (- var)). apply formula_true_elem. intros c Hc.
      destruct (Hsplit c Hc) as [Hp|[Hn|(_ & Hv & Hn)]].
      * rewrite forallb_forall in Hall. pose proof Hp as Hex.
        apply list_elem_of_In, Hall, existsb_exists in Hex.
        destruct Hex as (l & Hl & [Ht Hne%bool_decide_eq_true]%andb_true_iff).
        apply list_elem_of_In in Hl.
        apply (Hkeep false c l); [done..| |done].
        intros ->. apply (Htaut c Hc). split; [|done].
        by apply list_elem_of_filter in Hp as [? _].
      * apply clause_true_elem. exists (- var).
        apply list_elem_of_filter in Hn as [[_ Hn] _].
        split; [done|]. apply lit_true_force. lia.
      * pose proof (Hrest c Hc Hv Hn) as (l & Hl & Ht)%clause_true_elem.
        apply (Hkeep false c l); [done| | |done]; by intros ->.
    + apply forallb_false in Hall as (c1 & Hc1 & Hnone).
      assert (∀ l, l ∈ c1 → lit_true a l = true → l = var) as Honly.
      { intros l Hl Ht. destruct (decide (l = var)) as [|Hne]; [done|].
        assert (existsb (λ l, lit_true a l && bool_decide (l ≠ var)) c1 = true)
          as Hex; [|congruence].
        apply existsb_exists. exists l. split; [by apply list_elem_of_In|].
        by rewrite Ht, bool_decide_eq_true_2. }
      exists (force a var). apply formula_true_elem. intros c Hc.
      destruct (Hsplit c Hc) as [Hp|[Hn|(_ & Hv & Hn)]].
      * apply clause_true_elem. exists var.
        apply list_elem_of_filter in Hp as [Hp _].
        split; [done|]. by apply lit_true_force.
      * destruct (Hres c1 c Hc1 Hn) as (l & [Hl|Hl] & H1 & H2 & Ht).
        -- by specialize (Honly l Hl Ht).
        -- by apply (Hkeep true c l).
      * pose proof (Hrest c Hc Hv Hn) as (l & Hl & Ht)%clause_true_elem.
        apply (Hkeep true c l); [done| | |done]; by intros ->.
Qed.

End DP_facts.

(** ** DPLL: safety of the pivot selection, termination *)

Lemma lit_count_snoc (f : formula) c :
  lit_count (f ++ [c]) = (lit_count f + length c)%nat.
Proof.
  unfold lit_count. rewrite concat_app, length_app. cbn.
  by rewrite app_nil_r.
Qed.

Lemma lit_count_cons (f : formula) c :
  lit_count (c :: f) = (length c + lit_count f)%nat.
Proof. unfold lit_count. cbn. by rewrite length_app. Qed.

Lemma filter_remove_length (x : Z) (c : clause) :
  x ∈ c → (length (filter (λ y, y ≠ x) c) < length c)%nat.
Proof.
  induction c as [|y c IH]; [by intros ?%elem_of_nil|].
  intros Hin. rewrite filter_cons. pose proof (length_filter (λ y, y ≠ x) c).
  destruct (decide (y ≠ x)) as [Hne|Heq]; cbn; [|lia].
  apply elem_of_cons in Hin as [->|Hin]; [done|]. apply IH in Hin. lia.
Qed.

Lemma simplify_loop_nonempty lit cs acc new :
  DPLL.simplify_loop lit cs acc = Some new →
  all_nonempty acc → all_nonempty cs → all_nonempty new.
Proof.
  unfold all_nonempty.
  revert acc. induction cs as [|c cs IH]; intros acc; cbn.
  - by intros [= <-].
  - intros H Hacc Hcs. apply Forall_cons in Hcs as [Hc Hcs].
    destruct (decide (lit ∈ c)); [by eapply IH|].
    destruct (decide (- lit ∈ c)).
    + destruct (filter _ c) as [|x r] eqn:Hf; [done|].
      eapply IH; [done| |done]. apply Forall_app. split; [done|].
      by apply Forall_singleton.
    + eapply IH; [done| |done]. apply Forall_app. split; [done|].
      by apply Forall_singleton.
Qed.

Lemma simplify_loop_size lit cs acc new :
  DPLL.simplify_loop lit cs acc = Some new →
  (lit_count new ≤ lit_count acc + lit_count cs)%nat
  ∧ ((∃ c, c ∈ cs ∧ (lit ∈ c ∨ - lit ∈ c)) →
     (lit_count new < lit_count acc + lit_count cs)%nat).
Proof.
  revert acc. induction cs as [|c cs IH]; intros acc; cbn [DPLL.simplify_loop].
  - intros [= <-]. split; [unfold lit_count; cbn; lia|].
    intros (c & Hc & _). by apply elem_of_nil in Hc.
  - rewrite lit_count_cons. intros H.
    destruct (decide (lit ∈ c)) as [Hl|Hl].
    { apply IH in H as [Hle _]. split; [lia|]. intros _.
      destruct c; [by apply elem_of_nil in Hl|]. cbn. lia. }
    destruct (decide (- lit ∈ c)) as [Hn|Hn].
    { pose proof (filter_remove_length _ _ Hn) as Hlt.
      destruct (filter _ c) as [|x r] eqn:Hf; [done|].
      apply IH in H as [Hle _]. rewrite lit_count_snoc in Hle.
      split; [lia|]. intros _. lia. }
    apply IH in H as [Hle Hlt]. rewrite lit_count_snoc in Hle, Hlt.
    split; [lia|]. intros (c' & Hc' & Hor).
    apply elem_of_cons in Hc' as [->|Hc']; [tauto|].
    assert (lit_count new < lit_count acc + length c + lit_count cs)%nat
      by (apply Hlt; eauto).
    lia.
Qed.

Lemma simplify_nonempty cs lit new :
  DPLL._simplify cs lit = Some new → all_nonempty cs → all_nonempty new.
Proof.
  intros H Hcs. eapply simplify_loop_nonempty; [exact H| |done].
  by apply Forall_nil.
Qed.

Lemma simplify_size cs lit new c :
  DPLL._simplify cs lit = Some new → c ∈ cs → lit ∈ c ∨ - lit ∈ c →
  (lit_count new < lit_count cs)%nat.
Proof.
  intros H Hc Hor. apply simplify_loop_size in H as [_ Hlt].
  apply Hlt. eauto.
Qed.

Lemma find_unit_elem cs u : DPLL._find_unit cs = Some u → [u] ∈ cs.
Proof.
  induction cs as [|c cs IH]; [done|].
  destruct c as [|l [|l' c]]; cbn.
  - intros H. right. by apply IH.
  - intros [= <-]. left.
  - intros H. right. by apply IH.
Qed.

Lemma counter_incr_keys lit counter x :
  x ∈ (DPLL.counter_incr lit counter).*1 ↔ x = lit ∨ x ∈ counter.*1.
Proof.
  induction counter as [|[k n] counter IH]; cbn.
  - rewrite list_elem_of_singleton, elem_of_nil. tauto.
  - destruct (decide (k = lit)) as [->|Hne]; cbn.
    + rewrite !elem_of_cons. tauto.
    + rewrite !elem_of_cons, IH. tauto.
Qed.

Lemma count_clause_keys (c : clause) counter x :
  x ∈ (foldl (λ counter lit, DPLL.counter_incr lit counter) counter c).*1
  ↔ x ∈ c ∨ x ∈ counter.*1.
Proof.
  revert counter. induction c as [|l c IH]; intros counter; cbn.
  - rewrite elem_of_nil. tauto.
  - rewrite IH, counter_incr_keys, elem_of_cons. tauto.
Qed.

Lemma count_literals_acc_keys (cs : formula) counter x :
  x ∈ (foldl (λ counter c,
              foldl (λ counter lit, DPLL.counter_incr lit counter) counter c)
             counter cs).*1
  ↔ (∃ c, c ∈ cs ∧ x ∈ c) ∨ x ∈ counter.*1.
Proof.
  revert counter. induction cs as [|c cs IH]; intros counter; cbn.
  - split; [|intros [(c & Hc & _)|]; [by apply elem_of_nil in Hc|done]].
    by right.
  - rewrite IH, count_clause_keys. split.
    + intros [(c' & Hc' & Hx)|[Hx|Hx]]; [left|left|by right].
      * exists c'. split; [by right|done].
      * exists c. split; [left|done].
    + intros [(c' & Hc' & Hx)|Hx]; [|tauto].
      apply elem_of_cons in Hc' as [->|Hc']; [tauto|]. left. eauto.
Qed.

(** The keys of [counter] are the literals occurring in the clauses. *)
Lemma count_literals_keys (cs : formula) x :
  x ∈ (DPLL.count_literals cs).*1 ↔ ∃ c, c ∈ cs ∧ x ∈ c.
Proof.
  unfold DPLL.count_literals. rewrite count_literals_acc_keys. cbn.
  rewrite elem_of_nil. tauto.
Qed.

(** A pure literal occurs in some clause and its negation in none. *)
Lemma find_pure_spec cs p :
  DPLL._find_pure cs = Some p →
  (∃ c, c ∈ cs ∧ p ∈ c) ∧ ∀ c, c ∈ cs → - p ∉ c.
Proof.
  unfold DPLL._find_pure. cbn.
  destruct (find _ _) as [[k n]|] eqn:Hfind; [|done]. cbn. intros [= <-].
  apply find_some in Hfind as [Hin Hneg]. cbn in Hneg.
  apply bool_decide_eq_true in Hneg. split.
  - apply count_literals_keys. apply list_elem_of_fmap.
    exists (k, n). split; [done|]. by apply list_elem_of_In.
  - intros c Hc Hk. apply Hneg, count_literals_keys. eauto.
Qed.

Lemma filter_clauses_size (p : Z) (cs : formula) c :
  c ∈ cs → p ∈ c →
  (lit_count (filter (λ c, p ∉ c) cs) < lit_count cs)%nat.
Proof.
  induction cs as [|d cs IH]; [by intros ?%elem_of_nil|].
  intros Hc Hp. rewrite filter_cons, lit_count_cons.
  assert (lit_count (filter (λ c, p ∉ c) cs) ≤ lit_count cs)%nat as Hle.
  { clear. induction cs as [|e cs IH]; [done|].
    rewrite filter_cons, lit_count_cons.
    destruct (decide (p ∉ e)); [rewrite lit_count_cons|]; lia. }
  apply elem_of_cons in Hc as [<-|Hc].
  - rewrite decide_False by tauto.
    destruct c; [by apply elem_of_nil in Hp|]. cbn. lia.
  - specialize (IH Hc Hp).
    destruct (decide (p ∉ d)); [rewrite lit_count_cons|]; lia.
Qed.

(** Unit propagation ends once the fuel exceeds the size of the clause
    set; it neither enlarges the set nor produces an empty clause. *)
Lemma unit_loop_total n cs m st :
  (lit_count cs < n)%nat →
  ∃ r m' st',
    (∀ fuel, (n ≤ fuel)%nat →
       DPLL.unit_loop fuel cs m st = DPLL.Ret (r, m', st'))
    ∧ ∀ cs', r = Some cs' →
        (lit_count cs' ≤ lit_count cs)%nat
        ∧ (all_nonempty cs → all_nonempty cs').
Proof.
  revert cs m st. induction n as [|n IH]; intros cs m st Hn; [lia|].
  destruct (DPLL._find_unit cs) as [u|] eqn:Hu.
  2:{ exists (Some cs), m, st. split.
      - intros [|fuel] Hf; [lia|]. cbn. by rewrite Hu.
      - intros cs' [= <-]. done. }
  destruct (DPLL._simplify cs u) as [cs1|] eqn:Hs.
  2:{ eexists None, _, _. split; [|done].
      intros [|fuel] Hf; [lia|]. cbn. by rewrite Hu, Hs. }
  assert (lit_count cs1 < lit_count cs)%nat as Hlt.
  { eapply simplify_size; [exact Hs|by apply find_unit_elem|]. left. left. }
  destruct (IH cs1 (<[Z.abs u := (0 <? u)]> m) (DPLL.incr_unit st))
    as (r & m' & st' & Hrun & Hprop); [lia|].
  exists r, m', st'. split.
  - intros [|fuel] Hf; [lia|]. cbn. rewrite Hu, Hs. apply Hrun. lia.
  - intros cs' ->. destruct (Hprop cs' eq_refl) as [Hle Hne].
    split; [lia|]. intros Hcs. apply Hne. by eapply simplify_nonempty.
Qed.

Lemma filter_clauses_nonempty (p : Z) (cs : formula) :
  all_nonempty cs → all_nonempty (filter (λ c, p ∉ c) cs).
Proof.
  unfold all_nonempty. rewrite !Forall_forall.
  intros H c Hc. apply list_elem_of_filter in Hc as [_ Hc]. by apply H.
Qed.

(** Pure-literal elimination ends likewise and always yields a clause
    set. *)
Lemma pure_loop_total n cs m st :
  (lit_count cs < n)%nat →
  ∃ cs' m' st',
    (∀ fuel, (n ≤ fuel)%nat →
       DPLL.pure_loop fuel cs m st = DPLL.Ret (Some cs', m', st'))
    ∧ (lit_count cs' ≤ lit_count cs)%nat
    ∧ (all_nonempty cs → all_nonempty cs').
Proof.
  revert cs m st. induction n as [|n IH]; intros cs m st Hn; [lia|].
  destruct (DPLL._find_pure cs) as [p|] eqn:Hp.
  2:{ exists cs, m, st. split; [|done].
      intros [|fuel] Hf; [lia|]. cbn. by rewrite Hp. }
  pose proof (find_pure_spec _ _ Hp) as [(c & Hc & Hpc) _].
  pose proof (filter_clauses_size p cs c Hc Hpc) as Hlt.
  destruct (IH (filter (λ c, p ∉ c) cs)
              (<[Z.abs p := (0 <? p)]> m) (DPLL.incr_pure st))
    as (cs' & m' & st' & Hrun & Hle & Hne); [lia|].
  exists cs', m', st'. split; [|split].
  - intros [|fuel] Hf; [lia|]. cbn. rewrite Hp. apply Hrun. lia.
  - lia.
  - intros Hcs. by apply Hne, filter_clauses_nonempty.
Qed.

Lemma propagate_total n cs m st :
  (lit_count cs < n)%nat →
  ∃ r m' st',
    (∀ fuel, (n ≤ fuel)%nat →
       DPLL._propagate fuel cs m st = DPLL.Ret (r, m', st'))
    ∧ ∀ cs', r = Some cs' →
        (lit_count cs' ≤ lit_count cs)%nat
        ∧ (all_nonempty cs → all_nonempty cs').
Proof.
  intros Hn.
  destruct (unit_loop_total n cs m st Hn) as (r & m1 & st1 & Hrun & Hprop).
  destruct r as [cs1|].
  - destruct (Hprop cs1 eq_refl) as [Hle Hne].
    destruct (pure_loop_total n cs1 m1 st1) as (cs2 & m2 & st2 & Hrun2 & Hle2 & Hne2);
      [lia|].
    exists (Some cs2), m2, st2. split.
    + intros fuel Hf. unfold DPLL._propagate. rewrite Hrun by done.
      by apply Hrun2.
    + intros cs' [= <-]. split; [lia|]. tauto.
  - exists None, m1, st1. split; [|done].
    intros fuel Hf. unfold DPLL._propagate. by rewrite Hrun.
Qed.

Lemma branch_total n truths pivot cs m st :
  (∀ reduced m' st', (lit_count reduced < n)%nat →
     ends_from n (all_nonempty reduced)
       (λ fuel, DPLL.solve_rec fuel reduced m' st')) →
  (∀ (b : bool) reduced,
     DPLL._simplify cs (if b then pivot else - pivot) = Some reduced →
     (lit_count reduced < n)%nat) →
  ends_from n (all_nonempty cs)
    (λ fuel, DPLL.branch (DPLL.solve_rec fuel) truths pivot cs m st).
Proof.
  intros Hrec Hsize. revert st.
  induction truths as [|truth truths IH]; intros st.
  { exists (DPLL.Ret (None, st)). by repeat split. }
  cbn [DPLL.branch].
  destruct (DPLL._simplify cs (if truth then pivot else - pivot))
    as [reduced|] eqn:Hs; [|apply IH].
  destruct (Hrec reduced (<[Z.abs pivot := truth]> m) st)
    as (res & Hrun & Hfuel & Hsafe); [by eapply Hsize|].
  destruct res as [[[result|] st']| |].
  - exists (DPLL.Ret (Some result, st')). split; [|done].
    intros fuel Hf. by rewrite Hrun.
  - destruct (IH (DPLL.incr_backtracks st')) as (res & Hrun' & Hprops).
    exists res. split; [|done].
    intros fuel Hf. rewrite Hrun by done. by apply Hrun'.
  - exists DPLL.IndexError. split; [|split; [done|]].
    + intros fuel Hf. by rewrite Hrun.
    + intros Hcs. exfalso. apply Hsafe; [|done].
      by eapply simplify_nonempty.
  - done.
Qed.

(** [DPLLSolver.solve] ends once the fuel exceeds the size of the
    clause set, and on a clause set without empty clause it does not end
    in [IndexError]. *)
Lemma solve_rec_total n cs m st :
  (lit_count cs < n)%nat →
  ends_from n (all_nonempty cs) (λ fuel, DPLL.solve_rec fuel cs m st).
Proof.
  revert cs m st. induction n as [|n IH]; intros cs m st Hn; [lia|].
  destruct (propagate_total (S n) cs m st Hn) as (r & m1 & st1 & Hrun & Hprop).
  destruct r as [[|c cs1]|].
  - exists (DPLL.Ret (Some m1, st1)). split; [|done].
    intros [|fuel] Hf; [lia|]. cbn [DPLL.solve_rec]. by rewrite Hrun.
  - destruct (Hprop _ eq_refl) as [Hle Hne].
    destruct c as [|pivot c].
    { exists DPLL.IndexError. split; [|split; [done|]].
      - intros [|fuel] Hf; [lia|]. cbn [DPLL.solve_rec]. by rewrite Hrun.
      - intros Hcs. apply Hne in Hcs. by apply Forall_cons in Hcs as [? _]. }
    destruct (branch_total n [true; false] pivot ((pivot :: c) :: cs1) m1
                (DPLL.incr_decisions st1)) as (res & Hrun' & Hfuel & Hsafe).
    { intros reduced m' st' Hlt. by apply IH. }
    { intros b reduced Hs.
      assert (lit_count reduced < lit_count ((pivot :: c) :: cs1))%nat; [|lia].
      eapply simplify_size; [exact Hs|left|].
      destruct b; [left; left|right].
      rewrite Z.opp_involutive. left. }
    exists res. split; [|split; [done|]].
    + intros [|fuel] Hf; [lia|]. cbn [DPLL.solve_rec]. rewrite Hrun by done.
      apply Hrun'. lia.
    + intros Hcs. by apply Hsafe, Hne.
  - exists (DPLL.Ret (None, st1)). split; [|done].
    intros [|fuel] Hf; [lia|]. cbn [DPLL.solve_rec]. by rewrite Hrun.
Qed.

(** Safety for any amount of fuel: the loops keep clauses non-empty. *)
Lemma unit_loop_nonempty fuel cs m st cs' m' st' :
  DPLL.unit_loop fuel cs m st = DPLL.Ret (Some cs', m', st') →
  all_nonempty cs → all_nonempty cs'.
Proof.
  revert cs m st. induction fuel as [|fuel IH]; intros cs m st; [done|].
  cbn [DPLL.unit_loop]. destruct (DPLL._find_unit cs) as [u|].
  - destruct (DPLL._simplify cs u) as [cs1|] eqn:Hs; [|done].
    intros H Hcs. eapply IH; [exact H|]. by eapply simplify_nonempty.
  - by intros [= <- _ _].
Qed.

Lemma pure_loop_nonempty fuel cs m st cs' m' st' :
  DPLL.pure_loop fuel cs m st = DPLL.Ret (Some cs', m', st') →
  all_nonempty cs → all_nonempty cs'.
Proof.
  revert cs m st. induction fuel as [|fuel IH]; intros cs m st; [done|].
  cbn [DPLL.pure_loop]. destruct (DPLL._find_pure cs) as [p|].
  - intros H Hcs. eapply IH; [exact H|]. by apply filter_clauses_nonempty.
  - by intros [= <- _ _].
Qed.

Lemma propagate_nonempty fuel cs m st cs' m' st' :
  DPLL._propagate fuel cs m st = DPLL.Ret (Some cs', m', st') →
  all_nonempty cs → all_nonempty cs'.
Proof.
  unfold DPLL._propagate.
  destruct (DPLL.unit_loop fuel cs m st) as [[[[cs1|] m1] st1]| |] eqn:Hu;
    [|done..].
  intros Hp Hcs. eapply pure_loop_nonempty; [exact Hp|].
  by eapply unit_loop_nonempty.
Qed.

Lemma propagate_no_error fuel cs m st :
  DPLL._propagate fuel cs m st ≠ DPLL.IndexError.
Proof.
  assert (∀ fuel cs m st, DPLL.unit_loop fuel cs m st ≠ DPLL.IndexError) as Hu.
  { clear. intros fuel. induction fuel as [|fuel IH]; intros cs m st; [done|].
    cbn [DPLL.unit_loop]. destruct (DPLL._find_unit cs); [|done].
    destruct (DPLL._simplify cs _); [apply IH|done]. }
  assert (∀ fuel cs m st, DPLL.pure_loop fuel cs m st ≠ DPLL.IndexError) as Hp.
  { clear. intros fuel. induction fuel as [|fuel IH]; intros cs m st; [done|].
    cbn [DPLL.pure_loop]. destruct (DPLL._find_pure cs); [apply IH|done]. }
  unfold DPLL._propagate. specialize (Hu fuel cs m st).
  destruct (DPLL.unit_loop fuel cs m st) as [[[[cs1|] m1] st1]| |];
    [apply Hp|done..].
Qed.

Lemma branch_safe rec truths pivot cs m st :
  (∀ reduced m' st', all_nonempty reduced →
     rec reduced m' st' ≠ DPLL.IndexError) →
  all_nonempty cs →
  DPLL.branch rec truths pivot cs m st ≠ DPLL.IndexError.
Proof.
  intros Hrec Hcs. revert st.
  induction truths as [|truth truths IH]; intros st; [done|].
  cbn [DPLL.branch].
  destruct (DPLL._simplify cs (if truth then pivot else - pivot))
    as [reduced|] eqn:Hs; [|apply IH].
  pose proof (Hrec reduced (<[Z.abs pivot := truth]> m) st
                (simplify_nonempty _ _ _ Hs Hcs)) as Hok.
  destruct (rec reduced _ st) as [[[result|] st']| |]; [done|apply IH|done..].
Qed.

Lemma solve_rec_safe fuel cs m st :
  all_nonempty cs → DPLL.solve_rec fuel cs m st ≠ DPLL.IndexError.
Proof.
  revert cs m st. induction fuel as [|fuel IH]; intros cs m st Hcs; [done|].
  cbn [DPLL.solve_rec].
  pose proof (propagate_no_error (S fuel) cs m st) as Herr.
  destruct (DPLL._propagate (S fuel) cs m st)
    as [[[[[|c cs1]|] m1] st1]| |] eqn:Hp; [done| |done..].
  apply propagate_nonempty in Hp; [|done].
  destruct c as [|pivot c]; [by apply Forall_cons in Hp as [? _]|].
  apply branch_safe; [|done]. intros reduced m' st' Hr. by apply IH.
Qed.

(** ** Resolution closure *)


Lemma exit_test_counts s : counts_agree s → Resolution.exit_test s = true.
Proof.
  intros [H1 H2]. unfold Resolution.exit_test.
  by rewrite !bool_decide_eq_true_2.
Qed.

Lemma init_counts cs : counts_agree (Resolution.__init__ cs).
Proof. split; cbn; lia. Qed.

Lemma pass_step_refl s : pass_step s (None, s).
Proof.
  unfold pass_step. cbn [fst snd]. split_and!; try done.
  exists []. by rewrite app_nil_r.
Qed.

Lemma pass_step_trans s s' r :
  pass_step s (None, s') → pass_step s' r → pass_step s r.
Proof.
  intros (Hc & (n1 & Hp) & Hs & _) (Hc' & (n2 & Hp') & Hs' & Hf & Hr & Ht).
  cbn [fst snd] in *. unfold pass_step. split_and!.
  - tauto.
  - exists (n1 ++ n2). by rewrite Hp', Hp, <- app_assoc.
  - set_solver.
  - done.
  - done.
  - intros Hret Hin. specialize (Ht Hret). apply Ht. set_solver.
Qed.

Lemma add_resolvents_step rs s :
  pass_step s (Resolution.add_resolvents rs s).
Proof.
  revert s. induction rs as [|c rs IH]; intros s; [apply pass_step_refl|].
  cbn [Resolution.add_resolvents].
  cbn [Resolution.clauses_seen Resolution.clauses_initial
       Resolution.derived_indices Resolution.pairs Resolution.pool
       Resolution.total_count].
  destruct (decide (c ∉ Resolution.clauses_seen s)) as [Hnew|Hold].
  - set (s2 := Resolution.State _ _ _ _ _ _).
    assert (pass_step s (None, s2)) as Hstep.
    { unfold pass_step. cbn [fst snd]. split_and!; try done.
      - unfold counts_agree, s2. cbn. rewrite !length_app. cbn. lia.
      - by exists [c].
      - unfold s2. cbn. set_solver. }
    destruct (decide (c = ∅)) as [->|Hne].
    + destruct Hstep as (Hc & Hp & Hs & _).
      unfold pass_step. cbn [fst snd]. by split_and!.
    + eapply pass_step_trans; [exact Hstep|apply IH].
  - set (s1 := Resolution.State _ _ _ _ _ _).
    assert (pass_step s (None, s1)) as Hstep.
    { unfold pass_step. cbn [fst snd]. split_and!; try done.
      exists []. by rewrite app_nil_r. }
    eapply pass_step_trans; [exact Hstep|apply IH].
Qed.

Lemma pass_step_length s r :
  pass_step s r →
  (length (Resolution.pool s) ≤ length (Resolution.pool r.2))%nat.
Proof. intros (_ & (new & ->) & _). rewrite length_app. lia. Qed.

Section Resolution_pass.
Variable set_iter : nat → gset Z → list Z.

Lemma loop_j_step i js s :
  (i < length (Resolution.pool s))%nat →
  Forall (λ j, (j < length (Resolution.pool s))%nat) js →
  pass_step s (Resolution.loop_j set_iter i js s).
Proof.
  revert s. induction js as [|j js IH]; intros s Hi Hjs;
    [apply pass_step_refl|].
  apply Forall_cons in Hjs as [Hj Hjs]. cbn [Resolution.loop_j].
  destruct (lookup_lt_is_Some_2 _ _ Hi) as [lhs ->].
  destruct (lookup_lt_is_Some_2 _ _ Hj) as [rhs ->].
  pose proof (add_resolvents_step (Resolution._resolve_pair set_iter i lhs rhs) s)
    as Hstep.
  destruct (Resolution.add_resolvents _ s) as [[e|] s'] eqn:Hadd; [done|].
  pose proof (pass_step_length _ _ Hstep) as Hlen. cbn [snd] in Hlen.
  eapply pass_step_trans; [exact Hstep|]. apply IH; [lia|].
  eapply Forall_impl; [exact Hjs|]. cbn. intros; lia.
Qed.

Lemma loop_i_step n idx s :
  (n ≤ length (Resolution.pool s))%nat →
  Forall (λ i, (i < n)%nat) idx →
  pass_step s (Resolution.loop_i set_iter n idx s).
Proof.
  revert s. induction idx as [|i idx IH]; intros s Hn Hidx;
    [apply pass_step_refl|].
  apply Forall_cons in Hidx as [Hi Hidx]. cbn [Resolution.loop_i].
  assert (pass_step s (Resolution.loop_j set_iter i (seq (S i) (n - S i)) s))
    as Hstep.
  { apply loop_j_step; [lia|]. apply Forall_forall. intros j Hj.
    apply list_elem_of_In, in_seq in Hj. lia. }
  destruct (Resolution.loop_j _ _ _ s) as [[e|] s'] eqn:Hj; [done|].
  pose proof (pass_step_length _ _ Hstep) as Hlen. cbn [snd] in Hlen.
  eapply pass_step_trans; [exact Hstep|]. apply IH; [lia|done].
Qed.

Lemma pass_pass_step s : pass_step s (Resolution.pass set_iter s).
Proof.
  unfold Resolution.pass. apply loop_i_step; [done|].
  apply Forall_forall. intros i Hi. apply list_elem_of_In, in_seq in Hi. lia.
Qed.

(** [solve] never runs a second pass: when the first pass completes,
    the test that ends the loop holds, whether or not the pass added
    clauses. *)
Lemma solve_loop_one_pass fuel s :
  counts_agree s →
  Resolution.solve_loop set_iter (S fuel) s
  = match Resolution.pass set_iter s with
    | (None, s') => (Some (Resolution.Returned false), s')
    | r => r
    end.
Proof.
  intros Hs. cbn [Resolution.solve_loop].
  pose proof (pass_pass_step s) as (Hc & _).
  destruct (Resolution.pass set_iter s) as [[e|] s']; [done|].
  by rewrite exit_test_counts by auto.
Qed.

Lemma solve_one_pass fuel cs :
  Resolution.solve set_iter (S fuel) cs = Resolution.solve set_iter 1 cs
  ∧ ∃ b, Resolution.solve set_iter 1 cs = Some (Resolution.Returned b).
Proof.
  unfold Resolution.solve.
  rewrite !solve_loop_one_pass by apply init_counts. split; [done|].
  pose proof (pass_pass_step (Resolution.__init__ cs)) as (_ & _ & _ & Hf & Hr & _).
  destruct (Resolution.pass set_iter _) as [[[[]|]|] s'];
    cbn [fst] in *; [by exists true|done|done|by exists false].
Qed.

(** With the empty clause among the input clauses, [solve] reports SAT. *)
Lemma solve_empty_clause_input fuel cs :
  ∅ ∈ cs →
  Resolution.solve set_iter (S fuel) cs = Some (Resolution.Returned false).
Proof.
  intros Hin. unfold Resolution.solve.
  rewrite solve_loop_one_pass by apply init_counts.
  pose proof (pass_pass_step (Resolution.__init__ cs)) as (_ & _ & _ & Hf & Hr & Ht).
  destruct (Resolution.pass set_iter _) as [[[[]|]|] s'];
    cbn [fst] in *; [|done..].
  exfalso. apply Ht; [done|]. cbn. by apply elem_of_list_to_set.
Qed.

End Resolution_pass.

Section Resolution_order.
Variable set_iter : nat → gset Z → list Z.
Hypothesis set_iter_perm : ∀ i s, set_iter i s ≡ₚ elements s.

(** The enumeration order only permutes the resolvents of a pair. *)
Lemma resolve_pair_perm i lhs rhs :
  Resolution._resolve_pair set_iter i lhs rhs
  ≡ₚ Resolution._resolve_pair Resolution.canonical_iter 0 lhs rhs.
Proof. unfold Resolution._resolve_pair. by rewrite set_iter_perm. Qed.

Lemma resolve_pair_short i lhs rhs :
  (length (Resolution._resolve_pair Resolution.canonical_iter 0 lhs rhs) ≤ 1)%nat →
  Resolution._resolve_pair set_iter i lhs rhs
  = Resolution._resolve_pair Resolution.canonical_iter 0 lhs rhs.
Proof.
  pose proof (resolve_pair_perm i lhs rhs) as Hperm.
  destruct (Resolution._resolve_pair Resolution.canonical_iter 0 lhs rhs) as [|c [|d l]]; cbn.
  - intros _. by apply Permutation_nil_r.
  - intros _. by apply Permutation_singleton_r.
  - lia.
Qed.

Lemma single_resolvents_lookup p i j lhs rhs :
  single_resolvents p = true →
  p !! i = Some lhs → p !! j = Some rhs →
  (length (Resolution._resolve_pair Resolution.canonical_iter 0 lhs rhs) ≤ 1)%nat.
Proof.
  unfold single_resolvents. rewrite forallb_forall.
  intros H Hi Hj.
  apply list_elem_of_lookup_2, list_elem_of_In in Hi, Hj.
  specialize (H _ Hi). rewrite forallb_forall in H.
  specialize (H _ Hj). by apply bool_decide_eq_true in H.
Qed.

Lemma loop_j_order p0 i js s :
  single_resolvents p0 = true →
  (∃ new, Resolution.pool s = p0 ++ new) →
  (i < length p0)%nat → Forall (λ j, (j < length p0)%nat) js →
  Resolution.loop_j set_iter i js s = Resolution.loop_j Resolution.canonical_iter i js s.
Proof.
  intros Hp0. revert s. induction js as [|j js IH]; intros s [new Hs] Hi Hjs;
    [done|].
  apply Forall_cons in Hjs as [Hj Hjs]. cbn [Resolution.loop_j].
  rewrite Hs, !lookup_app_l by done.
  destruct (lookup_lt_is_Some_2 _ _ Hi) as [lhs Hlhs].
  destruct (lookup_lt_is_Some_2 _ _ Hj) as [rhs Hrhs].
  rewrite Hlhs, Hrhs.
  rewrite resolve_pair_short by (by eapply single_resolvents_lookup).
  pose proof (add_resolvents_step (Resolution._resolve_pair Resolution.canonical_iter 0 lhs rhs) s)
    as (_ & [new' Hnew] & _).
  destruct (Resolution.add_resolvents _ s) as [[e|] s'] eqn:Hadd; [done|].
  apply IH; [|done..]. exists (new ++ new'). cbn [snd] in Hnew.
  by rewrite Hnew, Hs, <- app_assoc.
Qed.

Lemma loop_i_order p0 idx s :
  single_resolvents p0 = true →
  (∃ new, Resolution.pool s = p0 ++ new) →
  Forall (λ i, (i < length p0)%nat) idx →
  Resolution.loop_i set_iter (length p0) idx s
  = Resolution.loop_i Resolution.canonical_iter (length p0) idx s.
Proof.
  intros Hp0. revert s. induction idx as [|i idx IH]; intros s [new Hs] Hidx;
    [done|].
  apply Forall_cons in Hidx as [Hi Hidx]. cbn [Resolution.loop_i].
  assert (Forall (λ j, (j < length p0)%nat) (seq (S i) (length p0 - S i)))
    as Hjs.
  { apply Forall_forall. intros j Hj.
    apply list_elem_of_In, in_seq in Hj. lia. }
  rewrite (loop_j_order p0) by eauto.
  assert (pass_step s (Resolution.loop_j Resolution.canonical_iter i
                         (seq (S i) (length p0 - S i)) s))
    as (_ & [new' Hnew] & _).
  { apply loop_j_step; [rewrite Hs, length_app; lia|].
    eapply Forall_impl; [exact Hjs|]. cbn. intros.
    rewrite Hs, length_app. lia. }
  destruct (Resolution.loop_j Resolution.canonical_iter _ _ s) as [[e|] s'] eqn:Hj; [done|].
  apply IH; [|done]. exists (new ++ new'). cbn [snd] in Hnew.
  by rewrite Hnew, Hs, <- app_assoc.
Qed.

(** When every pair of input clauses has at most one resolvent, the
    pass does not depend on the enumeration order. *)
Lemma pass_order s :
  single_resolvents (Resolution.pool s) = true →
  Resolution.pass set_iter s = Resolution.pass Resolution.canonical_iter s.
Proof.
  intros Hp. unfold Resolution.pass. apply loop_i_order; [done| |].
  - exists []. by rewrite app_nil_r.
  - apply Forall_forall. intros i Hi.
    apply list_elem_of_In, in_seq in Hi. lia.
Qed.

Lemma solve_order fuel cs :
  single_resolvents cs = true →
  Resolution.solve set_iter (S fuel) cs = Resolution.solve Resolution.canonical_iter 1 cs.
Proof.
  intros Hcs. unfold Resolution.solve.
  rewrite !solve_loop_one_pass by apply init_counts.
  by rewrite pass_order.
Qed.

End Resolution_order.

(** ** Agreement of the three engines *)

Lemma scenario3_unsatisfiable : ¬ satisfiable [[1; 2]; [-1; 2]; [-2]].
Proof.
  intros [a H]. vm_compute in H. destruct (a 1), (a 2); discriminate.
Qed.

(** C1.  On [{1, 2}], [{-1, 2}], [{-2}], which is unsatisfiable, DP
    returns [False] and DPLL returns [None] (both UNSAT), while
    resolution returns [False], its SAT verdict: it stops after the first
    pass, which derived [{2}], [{1}] and [{-1}] but not yet the empty
    clause. *)
Theorem engines_disagree_scenario3 (union_iter : clause → clause → list Z)
    (set_iter : nat → gset Z → list Z) (fuel : nat) :
  (∀ c1 c2, union_iter c1 c2 ≡ₚ DP.canonical_union c1 c2) →
  (∀ i s, set_iter i s ≡ₚ elements s) →
  let cnf := [[1; 2]; [-1; 2]; [-2]] in
  ¬ satisfiable cnf
  ∧ DP.solve union_iter (3 + fuel) cnf = Some false
  ∧ DPLL.solve (3 + fuel) cnf = DPLL.Ret (None, DPLL.Stats 0 0 2 0)
  ∧ Resolution.solve set_iter (3 + fuel) (Resolution.frozenset <$> cnf)
    = Some (Resolution.Returned false).
Proof.
  intros Hunion Hperm cnf. split_and!.
  - apply scenario3_unsatisfiable.
  - apply (dp_scenario3_run union_iter Hunion (1 + fuel)).
  - vm_compute. reflexivity.
  - change (3 + fuel)%nat with (S (2 + fuel)).
    rewrite solve_order by (done || (vm_compute; reflexivity)).
    vm_compute. reflexivity.
Qed.

Lemma engines_disagree_scenario3_witness :
  (∀ c1 c2, DP.canonical_union c1 c2 ≡ₚ DP.canonical_union c1 c2)
  ∧ (∀ (i : nat) (s : gset Z), Resolution.canonical_iter i s ≡ₚ elements s)
  ∧ DP.solve DP.canonical_union 3 [[1; 2]; [-1; 2]; [-2]] = Some false
  ∧ Resolution.solve Resolution.canonical_iter 3
      (Resolution.frozenset <$> [[1; 2]; [-1; 2]; [-2]])
    = Some (Resolution.Returned false).
Proof.
  assert (∀ c1 c2, DP.canonical_union c1 c2 ≡ₚ DP.canonical_union c1 c2)
    as Hu by reflexivity.
  assert (∀ (i : nat) (s : gset Z), Resolution.canonical_iter i s ≡ₚ elements s)
    as Hs by reflexivity.
  split; [exact Hu|]. split; [exact Hs|].
  destruct (engines_disagree_scenario3 DP.canonical_union
              Resolution.canonical_iter 0 Hu Hs) as (_ & Hdp & _ & Hres).
  split; [exact Hdp | exact Hres].
Defined.

(** ** The fixed-point test of the resolution engine *)

(** C2.  On [{1, 2}], [{-1, 3}] the first pass adds the resolvent
    [{2, 3}], so the pool grows from two clauses to three; all the same
    [solve] returns [False] (SAT) at the end of that pass, without
    another one. *)
Theorem resolution_returns_after_growth (set_iter : nat → gset Z → list Z)
    (fuel : nat) :
  (∀ i s, set_iter i s ≡ₚ elements s) →
  let s0 := Resolution.__init__ [{[ 1; 2 ]}; {[ -1; 3 ]}] in
  ∃ s1,
    Resolution.pass set_iter s0 = (None, s1)
    ∧ length (Resolution.pool s0) = 2%nat
    ∧ Resolution.pool s1 = [{[ 1; 2 ]}; {[ -1; 3 ]}; {[ 2; 3 ]}]
    ∧ Resolution.solve_loop set_iter 1 s0 = (Some (Resolution.Returned false), s1)
    ∧ Resolution.solve_loop set_iter (S fuel) s0
      = (Some (Resolution.Returned false), s1).
Proof.
  intros Hperm s0.
  assert (single_resolvents (Resolution.pool s0) = true) as Hsingle
    by (vm_compute; reflexivity).
  rewrite !(solve_loop_one_pass set_iter) by apply init_counts.
  rewrite (pass_order set_iter Hperm) by done.
  eexists. split_and!; [vm_compute; reflexivity|reflexivity| |reflexivity..].
  vm_compute. reflexivity.
Qed.

Lemma resolution_returns_after_growth_witness :
  (∀ (i : nat) (s : gset Z), Resolution.canonical_iter i s ≡ₚ elements s)
  ∧ ∃ s1,
      Resolution.pass Resolution.canonical_iter
        (Resolution.__init__ [{[ 1; 2 ]}; {[ -1; 3 ]}])
      = (None, s1)
      ∧ length (Resolution.pool s1) = 3%nat
      ∧ Resolution.solve Resolution.canonical_iter 1 [{[ 1; 2 ]}; {[ -1; 3 ]}]
        = Some (Resolution.Returned false).
Proof.
  assert (∀ (i : nat) (s : gset Z), Resolution.canonical_iter i s ≡ₚ elements s)
    as H by reflexivity.
  split; [exact H|].
  destruct (resolution_returns_after_growth Resolution.canonical_iter 0 H)
    as (s1 & Hpass & _ & Hpool & Hrun & _).
  exists s1. split; [exact Hpass|]. split; [by rewrite Hpool|].
  unfold Resolution.solve. by rewrite Hrun.
Defined.

(** ** Formulas with an empty clause *)

Lemma dp_empty_clause_input (union_iter : clause → clause → list Z) fuel
    (cnf : formula) :
  [] ∈ cnf → DP.solve union_iter (S fuel) cnf = Some false.
Proof.
  intros Hin. unfold DP.solve, DP.__init__. rewrite list_fmap_id.
  cbn [DP.solve_loop DP._clauses].
  destruct (decide (cnf = [])) as [->|_]; [by apply elem_of_nil in Hin|].
  assert (existsb (λ c : list Z, bool_decide (length c = 0%nat)) cnf = true)
    as ->; [|done].
  apply existsb_exists. exists []. split; [by apply list_elem_of_In|done].
Qed.

Lemma simplify_loop_keeps_empty lit cs acc new :
  DPLL.simplify_loop lit cs acc = Some new →
  [] ∈ acc ∨ [] ∈ cs → [] ∈ new.
Proof.
  revert acc. induction cs as [|c cs IH]; intros acc; cbn [DPLL.simplify_loop].
  - intros [= <-] [H|H]; [done|by apply elem_of_nil in H].
  - intros Hs Hin.
    assert (c = [] → (lit ∉ c) ∧ (- lit) ∉ c) as Hc.
    { intros ->. split; apply not_elem_of_nil. }
    destruct (decide (lit ∈ c)) as [Hl|Hl].
    { eapply IH; [exact Hs|]. destruct Hin as [H|H]; [by left|].
      apply elem_of_cons in H as [H|H]; [|by right].
      symmetry in H. destruct (Hc H) as [? _]. done. }
    destruct (decide (- lit ∈ c)) as [Hn|Hn].
    { destruct (filter _ c) as [|x r] eqn:Hf; [done|].
      eapply IH; [exact Hs|]. destruct Hin as [H|H].
      - left. apply elem_of_app. by left.
      - apply elem_of_cons in H as [H|H]; [|by right].
        symmetry in H. destruct (Hc H) as [_ ?]. done. }
    eapply IH; [exact Hs|]. destruct Hin as [H|H].
    + left. apply elem_of_app. by left.
    + apply elem_of_cons in H as [<-|H]; [|by right].
      left. apply elem_of_app. right. left.
Qed.

Lemma simplify_keeps_empty cs lit new :
  DPLL._simplify cs lit = Some new → [] ∈ cs → [] ∈ new.
Proof. intros H Hin. eapply simplify_loop_keeps_empty; [exact H|by right]. Qed.

Lemma propagate_keeps_empty fuel cs m st cs' m' st' :
  DPLL._propagate fuel cs m st = DPLL.Ret (Some cs', m', st') →
  [] ∈ cs → [] ∈ cs'.
Proof.
  assert (∀ fuel cs m st cs' m' st',
            DPLL.unit_loop fuel cs m st = DPLL.Ret (Some cs', m', st') →
            [] ∈ cs → [] ∈ cs') as Hu.
  { clear. intros fuel. induction fuel as [|fuel IH]; intros cs m st cs' m' st';
      [done|].
    cbn [DPLL.unit_loop]. destruct (DPLL._find_unit cs) as [u|].
    - destruct (DPLL._simplify cs u) as [cs1|] eqn:Hs; [|done].
      intros H Hin. eapply IH; [exact H|]. by eapply simplify_keeps_empty.
    - by intros [= <- _ _]. }
  assert (∀ fuel cs m st cs' m' st',
            DPLL.pure_loop fuel cs m st = DPLL.Ret (Some cs', m', st') →
            [] ∈ cs → [] ∈ cs') as Hp.
  { clear. intros fuel. induction fuel as [|fuel IH]; intros cs m st cs' m' st';
      [done|].
    cbn [DPLL.pure_loop]. destruct (DPLL._find_pure cs) as [p|].
    - intros H Hin. eapply IH; [exact H|].
      apply list_elem_of_filter. split; [apply not_elem_of_nil|done].
    - by intros [= <- _ _]. }
  unfold DPLL._propagate.
  destruct (DPLL.unit_loop fuel cs m st) as [[[[cs1|] m1] st1]| |] eqn:Hul;
    [|done..].
  intros H Hin. eapply Hp; [exact H|]. by eapply Hu.
Qed.

(** On a formula with an empty clause DPLL never returns a model. *)
Lemma solve_rec_empty_clause fuel cs m st result st' :
  [] ∈ cs → DPLL.solve_rec fuel cs m st ≠ DPLL.Ret (Some result, st').
Proof.
  revert cs m st. induction fuel as [|fuel IH]; intros cs m st Hin; [done|].
  cbn [DPLL.solve_rec].
  destruct (DPLL._propagate (S fuel) cs m st)
    as [[[[[|c cs1]|] m1] st1]| |] eqn:Hp; [|  |done..].
  { apply propagate_keeps_empty in Hp; [|done]. by apply elem_of_nil in Hp. }
  apply propagate_keeps_empty in Hp; [|done].
  destruct c as [|pivot c]; [done|].
  generalize (DPLL.incr_decisions st1). generalize [true; false].
  intros truths. induction truths as [|truth truths IHt]; intros st2; [done|].
  cbn [DPLL.branch].
  destruct (DPLL._simplify _ (if truth then pivot else - pivot))
    as [reduced|] eqn:Hs; [|apply IHt].
  pose proof (simplify_keeps_empty _ _ _ Hs Hp) as Hred.
  pose proof (IH reduced (<[Z.abs pivot := truth]> m1) st2 Hred) as Hrec.
  destruct (DPLL.solve_rec fuel reduced _ st2) as [[[r|] st3]| |];
    [|apply IHt|done..].
  intros [= <- <-]. done.
Qed.

(** C3.  On a formula with an empty clause DP returns [False] (UNSAT).
    DPLL never returns a model on it, but on the formula whose only
    clause is empty it raises [IndexError] instead of returning [None];
    and resolution returns [False], its SAT verdict, whenever the empty
    clause is among the input clauses. *)
Theorem empty_clause_verdicts (union_iter : clause → clause → list Z)
    (set_iter : nat → gset Z → list Z) (fuel : nat) :
  (∀ cnf : formula, [] ∈ cnf → DP.solve union_iter (S fuel) cnf = Some false)
  ∧ (∀ (cnf : formula) n result st,
       [] ∈ cnf → DPLL.solve n cnf ≠ DPLL.Ret (Some result, st))
  ∧ DPLL.solve (S fuel) [[]] = DPLL.IndexError
  ∧ (∀ cnf : formula,
       [] ∈ cnf →
       Resolution.solve set_iter (S fuel) (Resolution.frozenset <$> cnf)
       = Some (Resolution.Returned false))
  ∧ Resolution.solve set_iter (S fuel) (Resolution.frozenset <$> [[]])
    = Some (Resolution.Returned false).
Proof.
  split_and!.
  - intros cnf. apply dp_empty_clause_input.
  - intros cnf n result st Hin. unfold DPLL.solve. rewrite list_fmap_id.
    by apply solve_rec_empty_clause.
  - reflexivity.
  - intros cnf Hin. apply solve_empty_clause_input.
    apply list_elem_of_fmap. exists []. split; [|done].
    unfold Resolution.frozenset. by rewrite list_to_set_nil.
  - reflexivity.
Qed.

(** ** Elimination and satisfiability *)

(** Eliminating variable 1 from [{1, 2}], [{-1, -2}], [{-2, 3}], [{-3}]
    leaves [{-2, 3}], [{-3}] and the resolvent over [2] and [-2], in
    whichever order the union is enumerated. *)
Lemma dp_reaches_tautology (union_iter : clause → clause → list Z) :
  (∀ c1 c2, union_iter c1 c2 ≡ₚ DP.canonical_union c1 c2) →
  ∃ r, (r = [2; -2] ∨ r = [-2; 2])
       ∧ DP._eliminate union_iter 1 (DP.__init__ [[1; 2]; [-1; -2]; [-2; 3]; [-3]])
         = (Some [[-2; 3]; [-3]; r],
            DP.Solver [[-2; 3]; [-3]; r] (DP.Stats 1 1)).
Proof.
  intros Hperm.
  assert (DP.resolvent union_iter 1 [1; 2] [-1; -2] = [2; -2]
          ∨ DP.resolvent union_iter 1 [1; 2] [-1; -2] = [-2; 2]) as Hr.
  { apply Permutation_length_2_inv. symmetry.
    etrans; [by apply resolvent_perm|]. vm_compute. apply perm_swap. }
  erewrite eliminate_unfold by (vm_compute; reflexivity).
  cbn [DP.resolve_outer DP.resolve_inner DP._clauses DP._stats DP.resolvents
       DP.__init__].
  destruct Hr as [-> | ->]; eexists; (split; [|reflexivity]); tauto.
Qed.

(** C5.  Eliminating variable 2 from [{-2, 3}], [{-3}] and the clause
    over [2] and [-2] (in either order) succeeds and yields [{-3}],
    [{3}]: the clause holding both polarities is taken as a positive
    clause and resolved against [{-2, 3}] into [{3}].  The clause set
    before is satisfiable, the one after is not. *)
Theorem dp_eliminate_not_equisatisfiable (union_iter : clause → clause → list Z)
    (r : clause) :
  (∀ c1 c2, union_iter c1 c2 ≡ₚ DP.canonical_union c1 c2) →
  r = [2; -2] ∨ r = [-2; 2] →
  let cs := [[-2; 3]; [-3]; r] in
  DP._eliminate union_iter 2 (DP.Solver cs (DP.Stats 1 1))
  = (Some [[-3]; [3]], DP.Solver [[-3]; [3]] (DP.Stats 2 2))
  ∧ satisfiable cs
  ∧ ¬ satisfiable [[-3]; [3]].
Proof.
  intros Hperm Hr cs. split_and!.
  - unfold cs. destruct Hr as [-> | ->].
    + erewrite eliminate_unfold by (vm_compute; reflexivity).
      cbn [DP.resolve_outer DP.resolve_inner DP._clauses DP._stats DP.resolvents].
      rewrite (resolvent_singleton union_iter Hperm 2 [2; -2] [-2; 3] 3)
        by (vm_compute; reflexivity).
      reflexivity.
    + erewrite eliminate_unfold by (vm_compute; reflexivity).
      cbn [DP.resolve_outer DP.resolve_inner DP._clauses DP._stats DP.resolvents].
      rewrite (resolvent_singleton union_iter Hperm 2 [-2; 2] [-2; 3] 3)
        by (vm_compute; reflexivity).
      reflexivity.
  - exists (λ _, false). unfold cs. by destruct Hr as [-> | ->].
  - intros [a H]. vm_compute in H. destruct (a 3); discriminate.
Qed.

Lemma dp_eliminate_not_equisatisfiable_witness :
  (∀ c1 c2, DP.canonical_union c1 c2 ≡ₚ DP.canonical_union c1 c2)
  ∧ DP._eliminate DP.canonical_union 2
      (DP.Solver [[-2; 3]; [-3]; [2; -2]] (DP.Stats 1 1))
    = (Some [[-3]; [3]], DP.Solver [[-3]; [3]] (DP.Stats 2 2))
  ∧ satisfiable [[-2; 3]; [-3]; [2; -2]]
  ∧ ¬ satisfiable [[-3]; [3]].
Proof.
  assert (∀ c1 c2, DP.canonical_union c1 c2 ≡ₚ DP.canonical_union c1 c2)
    as H by reflexivity.
  split; [exact H|].
  exact (dp_eliminate_not_equisatisfiable DP.canonical_union [2; -2] H
           (or_introl eq_refl)).
Defined.

Lemma dp_solve_terminates_witness :
  (∀ c1 c2, DP.canonical_union c1 c2 ≡ₚ DP.canonical_union c1 c2)
  ∧ ∃ b : bool, ∀ fuel,
      (size (formula_vars [[1; 2]; [-1; 2]; [-2]]%Z) < fuel)%nat →
      DP.solve DP.canonical_union fuel [[1; 2]; [-1; 2]; [-2]] = Some b.
Proof.
  assert (∀ c1 c2, DP.canonical_union c1 c2 ≡ₚ DP.canonical_union c1 c2)
    as H by reflexivity.
  split; [exact H|].
  exact (proj2 (dp_solve_terminates DP.canonical_union H
                  [[1; 2]; [-1; 2]; [-2]])).
Defined.

(** ** The engines over the store: private copies *)

Section store_logic.
Import Store.

Lemma wp_ret {A} (a : A) Q h : Q a h → wp (mret a) Q h.
Proof. intros HQ. by exists a, h. Qed.

Lemma wp_bind {A B} (m : M A) (k : A → M B) Q h :
  wp m (λ a h', wp (k a) Q h') h → wp (m ≫= k) Q h.
Proof.
  intros (a & h' & Hm & b & h'' & Hk & HQ). exists b, h''.
  split; [|done]. unfold mbind, M_bind. by rewrite Hm.
Qed.

Lemma wp_new o Q h : Q (length h) (h ++ [o]) → wp (new o) Q h.
Proof. intros HQ. by exists (length h), (h ++ [o]). Qed.

Lemma wp_get_ints l c Q h :
  h !! l = Some (Ints c) → Q c h → wp (get_ints l) Q h.
Proof. intros Hl HQ. exists c, h. unfold get_ints. by rewrite Hl. Qed.

Lemma wp_get_refs l rs Q h :
  h !! l = Some (Refs rs) → Q rs h → wp (get_refs l) Q h.
Proof. intros Hl HQ. exists rs, h. unfold get_refs. by rewrite Hl. Qed.

Lemma wp_get_dict l m Q h :
  h !! l = Some (Dict m) → Q m h → wp (get_dict l) Q h.
Proof. intros Hl HQ. exists m, h. unfold get_dict. by rewrite Hl. Qed.

Lemma wp_append l r rs Q h :
  h !! l = Some (Refs rs) → Q () (<[l := Refs (rs ++ [r])]> h) →
  wp (append l r) Q h.
Proof. intros Hl HQ. eexists _, _. unfold append. by rewrite Hl. Qed.

Lemma wp_setitem l k v m Q h :
  h !! l = Some (Dict m) → Q () (<[l := Dict (<[k := v]> m)]> h) →
  wp (setitem l k v) Q h.
Proof. intros Hl HQ. eexists _, _. unfold setitem. by rewrite Hl. Qed.

Lemma wp_bump_dp l f st Q h :
  h !! l = Some (DPCounters st) → Q () (<[l := DPCounters (f st)]> h) →
  wp (bump_dp l f) Q h.
Proof. intros Hl HQ. eexists _, _. unfold bump_dp. by rewrite Hl. Qed.

Lemma wp_bump_dpll l f st Q h :
  h !! l = Some (DPLLCounters st) → Q () (<[l := DPLLCounters (f st)]> h) →
  wp (bump_dpll l f) Q h.
Proof. intros Hl HQ. eexists _, _. unfold bump_dpll. by rewrite Hl. Qed.

Lemma kept_refl ws h : kept ws h h.
Proof. by intros l o. Qed.

Lemma kept_trans ws h1 h2 h3 : kept ws h1 h2 → kept ws h2 h3 → kept ws h1 h3.
Proof. intros H12 H23 l o Hl Hw. apply H23; [|done]. by apply H12. Qed.

Lemma kept_weaken ws ws' h h' :
  (∀ l, l ∈ ws → l ∈ ws') → kept ws h h' → kept ws' h h'.
Proof. intros Hsub Hk l o Hl Hw. apply Hk; [done|]. intros ?. by apply Hw, Hsub. Qed.

Lemma kept_written_fresh ws h0 h h' l :
  kept ws h0 h → written l h h' → (length h0 ≤ l)%nat → kept ws h0 h'.
Proof.
  intros Hk [_ Hw] Hl l0 o Hl0 Hws.
  rewrite Hw; [by apply Hk|].
  apply lookup_lt_Some in Hl0. lia.
Qed.

Lemma kept_written_ws ws h0 h h' l :
  kept ws h0 h → written l h h' → l ∈ ws → kept ws h0 h'.
Proof.
  intros Hk [_ Hw] Hl l0 o Hl0 Hws.
  rewrite Hw; [by apply Hk|]. by intros ->.
Qed.

Lemma wp_new_fresh o (Q : loc → store → Prop) h :
  (∀ h', h' !! length h = Some o → length h' = S (length h) →
         kept [] h h' → Q (length h) h') →
  wp (new o) Q h.
Proof.
  intros HQ. apply wp_new, HQ.
  - by rewrite lookup_app_r, Nat.sub_diag.
  - rewrite length_app. cbn. lia.
  - intros l o' Hl _. by apply lookup_app_l_Some.
Qed.

Lemma written_insert l o (h : store) : written l h (<[l := o]> h).
Proof.
  split; [apply length_insert|].
  intros l' Hne. by apply list_lookup_insert_ne.
Qed.

Lemma wp_append_at l r rs (Q : () → store → Prop) h :
  h !! l = Some (Refs rs) →
  (∀ h', h' !! l = Some (Refs (rs ++ [r])) → written l h h' → Q () h') →
  wp (append l r) Q h.
Proof.
  intros Hl HQ. eapply wp_append; [done|]. apply HQ; [|apply written_insert].
  apply list_lookup_insert_eq. by eapply lookup_lt_Some.
Qed.

Lemma wp_setitem_at l k v m (Q : () → store → Prop) h :
  h !! l = Some (Dict m) →
  (∀ h', h' !! l = Some (Dict (<[k := v]> m)) → written l h h' → Q () h') →
  wp (setitem l k v) Q h.
Proof.
  intros Hl HQ. eapply wp_setitem; [done|]. apply HQ; [|apply written_insert].
  apply list_lookup_insert_eq. by eapply lookup_lt_Some.
Qed.

Lemma wp_bump_dp_at l f st (Q : () → store → Prop) h :
  h !! l = Some (DPCounters st) →
  (∀ h', h' !! l = Some (DPCounters (f st)) → written l h h' → Q () h') →
  wp (bump_dp l f) Q h.
Proof.
  intros Hl HQ. eapply wp_bump_dp; [done|]. apply HQ; [|apply written_insert].
  apply list_lookup_insert_eq. by eapply lookup_lt_Some.
Qed.

Lemma wp_bump_dpll_at l f st (Q : () → store → Prop) h :
  h !! l = Some (DPLLCounters st) →
  (∀ h', h' !! l = Some (DPLLCounters (f st)) → written l h h' → Q () h') →
  wp (bump_dpll l f) Q h.
Proof.
  intros Hl HQ. eapply wp_bump_dpll; [done|]. apply HQ; [|apply written_insert].
  apply list_lookup_insert_eq. by eapply lookup_lt_Some.
Qed.

(** Clauses survive the allocation of objects and the writing of
    objects that are not clauses. *)
Lemma is_clauses_kept h h' cs F :
  is_clauses h cs F → kept [] h h' → is_clauses h' cs F.
Proof.
  intros Hcs Hk. eapply Forall2_impl; [exact Hcs|].
  intros c lits Hc. apply Hk; [done|apply not_elem_of_nil].
Qed.

Lemma is_clauses_written h h' l o cs F :
  is_clauses h cs F → written l h h' → h !! l = Some o → (∀ c, o ≠ Ints c) →
  is_clauses h' cs F.
Proof.
  intros Hcs [_ Hw] Hl Ho. eapply Forall2_impl; [exact Hcs|].
  intros c lits Hc. rewrite Hw; [done|]. intros ->. naive_solver.
Qed.

Lemma is_clauses_snoc h cs F c lits :
  is_clauses h cs F → h !! c = Some (Ints lits) →
  is_clauses h (cs ++ [c]) (F ++ [lits]).
Proof. intros Hcs Hc. apply Forall2_app; [done|]. by constructor. Qed.

Lemma mapM_get_ints h cs F :
  is_clauses h cs F → mapM get_ints cs h = Some (F, h).
Proof.
  induction 1 as [|c lits cs F Hc Hcs IH]; [done|].
  cbn [mapM]. unfold mbind at 1, M_bind at 1. unfold get_ints at 1.
  rewrite Hc. unfold mbind at 1, M_bind at 1. by rewrite IH.
Qed.

Lemma read_formula_spec h l F :
  is_formula h l F → read_formula l h = Some (F, h).
Proof.
  intros (cs & Hl & Hcs). unfold read_formula, mbind, M_bind, get_refs.
  rewrite Hl. by apply mapM_get_ints.
Qed.

Lemma wp_read_formula h l F (Q : formula → store → Prop) :
  is_formula h l F → Q F h → wp (read_formula l) Q h.
Proof. intros Hf HQ. exists F, h. by rewrite (read_formula_spec h l F). Qed.

(** [[c[:] for c in clauses]] builds new clause objects and a new list
    of them, and writes to nothing else. *)
Lemma wp_copy_loop h0 out (Q : option () → store → Prop) cs :
  ∀ F2 hc copies F1,
    is_clauses hc cs F2 →
    hc !! out = Some (Refs copies) → is_clauses hc copies F1 →
    kept [] h0 hc → (length h0 ≤ out)%nat →
    (∀ h' copies',
       h' !! out = Some (Refs copies') → is_clauses h' copies' (F1 ++ F2) →
       kept [] h0 h' → Q None h') →
    wp (for_ cs (λ c, lits ← get_ints c; c' ← new (Ints lits);
                      append out c';; mret None)) Q hc.
Proof.
  induction cs as [|c cs IH]; intros F2 hc copies F1 Hcs Hout Hcopies Hk Hfresh HQ.
  { apply Forall2_nil_inv_l in Hcs as ->. apply wp_ret.
    eapply HQ; [done| |done]. by rewrite app_nil_r. }
  apply Forall2_cons_inv_l in Hcs as (lits & F2' & Hc & Hcs & ->).
  cbn [for_]. apply wp_bind, wp_bind. eapply wp_get_ints; [done|].
  apply wp_bind, wp_new_fresh. intros h1 Hnew Hlen Hk1.
  apply wp_bind. eapply wp_append_at.
  { apply Hk1; [done|apply not_elem_of_nil]. }
  intros h2 Hout2 Hw. apply wp_ret.
  assert (out ≠ length hc) as Hne.
  { apply lookup_lt_Some in Hout. lia. }
  eapply (IH F2' h2 _ (F1 ++ [lits])); [| exact Hout2 | | | exact Hfresh |].
  - eapply (is_clauses_written h1 h2 out (Refs copies)); [|exact Hw| |done].
    + by eapply is_clauses_kept.
    + apply Hk1; [done|apply not_elem_of_nil].
  - apply is_clauses_snoc.
    + eapply (is_clauses_written h1 h2 out (Refs copies)); [|exact Hw| |done].
      * by eapply is_clauses_kept.
      * apply Hk1; [done|apply not_elem_of_nil].
    + destruct Hw as [_ Hw]. by rewrite Hw.
  - eapply kept_written_fresh; [|done|done]. by eapply kept_trans.
  - intros h' copies' Hout' Hcl Hk'. eapply HQ; [done| |done].
    by rewrite <- app_assoc in Hcl.
Qed.

Lemma wp_copy_clauses h clauses F (Q : loc → store → Prop) :
  is_formula h clauses F →
  (∀ out h', is_formula h' out F → kept [] h h' → (length h ≤ out)%nat →
             Q out h') →
  wp (copy_clauses clauses) Q h.
Proof.
  intros (cs & Hl & Hcs) HQ. unfold copy_clauses.
  apply wp_bind. eapply wp_get_refs; [done|].
  apply wp_bind, wp_new_fresh. intros h1 Hnew Hlen Hk1.
  apply wp_bind.
  eapply (wp_copy_loop h (length h) _ cs F h1 [] []);
    [by eapply is_clauses_kept|done|constructor|done|done|].
  intros h' copies' Hout Hcl Hk'. apply wp_ret. apply HQ; [|done..].
  by exists copies'.
Qed.

Lemma lookup_kept ws (h h' : store) l o :
  kept ws h h' → l ∉ ws → h !! l = Some o → h' !! l = Some o.
Proof. intros Hk Hl Ho. by apply Hk. Qed.

Lemma lookup_written l0 (h h' : store) l o :
  written l0 h h' → l ≠ l0 → h !! l = Some o → h' !! l = Some o.
Proof. intros [_ Hw] Hne Ho. by rewrite Hw. Qed.

Lemma is_clauses_kept_ws ws h h' cs F :
  is_clauses h cs F → kept ws h h' →
  Forall (λ w, ∀ c, h !! w ≠ Some (Ints c)) ws →
  is_clauses h' cs F.
Proof.
  intros Hcs Hk Hws. eapply Forall2_impl; [exact Hcs|].
  intros c lits Hc. apply Hk; [done|]. intros Hin.
  rewrite Forall_forall in Hws. by apply (Hws _ Hin lits).
Qed.

Lemma not_ints_1 (h : store) w o :
  h !! w = Some o → (∀ c, o ≠ Ints c) →
  Forall (λ w, ∀ c, h !! w ≠ Some (Ints c)) [w].
Proof.
  intros Hw Ho. apply Forall_singleton. intros c. rewrite Hw.
  intros [= ->]. by apply (Ho c).
Qed.

Lemma not_ints_2 (h : store) w1 w2 o1 o2 :
  h !! w1 = Some o1 → h !! w2 = Some o2 →
  (∀ c, o1 ≠ Ints c) → (∀ c, o2 ≠ Ints c) →
  Forall (λ w, ∀ c, h !! w ≠ Some (Ints c)) [w1; w2].
Proof.
  intros Hw1 Hw2 Ho1 Ho2. apply Forall_cons. split.
  - intros c. rewrite Hw1. intros [= ->]. by apply (Ho1 c).
  - by eapply not_ints_1.
Qed.

Lemma kept_nil_length (h h' : store) :
  kept [] h h' → (length h ≤ length h')%nat.
Proof.
  intros Hk. destruct (decide (length h = 0)%nat) as [Hz|Hne]; [lia|].
  destruct (lookup_lt_is_Some_2 h (pred (length h)) ltac:(lia)) as [o Ho].
  pose proof (Hk _ _ Ho (not_elem_of_nil _)) as Ho'.
  apply lookup_lt_Some in Ho'. lia.
Qed.

Lemma kept_compose ws1 ws2 h0 h1 h2 :
  kept ws1 h0 h1 → kept ws2 h1 h2 →
  (∀ l, l ∈ ws2 → l ∈ ws1 ∨ (length h0 ≤ l)%nat) →
  kept ws1 h0 h2.
Proof.
  intros H1 H2 Hws l o Hl Hw. apply H2; [by apply H1|].
  intros Hin. destruct (Hws _ Hin) as [?|Hge]; [done|].
  apply lookup_lt_Some in Hl. lia.
Qed.

Lemma kept_of_written ws l h h' : written l h h' → l ∈ ws → kept ws h h'.
Proof. intros Hw Hl. eapply kept_written_ws; [apply kept_refl|done..]. Qed.

Lemma kept_step_new ws h0 h h' : kept ws h0 h → kept [] h h' → kept ws h0 h'.
Proof.
  intros H1 H2. eapply kept_trans; [exact H1|].
  eapply kept_weaken; [|exact H2]. by intros l ?%elem_of_nil.
Qed.

End store_logic.

(** Facts [l < length h] for the locations known to hold an object. *)
Ltac note_bounds :=
  repeat match goal with
  | H : ?h !! ?l = Some _ |- _ =>
      lazymatch goal with
      | _ : (l < length h)%nat |- _ => fail
      | _ => pose proof (lookup_lt_Some _ _ _ H)
      end
  | H : written _ ?h ?h' |- _ =>
      lazymatch goal with
      | _ : length h' = length h |- _ => fail
      | _ => pose proof (proj1 H)
      end
  end.

Ltac loc_neq := first [ congruence | note_bounds; lia ].

(** The side condition of [kept_compose]: each written location is in
    the allowed set or was allocated after the starting store. *)
Ltac fresh_or_allowed :=
  let l := fresh "l" in
  let Hl := fresh "Hl" in
  intros l Hl;
  repeat (apply elem_of_cons in Hl as [->|Hl]);
  [ first [ left; solve [repeat ((by left) || right)]
          | right; note_bounds; lia ] ..
  | by apply elem_of_nil in Hl ].

Ltac not_written :=
  rewrite ?not_elem_of_cons; split_and?;
  first [ apply not_elem_of_nil | loc_neq ].

(** A lookup in a later store, from the facts about the earlier ones. *)
Ltac find_obj :=
  lazymatch goal with
  | |- ?h' !! ?l = Some ?o =>
      first
        [ eassumption
        | match goal with
          | Hk : kept ?ws ?h h' |- _ =>
              apply (lookup_kept ws h h' l o Hk); [not_written|find_obj]
          | Hw : written ?l0 ?h h' |- _ =>
              apply (lookup_written l0 h h' l o Hw); [loc_neq|find_obj]
          end ]
  end.

Section store_dp.
Import Store.
Variable union_iter : clause → clause → list Z.

(** The first loop of [_eliminate] appends to [pos], [neg] and [rest]
    only. *)
Lemma wp_split_loop var pos neg rest (Q : option () → store → Prop) cs :
  ∀ Fd hc P N R Fp Fn Fr,
    is_clauses hc cs Fd →
    hc !! pos = Some (Refs P) → hc !! neg = Some (Refs N) →
    hc !! rest = Some (Refs R) →
    pos ≠ neg → pos ≠ rest → neg ≠ rest →
    is_clauses hc P Fp → is_clauses hc N Fn → is_clauses hc R Fr →
    (∀ h' P' N' R',
       kept [pos; neg; rest] hc h' →
       h' !! pos = Some (Refs P') → h' !! neg = Some (Refs N') →
       h' !! rest = Some (Refs R') →
       is_clauses h' P' (foldl (DP.split_step var) (Fp, Fn, Fr) Fd).1.1 →
       is_clauses h' N' (foldl (DP.split_step var) (Fp, Fn, Fr) Fd).1.2 →
       is_clauses h' R' (foldl (DP.split_step var) (Fp, Fn, Fr) Fd).2 →
       Q None h') →
    wp (for_ cs (λ c,
          lits ← get_ints c;
          (if decide (var ∈ lits) then append pos c
           else if decide (- var ∈ lits) then append neg c
           else append rest c);;
          mret None)) Q hc.
Proof.
  induction cs as [|c cs IH];
    intros Fd hc P N R Fp Fn Fr Hcs Hpos Hneg Hrest Hpn Hpr Hnr HP HN HR HQ.
  { apply Forall2_nil_inv_l in Hcs as ->. apply wp_ret.
    eapply HQ; eauto using kept_refl. }
  apply Forall2_cons_inv_l in Hcs as (lits & Fd' & Hc & Hcs & ->).
  cbn [for_]. cbn [foldl] in HQ.
  apply wp_bind, wp_bind. eapply wp_get_ints; [done|].
  apply wp_bind.
  assert (∀ l h2 rs, hc !! l = Some (Refs rs) → written l hc h2 →
            ∀ cs' F', is_clauses hc cs' F' → is_clauses h2 cs' F') as Hstable.
  { intros l h2 rs Hl Hw cs' F' H'.
    by eapply (is_clauses_written hc h2 l (Refs rs)). }
  destruct (decide (var ∈ lits)) as [Hv|Hv];
    [|destruct (decide (- var ∈ lits)) as [Hn|Hn]].
  - assert (DP.split_step var (Fp, Fn, Fr) lits = (Fp ++ [lits], Fn, Fr)) as Hs.
    { unfold DP.split_step. by rewrite decide_True. }
    rewrite Hs in HQ.
    eapply wp_append_at; [done|]. intros h2 Hpos2 Hw. apply wp_ret.
    eapply (IH Fd' h2 (P ++ [c]) N R (Fp ++ [lits]) Fn Fr);
      try done; try find_obj; eauto.
    + apply is_clauses_snoc; [eauto|find_obj].
    + intros h' P' N' R' Hk. apply HQ.
      eapply kept_trans; [|exact Hk].
      intros l o Hl Hws. eapply lookup_written; [done| |done].
      intros ->. apply Hws. left.
  - assert (DP.split_step var (Fp, Fn, Fr) lits = (Fp, Fn ++ [lits], Fr)) as Hs.
    { unfold DP.split_step. rewrite decide_False by done.
      by rewrite decide_True. }
    rewrite Hs in HQ.
    eapply wp_append_at; [done|]. intros h2 Hneg2 Hw. apply wp_ret.
    eapply (IH Fd' h2 P (N ++ [c]) R Fp (Fn ++ [lits]) Fr);
      try done; try find_obj; eauto.
    + apply is_clauses_snoc; [eauto|find_obj].
    + intros h' P' N' R' Hk. apply HQ.
      eapply kept_trans; [|exact Hk].
      intros l o Hl Hws. eapply lookup_written; [done| |done].
      intros ->. apply Hws. right. left.
  - assert (DP.split_step var (Fp, Fn, Fr) lits = (Fp, Fn, Fr ++ [lits])) as Hs.
    { unfold DP.split_step. by rewrite !decide_False. }
    rewrite Hs in HQ.
    eapply wp_append_at; [done|]. intros h2 Hrest2 Hw. apply wp_ret.
    eapply (IH Fd' h2 P N (R ++ [c]) Fp Fn (Fr ++ [lits]));
      try done; try find_obj; eauto.
    + apply is_clauses_snoc; [eauto|find_obj].
    + intros h' P' N' R' Hk. apply HQ.
      eapply kept_trans; [|exact Hk].
      intros l o Hl Hws. eapply lookup_written; [done| |done].
      intros ->. apply Hws. right. right. left.
Qed.

(** The loop [for c2 in neg]: it allocates resolvents, appends to
    [new_clauses] and counts. *)
Lemma wp_inner_loop var st new_clauses c1 l1 ve
    (Q : option () → store → Prop) ns :
  ∀ Fn hc new_refs acc k,
    is_clauses hc ns Fn → hc !! c1 = Some (Ints l1) →
    hc !! new_clauses = Some (Refs new_refs) → is_clauses hc new_refs acc →
    hc !! st = Some (DPCounters (DP.Stats ve k)) →
    (∀ h' r,
       kept [new_clauses; st] hc h' →
       match DP.resolve_inner union_iter var l1 Fn acc k with
       | (Some acc', k') =>
           r = None
           ∧ ∃ refs', h' !! new_clauses = Some (Refs refs')
                      ∧ is_clauses h' refs' acc'
                      ∧ h' !! st = Some (DPCounters (DP.Stats ve k'))
       | (None, k') =>
           r = Some () ∧ h' !! st = Some (DPCounters (DP.Stats ve k'))
       end →
       Q r h') →
    wp (for_ ns (λ c2,
          l1 ← get_ints c1;
          l2 ← get_ints c2;
          let lits := filter (λ l, l ∉ ({[ var; - var ]} : gset Z))
                             (union_iter l1 l2) in
          resolvent ← new (Ints lits);
          match lits with
          | [] => mret (Some ())
          | _ =>
              append new_clauses resolvent;;
              bump_dp st
                (λ st, DP.Stats (DP.vars_eliminated st) (S (DP.resolvents st)));;
              mret None
          end)) Q hc.
Proof.
  induction ns as [|c2 ns IH]; intros Fn hc new_refs acc k Hns Hc1 Hnew Hacc Hst HQ.
  { apply Forall2_nil_inv_l in Hns as ->. apply wp_ret.
    apply HQ; [apply kept_refl|]. cbn. eauto. }
  apply Forall2_cons_inv_l in Hns as (l2 & Fn' & Hc2 & Hns & ->).
  cbn [for_ DP.resolve_inner] in *. apply wp_bind, wp_bind.
  eapply wp_get_ints; [done|]. apply wp_bind.
  eapply wp_get_ints; [done|]. cbn zeta.
  fold (DP.resolvent union_iter var l1 l2).
  apply wp_bind, wp_new_fresh. intros h1 Hres Hlen Hk1.
  destruct (DP.resolvent union_iter var l1 l2) as [|x lits] eqn:Hlits.
  { apply wp_ret, wp_ret. apply HQ; [|split; [done|find_obj]].
    eapply kept_step_new; [apply kept_refl|done]. }
  apply wp_bind. eapply wp_append_at; [find_obj|]. intros h2 Hnew2 Hw2.
  apply wp_bind. eapply wp_bump_dp_at; [find_obj|]. intros h3 Hst3 Hw3.
  cbn [DP.vars_eliminated DP.resolvents] in Hst3.
  apply wp_ret.
  eapply (IH Fn' h3 (new_refs ++ [length hc]) (acc ++ [x :: lits]) (S k));
    try find_obj.
  - eapply (is_clauses_written h2 h3 st); [|done|find_obj|done].
    eapply (is_clauses_written h1 h2 new_clauses); [|done|find_obj|done].
    by eapply is_clauses_kept.
  - eapply (is_clauses_written h2 h3 st); [|done|find_obj|done].
    eapply (is_clauses_written h1 h2 new_clauses); [|done|find_obj|done].
    apply is_clauses_snoc; [by eapply is_clauses_kept|done].
  - intros h' r Hk. apply HQ.
    eapply kept_trans; [|exact Hk].
    eapply kept_written_ws; [|exact Hw3|set_solver].
    eapply kept_written_ws; [|exact Hw2|set_solver].
    eapply kept_step_new; [apply kept_refl|done].
Qed.

(** The loop [for c1 in pos]. *)
Lemma wp_outer_loop var st new_clauses neg N Fn ve
    (Q : option () → store → Prop) ps :
  ∀ Fp hc new_refs acc k,
    is_clauses hc ps Fp →
    hc !! neg = Some (Refs N) → is_clauses hc N Fn → neg ≠ new_clauses →
    hc !! new_clauses = Some (Refs new_refs) → is_clauses hc new_refs acc →
    hc !! st = Some (DPCounters (DP.Stats ve k)) →
    (∀ h' r,
       kept [new_clauses; st] hc h' →
       match DP.resolve_outer union_iter var Fp Fn acc k with
       | (Some acc', k') =>
           r = None
           ∧ ∃ refs', h' !! new_clauses = Some (Refs refs')
                      ∧ is_clauses h' refs' acc'
                      ∧ h' !! st = Some (DPCounters (DP.Stats ve k'))
       | (None, k') =>
           r = Some () ∧ h' !! st = Some (DPCounters (DP.Stats ve k'))
       end →
       Q r h') →
    wp (for_ ps (λ c1,
          ns ← get_refs neg;
          for_ ns (λ c2,
            l1 ← get_ints c1;
            l2 ← get_ints c2;
            let lits := filter (λ l, l ∉ ({[ var; - var ]} : gset Z))
                               (union_iter l1 l2) in
            resolvent ← new (Ints lits);
            match lits with
            | [] => mret (Some ())
            | _ =>
                append new_clauses resolvent;;
                bump_dp st
                  (λ st, DP.Stats (DP.vars_eliminated st) (S (DP.resolvents st)));;
                mret None
            end))) Q hc.
Proof.
  induction ps as [|c1 ps IH];
    intros Fp hc new_refs acc k Hps Hneg HN Hnn Hnew Hacc Hst HQ.
  { apply Forall2_nil_inv_l in Hps as ->. apply wp_ret.
    apply HQ; [apply kept_refl|]. cbn. eauto. }
  apply Forall2_cons_inv_l in Hps as (l1 & Fp' & Hc1 & Hps & ->).
  cbn [for_ DP.resolve_outer] in *. apply wp_bind, wp_bind.
  eapply wp_get_refs; [done|].
  eapply (wp_inner_loop var st new_clauses c1 l1 ve _ N Fn hc new_refs acc k);
    try done.
  intros h1 r Hk1 Hinner.
  assert (Forall (λ w, ∀ c, hc !! w ≠ Some (Ints c)) [new_clauses; st]) as Hws.
  { by eapply not_ints_2. }
  destruct (DP.resolve_inner union_iter var l1 Fn acc k) as [[acc'|] k'].
  - destruct Hinner as (-> & refs' & Hnew1 & Hacc1 & Hst1).
    eapply (IH Fp' h1 refs' acc' k'); try done.
    + by eapply is_clauses_kept_ws.
    + apply Hk1; [done|]. rewrite !not_elem_of_cons.
      split_and!; [done|congruence|apply not_elem_of_nil].
    + by eapply is_clauses_kept_ws.
    + intros h' r Hk'. apply HQ. by eapply kept_trans.
  - destruct Hinner as [-> Hst1]. apply wp_ret. by apply HQ.
Qed.

(** [_eliminate] computes what the embedding over values computes,
    leaving every object it was given, but the counters, as it was. *)
Lemma wp_eliminate self var F st0 (Q : option loc * StoreDP.solver → store → Prop) h :
  is_formula h (StoreDP._clauses self) F →
  h !! StoreDP._stats self = Some (DPCounters st0) →
  (∀ h' r self',
     kept [StoreDP._stats self] h h' →
     StoreDP._stats self' = StoreDP._stats self →
     h' !! StoreDP._stats self
       = Some (DPCounters (DP._stats (DP._eliminate union_iter var (DP.Solver F st0)).2)) →
     is_formula h' (StoreDP._clauses self')
       (DP._clauses (DP._eliminate union_iter var (DP.Solver F st0)).2) →
     (r = None ↔ (DP._eliminate union_iter var (DP.Solver F st0)).1 = None) →
     Q (r, self') h') →
  wp (StoreDP._eliminate union_iter self var) Q h.
Proof.
  intros (cs & Hcl & Hcs) Hst HQ. destruct st0 as [ve k0].
  unfold StoreDP._eliminate, DP._eliminate, DP.split in *.
  cbn [DP._clauses DP._stats DP.resolvents DP.vars_eliminated] in *.
  apply wp_bind, wp_new_fresh. intros h1 Hpos Hlen1 Hk1.
  apply wp_bind, wp_new_fresh. intros h2 Hneg Hlen2 Hk2.
  apply wp_bind, wp_new_fresh. intros h3 Hrest Hlen3 Hk3.
  apply wp_bind. eapply wp_get_refs; [find_obj|].
  assert (kept [] h h3) as Hk03 by eauto using kept_trans.
  apply wp_bind.
  eapply (wp_split_loop var (length h) (length h1) (length h2) _ cs F h3
            [] [] [] [] [] []); try find_obj; try lia; try constructor.
  { by eapply is_clauses_kept. }
  intros h4 P N R Hk4 Hpos4 Hneg4 Hrest4 HP HN HR.
  destruct (foldl (DP.split_step var) ([], [], []) F) as [[Fp Fn] Fr].
  cbn [fst snd] in HP, HN, HR.
  apply wp_bind, wp_new_fresh. intros h5 Hnew Hlen5 Hk5.
  apply wp_bind. eapply wp_get_refs; [find_obj|].
  assert (kept [StoreDP._stats self] h h5) as Hk05.
  { eapply kept_compose; [|exact Hk5|fresh_or_allowed].
    eapply kept_compose; [|exact Hk4|fresh_or_allowed].
    eapply kept_weaken; [|exact Hk03]. by intros l ?%elem_of_nil. }
  clear Hk03. apply wp_bind.
  eapply (wp_outer_loop var (StoreDP._stats self) (length h4) (length h1) N Fn ve
            _ P Fp h5 [] [] k0); try find_obj; try loc_neq; try constructor.
  { by eapply is_clauses_kept. }
  { by eapply is_clauses_kept. }
  intros h6 r Hk6 Houter.
  assert (kept [StoreDP._stats self] h h6) as Hk06.
  { eapply kept_compose; [exact Hk05|exact Hk6|fresh_or_allowed]. }
  assert (is_clauses h6 cs F) as Hcs6.
  { eapply is_clauses_kept_ws; [exact Hcs|exact Hk06|].
    by eapply not_ints_1. }
  destruct (DP.resolve_outer union_iter var Fp Fn [] k0) as [[acc|] k'].
  - destruct Houter as (-> & refs & Hnew6 & Hacc & Hst6).
    apply wp_bind. eapply wp_get_refs; [find_obj|].
    apply wp_bind. eapply wp_get_refs; [find_obj|].
    apply wp_bind, wp_new_fresh. intros h7 Hout Hlen7 Hk7.
    apply wp_bind. eapply wp_bump_dp_at; [find_obj|]. intros h8 Hst8 Hw8.
    apply wp_ret.
    cbn [fst snd DP._clauses DP._stats DP.vars_eliminated DP.resolvents] in *.
    apply HQ; try done.
    + eapply kept_written_ws; [|exact Hw8|left].
      by eapply kept_step_new.
    + cbn [StoreDP._clauses]. exists (R ++ refs). split; [find_obj|].
      eapply (is_clauses_written h7 h8 (StoreDP._stats self)
                (DPCounters (DP.Stats ve k'))); [|exact Hw8|find_obj|done].
      eapply is_clauses_kept; [|exact Hk7].
      apply Forall2_app; [|done].
      eapply is_clauses_kept_ws; [|exact Hk6|].
      * by eapply is_clauses_kept.
      * eapply (not_ints_2 h5 _ _ (Refs []) (DPCounters (DP.Stats ve k0)));
          [find_obj|find_obj|done|done].
  - destruct Houter as [-> Hst6]. apply wp_ret.
    cbn [fst snd DP._clauses DP._stats] in *. apply HQ; try done.
    exists cs. split; [find_obj|done].
Qed.

Lemma wp_dp_solve_loop fuel :
  ∀ self F st0 (Q : option bool * StoreDP.solver → store → Prop) h,
    is_formula h (StoreDP._clauses self) F →
    h !! StoreDP._stats self = Some (DPCounters st0) →
    (∀ h' self',
       kept [StoreDP._stats self] h h' →
       h' !! StoreDP._stats self
         = Some (DPCounters
                   (DP._stats (DP.solve_loop union_iter fuel (DP.Solver F st0)).2)) →
       Q ((DP.solve_loop union_iter fuel (DP.Solver F st0)).1, self') h') →
    wp (StoreDP.solve_loop union_iter fuel self) Q h.
Proof.
  induction fuel as [|fuel IH]; intros self F st0 Q h Hf Hst HQ.
  { apply wp_ret. apply HQ; [apply kept_refl|done]. }
  cbn [StoreDP.solve_loop DP.solve_loop DP._clauses] in *.
  apply wp_bind. eapply wp_read_formula; [done|].
  destruct (decide (F = [])) as [HF|HF].
  { apply wp_ret. apply HQ; [apply kept_refl|done]. }
  destruct (existsb _ F).
  { apply wp_ret. apply HQ; [apply kept_refl|done]. }
  destruct (DP._choose_var F) as [v|].
  2:{ apply wp_ret. apply HQ; [apply kept_refl|done]. }
  apply wp_bind. eapply wp_eliminate; [done..|].
  intros h1 r self1 Hk1 Hself Hst1 Hf1 Hr.
  destruct (DP._eliminate union_iter v (DP.Solver F st0)) as [[F1|] [F1' st1]].
  - destruct r as [out|]; [|by destruct Hr as [Hr _]; specialize (Hr eq_refl)].
    cbn [fst snd DP._clauses DP._stats] in *.
    eapply (IH self1 F1' st1); [done|by rewrite Hself|].
    intros h2 self2 Hk2 Hst2. rewrite Hself in Hk2, Hst2. apply HQ; [|done].
    by eapply kept_trans.
  - destruct r as [out|]; [by destruct Hr as [_ Hr]; specialize (Hr eq_refl)|].
    cbn [fst snd DP._clauses DP._stats] in *.
    apply wp_ret. by apply HQ.
Qed.

(** [DPSolver(clauses).solve()] over the store returns the verdict of
    the embedding over values and changes no object of the caller. *)
Lemma dp_run_refines fuel clauses F h :
  is_formula h clauses F →
  ∃ self' h',
    StoreDP.run union_iter fuel clauses h
    = Some ((DP.solve union_iter fuel F, self'), h')
    ∧ kept [] h h'.
Proof.
  intros Hf.
  assert (wp (StoreDP.run union_iter fuel clauses)
            (λ r h', r.1 = DP.solve union_iter fuel F ∧ kept [] h h') h) as Hwp.
  { unfold StoreDP.run, StoreDP.__init__.
    apply wp_bind, wp_bind. eapply wp_copy_clauses; [done|].
    intros out h1 Hout Hk1 Hfresh.
    apply wp_bind, wp_new_fresh. intros h2 Hst Hlen2 Hk2. apply wp_ret.
    eapply (wp_dp_solve_loop fuel _ F (DP.Stats 0 0)).
    - cbn [StoreDP._clauses]. destruct Hout as (cs & Hl & Hcs).
      exists cs. split; [find_obj|by eapply is_clauses_kept].
    - done.
    - cbn [StoreDP._stats]. intros h3 self3 Hk3 _. split.
      + cbn [fst]. unfold DP.solve, DP.__init__. by rewrite list_fmap_id.
      + eapply kept_compose; [|exact Hk3|].
        * by eapply kept_trans.
        * intros l ->%list_elem_of_singleton. right.
          by apply kept_nil_length. }
  destruct Hwp as ([v self'] & h' & Hrun & Hv & Hk). cbn in Hv. subst v.
  by exists self', h'.
Qed.

End store_dp.

Section store_dpll.
Import Store.

(** The loop of [_simplify] appends to [new_formula] only. *)
Lemma wp_simplify_loop lit nf (Q : option () → store → Prop) cs :
  ∀ Fd hc refs acc,
    is_clauses hc cs Fd →
    hc !! nf = Some (Refs refs) → is_clauses hc refs acc →
    (∀ h' r,
       kept [nf] hc h' →
       match DPLL.simplify_loop lit Fd acc with
       | Some F' =>
           r = None
           ∧ ∃ refs', h' !! nf = Some (Refs refs') ∧ is_clauses h' refs' F'
       | None => r = Some ()
       end →
       Q r h') →
    wp (for_ cs (λ c,
          lits ← get_ints c;
          if decide (lit ∈ lits) then mret None
          else if decide (- lit ∈ lits) then
            let kept := filter (λ x, x ≠ - lit) lits in
            reduced ← new (Ints kept);
            match kept with
            | [] => mret (Some ())
            | _ => append nf reduced;; mret None
            end
          else
            copy ← new (Ints lits);
            append nf copy;; mret None)) Q hc.
Proof.
  induction cs as [|c cs IH]; intros Fd hc refs acc Hcs Hnf Hacc HQ.
  { apply Forall2_nil_inv_l in Hcs as ->. apply wp_ret.
    apply HQ; [apply kept_refl|]. cbn. eauto. }
  apply Forall2_cons_inv_l in Hcs as (lits & Fd' & Hc & Hcs & ->).
  cbn [for_ DPLL.simplify_loop] in *. apply wp_bind, wp_bind.
  eapply wp_get_ints; [done|].
  destruct (decide (lit ∈ lits)) as [Hl|Hl].
  { apply wp_ret. by eapply IH. }
  destruct (decide (- lit ∈ lits)) as [Hn|Hn].
  - cbn zeta. apply wp_bind, wp_new_fresh. intros h1 Hred Hlen1 Hk1.
    destruct (filter (λ x, x ≠ - lit) lits) as [|x kept'] eqn:Hfilter.
    { apply wp_ret, wp_ret. apply HQ; [|done].
      eapply kept_step_new; [apply kept_refl|done]. }
    apply wp_bind. eapply wp_append_at; [find_obj|]. intros h2 Hnf2 Hw2.
    apply wp_ret.
    eapply (IH Fd' h2 (refs ++ [length hc]) (acc ++ [x :: kept'])); try find_obj.
    + eapply (is_clauses_written h1 h2 nf); [|done|find_obj|done].
      by eapply is_clauses_kept.
    + eapply (is_clauses_written h1 h2 nf); [|done|find_obj|done].
      apply is_clauses_snoc; [by eapply is_clauses_kept|done].
    + intros h' r Hk. apply HQ. eapply kept_trans; [|exact Hk].
      eapply kept_written_ws; [|exact Hw2|left].
      eapply kept_step_new; [apply kept_refl|done].
  - apply wp_bind, wp_new_fresh. intros h1 Hcopy Hlen1 Hk1.
    apply wp_bind. eapply wp_append_at; [find_obj|]. intros h2 Hnf2 Hw2.
    apply wp_ret.
    eapply (IH Fd' h2 (refs ++ [length hc]) (acc ++ [lits])); try find_obj.
    + eapply (is_clauses_written h1 h2 nf); [|done|find_obj|done].
      by eapply is_clauses_kept.
    + eapply (is_clauses_written h1 h2 nf); [|done|find_obj|done].
      apply is_clauses_snoc; [by eapply is_clauses_kept|done].
    + intros h' r Hk. apply HQ. eapply kept_trans; [|exact Hk].
      eapply kept_written_ws; [|exact Hw2|left].
      eapply kept_step_new; [apply kept_refl|done].
Qed.

(** [_simplify] builds its result from new objects and changes none of
    those it was given. *)
Lemma wp_simplify clauses lit F (Q : option loc → store → Prop) h :
  is_formula h clauses F →
  (∀ h' r,
     kept [] h h' →
     match DPLL._simplify F lit with
     | Some F' => ∃ out, r = Some out ∧ is_formula h' out F'
     | None => r = None
     end →
     Q r h') →
  wp (StoreDPLL._simplify clauses lit) Q h.
Proof.
  intros (cs & Hcl & Hcs) HQ. unfold StoreDPLL._simplify, DPLL._simplify in *.
  apply wp_bind, wp_new_fresh. intros h1 Hnf Hlen1 Hk1.
  apply wp_bind. eapply wp_get_refs; [find_obj|].
  apply wp_bind.
  eapply (wp_simplify_loop lit (length h) _ cs F h1 [] []);
    [by eapply is_clauses_kept|done|constructor|].
  intros h2 r Hk2 Hloop. apply wp_ret.
  assert (kept [] h h2) as Hk02.
  { eapply kept_compose; [exact Hk1|exact Hk2|fresh_or_allowed]. }
  apply HQ; [done|].
  destruct (DPLL.simplify_loop lit F []) as [F'|].
  - destruct Hloop as (-> & refs' & Hnf2 & Hcl2). exists (length h).
    split; [done|]. by exists refs'.
  - by subst r.
Qed.

(** The comprehension [[c for c in clauses if pure not in c]] appends
    to the new list only. *)
Lemma wp_filter_loop (p : Z) out (Q : option () → store → Prop) cs :
  ∀ Fd hc refs acc,
    is_clauses hc cs Fd →
    hc !! out = Some (Refs refs) → is_clauses hc refs acc →
    (∀ h' refs',
       kept [out] hc h' →
       h' !! out = Some (Refs refs') →
       is_clauses h' refs' (acc ++ filter (λ c, p ∉ c) Fd) →
       Q None h') →
    wp (for_ cs (λ c,
          lits ← get_ints c;
          (if decide (p ∉ lits) then append out c else mret ());;
          mret None)) Q hc.
Proof.
  induction cs as [|c cs IH]; intros Fd hc refs acc Hcs Hout Hacc HQ.
  { apply Forall2_nil_inv_l in Hcs as ->. apply wp_ret.
    eapply HQ; [apply kept_refl|done|]. by rewrite app_nil_r. }
  apply Forall2_cons_inv_l in Hcs as (lits & Fd' & Hc & Hcs & ->).
  cbn [for_]. apply wp_bind, wp_bind. eapply wp_get_ints; [done|].
  rewrite filter_cons in HQ. apply wp_bind.
  destruct (decide (p ∉ lits)) as [Hp|Hp].
  - eapply wp_append_at; [done|]. intros h1 Hout1 Hw1. apply wp_ret.
    eapply (IH Fd' h1 (refs ++ [c]) (acc ++ [lits])); try find_obj.
    + by eapply (is_clauses_written hc h1 out).
    + apply is_clauses_snoc; [by eapply (is_clauses_written hc h1 out)|].
      find_obj.
    + intros h' refs' Hk Hout' Hcl. eapply HQ; [|done|].
      * eapply kept_trans; [|exact Hk]. by eapply kept_of_written; [|left].
      * by rewrite <- app_assoc in Hcl.
  - apply wp_ret, wp_ret. by eapply IH.
Qed.

Lemma scalars_1 (h : store) w o :
  h !! w = Some o → scalar o → scalars h [w].
Proof. intros. repeat constructor; eauto. Qed.

Lemma scalars_2 (h : store) w1 w2 o1 o2 :
  h !! w1 = Some o1 → h !! w2 = Some o2 → scalar o1 → scalar o2 →
  scalars h [w1; w2].
Proof. intros. repeat constructor; eauto. Qed.

Lemma is_formula_kept_ws ws h h' l F :
  is_formula h l F → kept ws h h' → scalars h ws → is_formula h' l F.
Proof.
  intros (cs & Hl & Hcs) Hk Hws. unfold scalars in Hws.
  rewrite Forall_forall in Hws. exists cs. split.
  - apply Hk; [done|]. intros Hin.
    destruct (Hws _ Hin) as (o & Ho & Hs). rewrite Hl in Ho.
    by injection Ho as <-.
  - eapply Forall2_impl; [exact Hcs|]. intros c lits Hc.
    apply Hk; [done|]. intros Hin.
    destruct (Hws _ Hin) as (o & Ho & Hs). rewrite Hc in Ho.
    by injection Ho as <-.
Qed.

Lemma is_formula_kept h h' l F :
  is_formula h l F → kept [] h h' → is_formula h' l F.
Proof. intros Hf Hk. eapply is_formula_kept_ws; [done..|constructor]. Qed.

Lemma is_formula_written h h' w o l F :
  is_formula h l F → written w h h' → h !! w = Some o → scalar o →
  is_formula h' l F.
Proof.
  intros Hf Hw Ho Hs. eapply (is_formula_kept_ws [w]); [done| |].
  - by eapply kept_of_written; [|left].
  - by eapply scalars_1.
Qed.

Lemma wp_unit_loop self model fuel :
  ∀ clauses F m st (Q : DPLL.outcome (option loc) → store → Prop) h,
    is_formula h clauses F →
    h !! model = Some (Dict m) →
    h !! StoreDPLL._stats self = Some (DPLLCounters st) →
    (∀ h' r,
       kept [model; StoreDPLL._stats self] h h' →
       propagated h' model (StoreDPLL._stats self) r (DPLL.unit_loop fuel F m st) →
       Q r h') →
    wp (StoreDPLL.unit_loop fuel self clauses model) Q h.
Proof.
  induction fuel as [|fuel IH]; intros clauses F m st Q h Hf Hm Hst HQ.
  { apply wp_ret. apply HQ; [apply kept_refl|done]. }
  cbn [StoreDPLL.unit_loop DPLL.unit_loop] in *.
  apply wp_bind. eapply wp_read_formula; [done|].
  destruct (DPLL._find_unit F) as [u|].
  2:{ apply wp_ret. apply HQ; [apply kept_refl|].
      split_and!; [done..|]. by exists clauses. }
  apply wp_bind. eapply wp_bump_dpll_at; [done|]. intros h1 Hst1 Hw1.
  apply wp_bind. eapply wp_setitem_at; [find_obj|]. intros h2 Hm2 Hw2.
  assert (kept [model; StoreDPLL._stats self] h h2) as Hk2.
  { eapply kept_written_ws; [|exact Hw2|left].
    eapply kept_of_written; [exact Hw1|right; left]. }
  assert (is_formula h2 clauses F) as Hf2.
  { eapply is_formula_kept_ws; [done..|]. by eapply scalars_2. }
  apply wp_bind. eapply wp_simplify; [done|].
  intros h3 r Hk3 Hr.
  assert (kept [model; StoreDPLL._stats self] h h3) as Hk03.
  { eapply kept_compose; [exact Hk2|exact Hk3|fresh_or_allowed]. }
  destruct (DPLL._simplify F u) as [F'|].
  - destruct Hr as (out & -> & Hout).
    eapply (IH out F'); [done|find_obj|find_obj|].
    intros h' r Hk' Hp. apply HQ; [|done].
    by eapply kept_trans.
  - subst r. apply wp_ret. apply HQ; [done|].
    split_and!; [find_obj|find_obj|done].
Qed.

Lemma wp_pure_loop self model fuel :
  ∀ clauses F m st (Q : DPLL.outcome (option loc) → store → Prop) h,
    is_formula h clauses F →
    h !! model = Some (Dict m) →
    h !! StoreDPLL._stats self = Some (DPLLCounters st) →
    (∀ h' r,
       kept [model; StoreDPLL._stats self] h h' →
       propagated h' model (StoreDPLL._stats self) r (DPLL.pure_loop fuel F m st) →
       Q r h') →
    wp (StoreDPLL.pure_loop fuel self clauses model) Q h.
Proof.
  induction fuel as [|fuel IH]; intros clauses F m st Q h Hf Hm Hst HQ.
  { apply wp_ret. apply HQ; [apply kept_refl|done]. }
  cbn [StoreDPLL.pure_loop DPLL.pure_loop] in *.
  apply wp_bind. eapply wp_read_formula; [done|].
  destruct (DPLL._find_pure F) as [p|].
  2:{ apply wp_ret. apply HQ; [apply kept_refl|].
      split_and!; [done..|]. by exists clauses. }
  apply wp_bind. eapply wp_bump_dpll_at; [done|]. intros h1 Hst1 Hw1.
  apply wp_bind. eapply wp_setitem_at; [find_obj|]. intros h2 Hm2 Hw2.
  assert (kept [model; StoreDPLL._stats self] h h2) as Hk2.
  { eapply kept_written_ws; [|exact Hw2|left].
    eapply kept_of_written; [exact Hw1|right; left]. }
  assert (is_formula h2 clauses F) as (cs & Hcl & Hcs).
  { eapply is_formula_kept_ws; [done..|]. by eapply scalars_2. }
  apply wp_bind. eapply wp_get_refs; [done|].
  apply wp_bind, wp_new_fresh. intros h3 Hkept Hlen3 Hk3.
  apply wp_bind.
  eapply (wp_filter_loop p (length h2) _ cs F h3 [] []);
    [by eapply is_clauses_kept|done|constructor|].
  intros h4 refs' Hk4 Hout4 Hcl4. cbn [app] in Hcl4.
  assert (kept [model; StoreDPLL._stats self] h h4) as Hk04.
  { eapply kept_compose; [|exact Hk4|fresh_or_allowed].
    eapply kept_compose; [exact Hk2|exact Hk3|fresh_or_allowed]. }
  eapply (IH (length h2) (filter (λ c, p ∉ c) F)).
  - by exists refs'.
  - find_obj.
  - find_obj.
  - intros h' r Hk' Hp. apply HQ; [|done]. by eapply kept_trans.
Qed.

Lemma wp_propagate self model fuel clauses F m st
    (Q : DPLL.outcome (option loc) → store → Prop) h :
  is_formula h clauses F →
  h !! model = Some (Dict m) →
  h !! StoreDPLL._stats self = Some (DPLLCounters st) →
  (∀ h' r,
     kept [model; StoreDPLL._stats self] h h' →
     propagated h' model (StoreDPLL._stats self) r (DPLL._propagate fuel F m st) →
     Q r h') →
  wp (StoreDPLL._propagate fuel self clauses model) Q h.
Proof.
  intros Hf Hm Hst HQ. unfold StoreDPLL._propagate, DPLL._propagate in *.
  apply wp_bind. eapply wp_unit_loop; [done..|].
  intros h1 r Hk1 Hr.
  destruct (DPLL.unit_loop fuel F m st) as [[[[F1|] m1] st1]| |].
  - destruct Hr as (Hm1 & Hst1 & cl & -> & Hcl).
    eapply wp_pure_loop; [done..|].
    intros h2 r Hk2 Hr. apply HQ; [|done]. by eapply kept_trans.
  - destruct Hr as (Hm1 & Hst1 & ->). apply wp_ret. by apply HQ.
  - cbn in Hr. subst r. apply wp_ret. by apply HQ.
  - cbn in Hr. subst r. apply wp_ret. by apply HQ.
Qed.

(** The loop over the two truth values: each round works on a copy of
    the model and on a simplified copy of the clauses. *)
Lemma wp_branch self rec prec pivot clauses F model m :
  (∀ reduced F' next_model m' st (Q : DPLL.outcome (option loc) → store → Prop) h,
     is_formula h reduced F' →
     h !! next_model = Some (Dict m') →
     h !! StoreDPLL._stats self = Some (DPLLCounters st) →
     (∀ h' r,
        kept [next_model; StoreDPLL._stats self] h h' →
        solved h' (StoreDPLL._stats self) r (prec F' m' st) →
        Q r h') →
     wp (rec reduced next_model) Q h) →
  ∀ truths st (Q : DPLL.outcome (option loc) → store → Prop) h,
    is_formula h clauses F →
    h !! model = Some (Dict m) →
    h !! StoreDPLL._stats self = Some (DPLLCounters st) →
    (∀ h' r,
       kept [StoreDPLL._stats self] h h' →
       solved h' (StoreDPLL._stats self) r (DPLL.branch prec truths pivot F m st) →
       Q r h') →
    wp (StoreDPLL.branch rec truths pivot self clauses model) Q h.
Proof.
  intros Hrec. induction truths as [|truth truths IH]; intros st Q h Hf Hm Hst HQ.
  { apply wp_ret. apply HQ; [apply kept_refl|done]. }
  cbn [StoreDPLL.branch DPLL.branch] in *.
  apply wp_bind. eapply wp_get_dict; [done|].
  apply wp_bind, wp_new_fresh. intros h1 Hnext Hlen1 Hk1.
  apply wp_bind. eapply wp_setitem_at; [done|]. intros h2 Hnext2 Hw2.
  assert (kept [StoreDPLL._stats self] h h2) as Hk2.
  { eapply kept_written_fresh; [|exact Hw2|done].
    eapply kept_weaken; [|exact Hk1]. by intros l ?%elem_of_nil. }
  assert (is_formula h2 clauses F) as Hf2.
  { eapply is_formula_written; [|exact Hw2|find_obj|done].
    by eapply is_formula_kept. }
  apply wp_bind. eapply wp_simplify; [done|]. intros h3 r Hk3 Hr.
  assert (kept [StoreDPLL._stats self] h h3) as Hk03.
  { eapply kept_compose; [exact Hk2|exact Hk3|fresh_or_allowed]. }
  assert (∀ h4 st4,
    kept [StoreDPLL._stats self] h h4 →
    h4 !! StoreDPLL._stats self = Some (DPLLCounters st4) →
    h4 !! model = Some (Dict m) →
    (∀ h' r,
       kept [StoreDPLL._stats self] h h' →
       solved h' (StoreDPLL._stats self) r
         (DPLL.branch prec truths pivot F m (DPLL.incr_backtracks st4)) →
       Q r h') →
    wp (bump_dpll (StoreDPLL._stats self) DPLL.incr_backtracks
        ≫= λ _, StoreDPLL.branch rec truths pivot self clauses model) Q h4)
    as Hnext_round.
  { intros h4 st4 Hk4 Hst4 Hm4 HQ4.
    apply wp_bind. eapply wp_bump_dpll_at; [done|]. intros h5 Hst5 Hw5.
    assert (kept [StoreDPLL._stats self] h h5) as Hk5.
    { eapply kept_written_ws; [exact Hk4|exact Hw5|left]. }
    eapply IH; [|find_obj|done|].
    - eapply is_formula_kept_ws; [exact Hf|exact Hk5|].
      by eapply scalars_1.
    - intros h' r' Hk' Hs. apply HQ4; [|done].
      eapply kept_compose; [exact Hk5|exact Hk'|fresh_or_allowed]. }
  destruct (DPLL._simplify F (if truth then pivot else - pivot)) as [F'|].
  - destruct Hr as (reduced & -> & Hred).
    apply wp_bind.
    eapply (Hrec reduced F' (length h) _ st); [done|find_obj|find_obj|].
    intros h4 r Hk4 Hs.
    assert (kept [StoreDPLL._stats self] h h4) as Hk04.
    { eapply kept_compose; [exact Hk03|exact Hk4|fresh_or_allowed]. }
    destruct (prec F' (<[Z.abs pivot := truth]> m) st) as [[[res|] st']| |];
      cbn in Hs.
    + destruct Hs as (Hst4 & l & -> & Hl). apply wp_ret.
      apply HQ; [done|]. cbn. eauto.
    + destruct Hs as (Hst4 & ->).
      eapply Hnext_round; [done..| |done].
      apply Hk4; [find_obj|]. not_written.
    + subst r. apply wp_ret. by apply HQ.
    + subst r. apply wp_ret. by apply HQ.
  - subst r. eapply Hnext_round; [done|find_obj|find_obj|done].
Qed.

Lemma wp_dpll_solve_rec self fuel :
  ∀ clauses F model m st (Q : DPLL.outcome (option loc) → store → Prop) h,
    is_formula h clauses F →
    h !! model = Some (Dict m) →
    h !! StoreDPLL._stats self = Some (DPLLCounters st) →
    (∀ h' r,
       kept [model; StoreDPLL._stats self] h h' →
       solved h' (StoreDPLL._stats self) r (DPLL.solve_rec fuel F m st) →
       Q r h') →
    wp (StoreDPLL.solve_rec fuel self clauses model) Q h.
Proof.
  induction fuel as [|fuel IH]; intros clauses F model m st Q h Hf Hm Hst HQ.
  { apply wp_ret. apply HQ; [apply kept_refl|done]. }
  cbn [StoreDPLL.solve_rec DPLL.solve_rec] in *.
  apply wp_bind. eapply wp_propagate; [done..|]. intros h1 r Hk1 Hr.
  destruct (DPLL._propagate (S fuel) F m st) as [[[[F1|] m1] st1]| |];
    cbn in Hr.
  - destruct Hr as (Hm1 & Hst1 & cl & -> & Hcl).
    apply wp_bind. eapply wp_read_formula; [done|].
    destruct F1 as [|[|pivot c] F1].
    + apply wp_ret. apply HQ; [done|]. cbn. eauto.
    + apply wp_ret. by apply HQ.
    + apply wp_bind. eapply wp_bump_dpll_at; [done|]. intros h2 Hst2 Hw2.
      eapply (wp_branch self (StoreDPLL.solve_rec fuel self) (DPLL.solve_rec fuel)
                pivot cl ((pivot :: c) :: F1) model m1).
      * intros reduced F' next_model m' st' Q' h' Hf' Hm' Hst' HQ'.
        by eapply IH.
      * by eapply is_formula_written.
      * find_obj.
      * done.
      * intros h3 r Hk3 Hs. apply HQ; [|done].
        eapply kept_compose; [|exact Hk3|fresh_or_allowed].
        eapply kept_written_ws; [exact Hk1|exact Hw2|right; left].
  - destruct Hr as (Hm1 & Hst1 & ->). apply wp_ret. by apply HQ.
  - subst r. apply wp_ret. by apply HQ.
  - subst r. apply wp_ret. by apply HQ.
Qed.

(** [DPLLSolver(cnf).solve()] over the store returns what the embedding
    over values returns and changes no object of the caller. *)
Lemma dpll_run_refines fuel cnf F h :
  is_formula h cnf F →
  ∃ r h',
    StoreDPLL.run fuel cnf h = Some (r, h')
    ∧ kept [] h h'
    ∧ match DPLL.solve fuel F with
      | DPLL.Ret (Some m, _) =>
          ∃ l, r = DPLL.Ret (Some l) ∧ h' !! l = Some (Dict m)
      | DPLL.Ret (None, _) => r = DPLL.Ret None
      | DPLL.IndexError => r = DPLL.IndexError
      | DPLL.OutOfFuel => r = DPLL.OutOfFuel
      end.
Proof.
  intros Hf.
  assert (wp (StoreDPLL.run fuel cnf)
            (λ r h', kept [] h h'
                     ∧ solved h' (length h) r (DPLL.solve fuel F)) h) as Hwp.
  { unfold StoreDPLL.run, StoreDPLL.__init__, StoreDPLL.solve.
    apply wp_bind, wp_bind, wp_new_fresh. intros h1 Hst Hlen1 Hk1.
    apply wp_ret. cbn [StoreDPLL._formula].
    apply wp_bind. eapply wp_copy_clauses; [by eapply is_formula_kept|].
    intros clauses h2 Hcl Hk2 Hfresh2.
    apply wp_bind, wp_new_fresh. intros h3 Hmodel Hlen3 Hk3.
    eapply (wp_dpll_solve_rec _ fuel clauses F (length h2) ∅ (DPLL.Stats 0 0 0 0)).
    - by eapply is_formula_kept.
    - done.
    - cbn [StoreDPLL._stats]. find_obj.
    - cbn [StoreDPLL._stats]. intros h4 r Hk4 Hs. split.
      + eapply kept_compose; [|exact Hk4|].
        * eauto using kept_trans.
        * pose proof (kept_nil_length _ _ Hk1).
          pose proof (kept_nil_length _ _ Hk2).
          fresh_or_allowed.
      + unfold DPLL.solve. by rewrite list_fmap_id. }
  destruct Hwp as (r & h' & Hrun & Hk & Hs). exists r, h'.
  split_and!; [done..|].
  destruct (DPLL.solve fuel F) as [[[mres|] st']| |]; cbn in Hs;
    [by destruct Hs as [_ ?]..|done|done].
Qed.

End store_dpll.

(** ** Private copies *)

(** C9.  Let the caller's store [h] hold at [clauses] a list of the
    clauses [F].  Then [DPSolver(clauses).solve()] and
    [DPLLSolver(clauses).solve()] run to their end (they are not stuck),
    return what the embeddings over values return, and leave every
    object of [h] as it was: the caller's list still refers to the same
    clause objects and these still hold the same literals.  The same
    holds of a single call of [_simplify]. *)
Theorem engines_leave_input_unchanged (union_iter : clause → clause → list Z)
    (fuel : nat) (h : Store.store) (clauses : Store.loc) (F : formula) :
  is_formula h clauses F →
  (∃ self' h',
     StoreDP.run union_iter fuel clauses h
     = Some ((DP.solve union_iter fuel F, self'), h')
     ∧ (∀ l o, h !! l = Some o → h' !! l = Some o)
     ∧ is_formula h' clauses F)
  ∧ (∃ r h',
       StoreDPLL.run fuel clauses h = Some (r, h')
       ∧ (∀ l o, h !! l = Some o → h' !! l = Some o)
       ∧ is_formula h' clauses F
       ∧ match DPLL.solve fuel F with
         | DPLL.Ret (Some m, _) =>
             ∃ l, r = DPLL.Ret (Some l) ∧ h' !! l = Some (Store.Dict m)
         | DPLL.Ret (None, _) => r = DPLL.Ret None
         | DPLL.IndexError => r = DPLL.IndexError
         | DPLL.OutOfFuel => r = DPLL.OutOfFuel
         end)
  ∧ (∀ lit, ∃ r h',
       StoreDPLL._simplify clauses lit h = Some (r, h')
       ∧ (∀ l o, h !! l = Some o → h' !! l = Some o)).
Proof.
  intros Hf. split_and!.
  - destruct (dp_run_refines union_iter fuel clauses F h Hf)
      as (self' & h' & Hrun & Hk).
    exists self', h'. split_and!; [done| |by eapply is_formula_kept].
    intros l o Hl. apply Hk; [done|apply not_elem_of_nil].
  - destruct (dpll_run_refines fuel clauses F h Hf) as (r & h' & Hrun & Hk & Hr).
    exists r, h'. split_and!; [done| |by eapply is_formula_kept|done].
    intros l o Hl. apply Hk; [done|apply not_elem_of_nil].
  - intros lit.
    assert (wp (StoreDPLL._simplify clauses lit) (λ _ h', kept [] h h') h)
      as (r & h' & Hrun & Hk).
    { eapply wp_simplify; [done|]. by intros h' r Hk _. }
    exists r, h'. split; [done|].
    intros l o Hl. apply Hk; [done|apply not_elem_of_nil].
Qed.

Lemma engines_leave_input_unchanged_witness :
  is_formula (store_of [[1; 2]; [-1]]) 2%nat [[1; 2]; [-1]]
  ∧ ∃ self' h',
      StoreDP.run DP.canonical_union 3 2%nat (store_of [[1; 2]; [-1]])
      = Some ((DP.solve DP.canonical_union 3 [[1; 2]; [-1]], self'), h')
      ∧ (∀ l o, store_of [[1; 2]; [-1]] !! l = Some o → h' !! l = Some o).
Proof.
  assert (is_formula (store_of [[1; 2]; [-1]]) 2%nat [[1; 2]; [-1]]) as H.
  { exists [0; 1]%nat. split; [reflexivity|]. by repeat constructor. }
  split; [exact H|].
  destruct (engines_leave_input_unchanged DP.canonical_union 3 _ _ _ H)
    as ((self' & h' & Hrun & Hkept & _) & _).
  by exists self', h'.
Defined.

(** * Further properties of the engines *)

(** ** [DPSolver]: the choice of the variable *)

Lemma choose_var_None (cs : formula) :
  DP._choose_var cs = None ↔ Forall (λ c, c = []) cs.
Proof.
  induction cs as [|[|l c] cs IH]; cbn.
  - split; [constructor|done].
  - rewrite IH. split; [by constructor|]. by intros [_ ?]%Forall_cons.
  - split; [done|]. by intros [? _]%Forall_cons.
Qed.

Lemma choose_var_Some (cs : formula) :
  cs ≠ [] →
  existsb (λ c, bool_decide (length c = 0%nat)) cs = false →
  ∃ c l, c ∈ cs ∧ head c = Some l ∧ DP._choose_var cs = Some (Z.abs l).
Proof.
  intros Hne Hex. destruct cs as [|c cs]; [done|].
  cbn in Hex. apply orb_false_iff in Hex as [Hc _].
  destruct c as [|l c]; [done|].
  exists (l :: c), l. split; [left|done].
Qed.

(** X1.  [_choose_var] returns [None] exactly when every clause is
    empty; so where [solve] calls it, after the clause set was found
    non-empty and free of empty clauses, it always returns a variable,
    and the test [if v is None] of [solve] never succeeds. *)
Theorem dp_choose_var_total (cs : formula) :
  (DP._choose_var cs = None ↔ Forall (λ c, c = []) cs)
  ∧ (cs ≠ [] →
     existsb (λ c, bool_decide (length c = 0%nat)) cs = false →
     ∃ c l, c ∈ cs ∧ head c = Some l ∧ DP._choose_var cs = Some (Z.abs l)).
Proof. split; [apply choose_var_None|apply choose_var_Some]. Qed.

Lemma dp_choose_var_total_witness :
  ([[1; 2]; [-1]] ≠ ([] : formula))
  ∧ ∃ c l, c ∈ [[1; 2]; [-1]] ∧ head c = Some l
           ∧ DP._choose_var [[1; 2]; [-1]] = Some (Z.abs l).
Proof.
  split; [discriminate|].
  exact (proj2 (dp_choose_var_total [[1; 2]; [-1]]) ltac:(discriminate) eq_refl).
Defined.

(** ** [DPSolver]: elimination and satisfiability *)

Section DP_more.
Variable union_iter : clause → clause → list Z.
Hypothesis union_iter_perm :
  ∀ c1 c2, union_iter c1 c2 ≡ₚ DP.canonical_union c1 c2.

Lemma lit_true_force_any a l : lit_true (force a l) l = true.
Proof.
  unfold lit_true, force.
  destruct (0 <? l) eqn:Hpos.
  - apply Z.ltb_lt in Hpos. by rewrite decide_True by lia.
  - apply Z.ltb_ge in Hpos. by rewrite decide_True by lia.
Qed.

(** A valuation of the clause set after a successful elimination
    extends to one of the clause set before, whatever the clauses. *)
Lemma eliminate_sat_back var s cs' s' :
  DP._eliminate union_iter var s = (Some cs', s') →
  satisfiable cs' → satisfiable (DP._clauses s).
Proof.
  intros He [a Ha].
  apply (eliminate_Some union_iter) in He as (-> & _).
  rewrite formula_true_elem in Ha.
  set (cs := DP._clauses s) in *.
  set (pos := filter (λ c, var ∈ c) cs) in *.
  set (neg := filter (λ c, (var ∉ c) ∧ (- var) ∈ c) cs) in *.
  assert (∀ c, c ∈ cs →
            c ∈ pos ∨ c ∈ neg ∨ (c ∈ cs ∧ (var ∉ c) ∧ (- var) ∉ c)) as Hsplit.
  { intros c Hc. unfold pos, neg. rewrite !list_elem_of_filter.
    destruct (decide (var ∈ c)); [tauto|].
    destruct (decide (- var ∈ c)); tauto. }
  assert (∀ c, c ∈ cs → var ∉ c → (- var) ∉ c → clause_true a c = true)
    as Hrest.
  { intros c Hc Hv Hn. apply Ha, elem_of_app. left.
    by apply list_elem_of_filter. }
  assert (∀ c1 c2, c1 ∈ pos → c2 ∈ neg →
            ∃ l, (l ∈ c1 ∨ l ∈ c2) ∧ l ≠ var ∧ l ≠ - var
                 ∧ lit_true a l = true) as Hres.
  { intros c1 c2 Hc1 Hc2.
    assert (clause_true a (DP.resolvent union_iter var c1 c2) = true)
      as (l & Hl & Ht)%clause_true_elem.
    { apply Ha, elem_of_app. right.
      apply elem_of_pairwise_resolvents. eauto. }
    apply (elem_of_resolvent union_iter union_iter_perm) in Hl.
    exists l. tauto. }
  assert (∀ b c l, l ∈ c → l ≠ var → l ≠ - var → lit_true a l = true →
            clause_true (force a (if b : bool then var else - var)) c = true)
    as Hkeep.
  { intros b c l Hl H1 H2 Ht. apply clause_true_elem. exists l.
    split; [done|]. rewrite lit_true_force_other; [done|..];
      destruct b; lia. }
  destruct (forallb (λ c1 : clause,
              existsb (λ l, lit_true a l && bool_decide (l ≠ var)) c1) pos)
    eqn:Hall.
  - exists (force a (- var)). apply formula_true_elem. intros c Hc.
    destruct (Hsplit c Hc) as [Hp|[Hn|(_ & Hv & Hn)]].
    + rewrite forallb_forall in Hall. pose proof Hp as Hex.
      apply list_elem_of_In, Hall, existsb_exists in Hex.
      destruct Hex as (l & Hl & [Ht Hne%bool_decide_eq_true]%andb_true_iff).
      apply list_elem_of_In in Hl.
      destruct (decide (l = - var)) as [->|Hne'].
      * apply clause_true_elem. exists (- var).
        split; [done|apply lit_true_force_any].
      * by apply (Hkeep false c l).
    + apply clause_true_elem. exists (- var).
      apply list_elem_of_filter in Hn as [[_ Hn] _].
      split; [done|apply lit_true_force_any].
    + pose proof (Hrest c Hc Hv Hn) as (l & Hl & Ht)%clause_true_elem.
      apply (Hkeep false c l); [done| | |done]; by intros ->.
  - apply forallb_false in Hall as (c1 & Hc1 & Hnone).
    assert (∀ l, l ∈ c1 → lit_true a l = true → l = var) as Honly.
    { intros l Hl Ht. destruct (decide (l = var)) as [|Hne]; [done|].
      assert (existsb (λ l, lit_true a l && bool_decide (l ≠ var)) c1 = true)
        as Hex; [|congruence].
      apply existsb_exists. exists l. split; [by apply list_elem_of_In|].
      by rewrite Ht, bool_decide_eq_true_2. }
    exists (force a var). apply formula_true_elem. intros c Hc.
    destruct (Hsplit c Hc) as [Hp|[Hn|(_ & Hv & Hn)]].
    + apply clause_true_elem. exists var.
      apply list_elem_of_filter in Hp as [Hp _].
      split; [done|apply lit_true_force_any].
    + destruct (Hres c1 c Hc1 Hn) as (l & [Hl|Hl] & H1 & H2 & Ht).
      * by specialize (Honly l Hl Ht).
      * by apply (Hkeep true c l).
    + pose proof (Hrest c Hc Hv Hn) as (l & Hl & Ht)%clause_true_elem.
      apply (Hkeep true c l); [done| | |done]; by intros ->.
Qed.

Lemma dp_solve_loop_true fuel s s' :
  DP.solve_loop union_iter fuel s = (Some true, s') →
  satisfiable (DP._clauses s) ∧ DP._clauses s' = [].
Proof.
  revert s. induction fuel as [|fuel IH]; intros s; [done|].
  cbn [DP.solve_loop].
  destruct (decide (DP._clauses s = [])) as [Hnil|Hnil].
  { intros [= <-]. rewrite Hnil. split; [by exists (λ _, false)|done]. }
  destruct (existsb _ (DP._clauses s)) eqn:Hex; [done|].
  destruct (DP._choose_var (DP._clauses s)) as [v|] eqn:Hv.
  2:{ destruct (choose_var_Some _ Hnil Hex) as (c & l & _ & _ & Hsome).
      congruence. }
  destruct (DP._eliminate union_iter v s) as [[cs1|] s1] eqn:He; [|done].
  intros Hrun. destruct (IH _ Hrun) as [Hsat Hend]. split; [|done].
  eapply eliminate_sat_back; [exact He|].
  by apply (eliminate_Some union_iter) in He as (_ & <- & _).
Qed.

(** X2.  When [DPSolver.solve] returns [True] the formula is
    satisfiable, tautological clauses or not, and the solver is left
    with an empty clause set (the count printed as "Clauses after
    elimination" is 0). *)
Theorem dp_sat_verdict_sound (fuel : nat) (cnf : formula) :
  DP.solve union_iter fuel cnf = Some true →
  satisfiable cnf
  ∧ DP._clauses (DP.solve_loop union_iter fuel (DP.__init__ cnf)).2 = [].
Proof.
  unfold DP.solve.
  destruct (DP.solve_loop union_iter fuel (DP.__init__ cnf)) as [r s'] eqn:Hrun.
  cbn. intros ->. apply dp_solve_loop_true in Hrun as [Hsat Hend].
  split; [|done]. unfold DP.__init__ in Hsat. cbn in Hsat.
  by rewrite list_fmap_id in Hsat.
Qed.

Lemma resolvent_nil_iff var c1 c2 :
  DP.resolvent union_iter var c1 c2 = []
  ↔ ∀ l, l ∈ c1 ∨ l ∈ c2 → l = var ∨ l = - var.
Proof.
  split.
  - intros Hnil l Hl.
    destruct (decide (l = var)) as [|H1]; [by left|].
    destruct (decide (l = - var)) as [|H2]; [by right|].
    assert (l ∈ DP.resolvent union_iter var c1 c2) as Hin
      by (by apply (elem_of_resolvent union_iter union_iter_perm)).
    rewrite Hnil in Hin. by apply elem_of_nil in Hin.
  - intros Hall. apply elem_of_nil_inv. intros l Hin.
    apply (elem_of_resolvent union_iter union_iter_perm) in Hin
      as (Hl & H1 & H2).
    destruct (Hall l Hl); done.
Qed.

Lemma resolve_inner_Some_nonempty var c1 neg acc n new n' :
  DP.resolve_inner union_iter var c1 neg acc n = (Some new, n') →
  ∀ c2, c2 ∈ neg → DP.resolvent union_iter var c1 c2 ≠ [].
Proof.
  revert acc n. induction neg as [|c neg IH]; intros acc n; cbn.
  - intros _ c2 Hc2. by apply elem_of_nil in Hc2.
  - destruct (DP.resolvent union_iter var c1 c) as [|l r] eqn:Hr; [done|].
    intros H c2 Hc2. apply elem_of_cons in Hc2 as [->|Hc2].
    + by rewrite Hr.
    + by eapply IH.
Qed.

Lemma resolve_outer_Some_nonempty var pos neg acc n new n' :
  DP.resolve_outer union_iter var pos neg acc n = (Some new, n') →
  ∀ c1 c2, c1 ∈ pos → c2 ∈ neg → DP.resolvent union_iter var c1 c2 ≠ [].
Proof.
  revert acc n. induction pos as [|c pos IH]; intros acc n; cbn.
  - intros _ c1 c2 Hc1. by apply elem_of_nil in Hc1.
  - destruct (DP.resolve_inner union_iter var c neg acc n)
      as [[acc'|] m] eqn:Hin; [|done].
    intros H c1 c2 Hc1 Hc2. apply elem_of_cons in Hc1 as [->|Hc1].
    + by eapply resolve_inner_Some_nonempty.
    + by eapply IH.
Qed.

Lemma eliminate_None var s s' :
  DP._eliminate union_iter var s = (None, s') →
  DP._clauses s' = DP._clauses s
  ∧ DP.vars_eliminated (DP._stats s') = DP.vars_eliminated (DP._stats s).
Proof.
  unfold DP._eliminate. rewrite split_spec.
  destruct (DP.resolve_outer union_iter var _ _ [] _) as [[new|] n]; [done|].
  by intros [= <-].
Qed.

(** X3.  [_eliminate] reports UNSAT ([None]) exactly when some clause
    with [var] and some clause with [-var] (and not [var]) consist of
    [var] and [-var] only; it then leaves the clause set and the count
    of eliminated variables as they were. *)
Theorem dp_eliminate_failure (var : Z) (s : DP.solver) :
  let cs := DP._clauses s in
  let pos := filter (λ c, var ∈ c) cs in
  let neg := filter (λ c, (var ∉ c) ∧ (- var) ∈ c) cs in
  let r := DP._eliminate union_iter var s in
  (r.1 = None
   ↔ ∃ c1 c2, c1 ∈ pos ∧ c2 ∈ neg
              ∧ ∀ l, l ∈ c1 ∨ l ∈ c2 → l = var ∨ l = - var)
  ∧ (r.1 = None →
     DP._clauses r.2 = cs
     ∧ DP.vars_eliminated (DP._stats r.2) = DP.vars_eliminated (DP._stats s)).
Proof.
  intros cs pos neg r. unfold r, DP._eliminate. rewrite split_spec.
  fold cs. fold pos. fold neg.
  destruct (DP.resolve_outer union_iter var pos neg [] _) as [[new|] n] eqn:Hout;
    cbn [fst snd].
  - split; [|done]. split; [done|].
    intros (c1 & c2 & Hc1 & Hc2 & Hall). exfalso.
    eapply resolve_outer_Some_nonempty; [exact Hout|exact Hc1|exact Hc2|].
    by apply resolvent_nil_iff.
  - split; [|done]. split; [|done]. intros _.
    apply (resolve_outer_None union_iter) in Hout as (c1 & c2 & Hc1 & Hc2 & Hnil).
    exists c1, c2. split_and!; [done..|]. by apply resolvent_nil_iff.
Qed.

Lemma resolve_outer_no_neg var pos acc n :
  DP.resolve_outer union_iter var pos [] acc n = (Some acc, n).
Proof. induction pos as [|c pos IH]; [done|]. cbn. apply IH. Qed.

(** X4.  If the variable occurs in one polarity only (or not at all),
    [_eliminate] succeeds without forming any resolvent: it drops the
    clauses that mention the variable, keeps the others in order, and
    counts one more eliminated variable and no resolvent. *)
Theorem dp_eliminate_one_polarity (var : Z) (s : DP.solver) :
  (∀ c, c ∈ DP._clauses s → var ∉ c)
  ∨ (∀ c, c ∈ DP._clauses s → (- var) ∉ c) →
  let rest := filter (λ c, (var ∉ c) ∧ (- var) ∉ c) (DP._clauses s) in
  DP._eliminate union_iter var s
  = (Some rest,
     DP.Solver rest (DP.Stats (S (DP.vars_eliminated (DP._stats s)))
                              (DP.resolvents (DP._stats s)))).
Proof.
  intros Hone rest. unfold DP._eliminate. rewrite split_spec. fold rest.
  destruct Hone as [Hpos|Hneg].
  - assert (filter (λ c, var ∈ c) (DP._clauses s) = []) as ->.
    { apply elem_of_nil_inv. intros c [Hv Hc]%list_elem_of_filter.
      by apply (Hpos c). }
    cbn. by rewrite app_nil_r.
  - assert (filter (λ c, (var ∉ c) ∧ (- var) ∈ c) (DP._clauses s) = []) as ->.
    { apply elem_of_nil_inv. intros c [[_ Hn] Hc]%list_elem_of_filter.
      by apply (Hneg c). }
    rewrite resolve_outer_no_neg. by rewrite app_nil_r.
Qed.

Lemma dp_solve_loop_counter fuel s :
  let s' := (DP.solve_loop union_iter fuel s).2 in
  (DP.vars_eliminated (DP._stats s') + size (formula_vars (DP._clauses s'))
   ≤ DP.vars_eliminated (DP._stats s) + size (formula_vars (DP._clauses s)))%nat
  ∧ (DP.vars_eliminated (DP._stats s) ≤ DP.vars_eliminated (DP._stats s'))%nat.
Proof.
  revert s. induction fuel as [|fuel IH]; intros s; cbn [DP.solve_loop];
    [done|].
  destruct (decide (DP._clauses s = [])); [done|].
  destruct (existsb _ (DP._clauses s)); [done|].
  destruct (DP._choose_var (DP._clauses s)) as [v|] eqn:Hv; [|done].
  destruct (DP._eliminate union_iter v s) as [[cs1|] s1] eqn:He; cbn [fst snd] in *.
  - pose proof (eliminate_measure union_iter union_iter_perm _ _ _ _ Hv He).
    apply (eliminate_Some union_iter) in He as (_ & _ & Hve & _).
    specialize (IH s1). cbn zeta in IH. lia.
  - apply eliminate_None in He as [-> ->]. lia.
Qed.

(** X5.  [DPSolver.solve] eliminates at most as many variables as the
    formula has: when it stops, the counter [vars_eliminated] plus the
    number of distinct variables still in the clause set does not exceed
    the number of distinct variables of the input. *)
Theorem dp_vars_eliminated_bound (fuel : nat) (cnf : formula) :
  let s' := (DP.solve_loop union_iter fuel (DP.__init__ cnf)).2 in
  (DP.vars_eliminated (DP._stats s') + size (formula_vars (DP._clauses s'))
   ≤ size (formula_vars cnf))%nat.
Proof.
  intros s'. pose proof (dp_solve_loop_counter fuel (DP.__init__ cnf)) as [H _].
  cbn zeta in H. unfold DP.__init__ in H at 3 4. cbn in H.
  rewrite list_fmap_id in H. exact H.
Qed.

Lemma pairwise_resolvents_length var (pos neg : formula) :
  length (pairwise_resolvents union_iter var pos neg)
  = (length pos * length neg)%nat.
Proof.
  unfold pairwise_resolvents. induction pos as [|c pos IH]; [done|].
  cbn. rewrite length_app, length_fmap, IH. done.
Qed.

Lemma split_lengths var (cs : formula) :
  (length (filter (λ c, var ∈ c) cs)
   + length (filter (λ c, (var ∉ c) ∧ (- var) ∈ c) cs)
   + length (filter (λ c, (var ∉ c) ∧ (- var) ∉ c) cs))%nat
  = length cs.
Proof.
  induction cs as [|c cs IH]; [done|].
  destruct (decide (var ∈ c)) as [Hv|Hv].
  - rewrite filter_cons_True by done.
    rewrite !(filter_cons_False _ c) by tauto. cbn. lia.
  - destruct (decide (- var ∈ c)) as [Hn|Hn].
    + rewrite (filter_cons_False _ c) by done.
      rewrite (filter_cons_True _ c) by done.
      rewrite (filter_cons_False _ c) by tauto. cbn. lia.
    + rewrite (filter_cons_False _ c) by done.
      rewrite (filter_cons_False _ c) by tauto.
      rewrite (filter_cons_True _ c) by done. cbn. lia.
Qed.

(** X6.  What a successful [_eliminate] costs: with [p] clauses that
    hold [var] and [n] that hold only [-var], the clause set loses these
    [p + n] clauses and gains [p * n] resolvents, none is merged or
    dropped, and the counter [resolvents] grows by [p * n]. *)
Theorem dp_eliminate_counts (var : Z) (s : DP.solver) cs' s' :
  DP._eliminate union_iter var s = (Some cs', s') →
  let cs := DP._clauses s in
  let pos := filter (λ c, var ∈ c) cs in
  let neg := filter (λ c, (var ∉ c) ∧ (- var) ∈ c) cs in
  (length cs' + length pos + length neg
   = length cs + length pos * length neg)%nat
  ∧ DP.resolvents (DP._stats s')
    = (DP.resolvents (DP._stats s) + length pos * length neg)%nat
  ∧ DP.vars_eliminated (DP._stats s') = S (DP.vars_eliminated (DP._stats s)).
Proof.
  intros He cs pos neg.
  apply (eliminate_Some union_iter) in He as (-> & _ & Hve & Hres).
  split_and!; [|done..].
  rewrite length_app, pairwise_resolvents_length.
  pose proof (split_lengths var (DP._clauses s)). subst pos neg cs. lia.
Qed.

(** X7.  Where no clause holds both [var] and [-var], a successful
    [_eliminate] of a variable [var ≠ 0] gives a clause set that is
    satisfiable exactly when the one before is.  (Without that
    condition only one direction holds: a valuation of the new set
    extends to the old one.) *)
Theorem dp_eliminate_preserves_sat (var : Z) (s : DP.solver) cs' s' :
  var ≠ 0 →
  (∀ c, c ∈ DP._clauses s → ¬ (var ∈ c ∧ (- var) ∈ c)) →
  DP._eliminate union_iter var s = (Some cs', s') →
  (satisfiable (DP._clauses s) ↔ satisfiable cs')
  ∧ ∀ c, c ∈ cs' → (var ∉ c) ∧ (- var) ∉ c.
Proof.
  intros Hvar Htaut He. split.
  - by eapply eliminate_equisatisfiable.
  - by eapply eliminate_no_var.
Qed.

End DP_more.

Lemma dp_sat_verdict_sound_witness :
  (∀ c1 c2, DP.canonical_union c1 c2 ≡ₚ DP.canonical_union c1 c2)
  ∧ DP.solve DP.canonical_union 3 [[1; 2]; [-1]] = Some true
  ∧ satisfiable [[1; 2]; [-1]].
Proof.
  assert (∀ c1 c2, DP.canonical_union c1 c2 ≡ₚ DP.canonical_union c1 c2)
    as H by reflexivity.
  assert (DP.solve DP.canonical_union 3 [[1; 2]; [-1]] = Some true) as Hrun
    by (vm_compute; reflexivity).
  split; [exact H|]. split; [exact Hrun|].
  exact (proj1 (dp_sat_verdict_sound DP.canonical_union H 3 [[1; 2]; [-1]] Hrun)).
Defined.

Lemma dp_eliminate_failure_witness :
  (∀ c1 c2, DP.canonical_union c1 c2 ≡ₚ DP.canonical_union c1 c2)
  ∧ (DP._eliminate DP.canonical_union 2 (DP.Solver [[-2]; [2]] (DP.Stats 1 1))).1
    = None.
Proof.
  assert (∀ c1 c2, DP.canonical_union c1 c2 ≡ₚ DP.canonical_union c1 c2)
    as H by reflexivity.
  split; [exact H|].
  apply (proj1 (dp_eliminate_failure DP.canonical_union H 2
                  (DP.Solver [[-2]; [2]] (DP.Stats 1 1)))).
  exists [2], [-2]. split_and!.
  - vm_compute. left.
  - vm_compute. left.
  - intros l [Hl|Hl]; apply list_elem_of_singleton in Hl; lia.
Defined.

Lemma dp_eliminate_one_polarity_witness :
  (∀ c : list Z, c ∈ [[1; 2]; [3]] → (- 1) ∉ c)
  ∧ DP._eliminate DP.canonical_union 1 (DP.Solver [[1; 2]; [3]] (DP.Stats 0 0))
    = (Some [[3]], DP.Solver [[3]] (DP.Stats 1 0)).
Proof.
  assert (∀ c : list Z, c ∈ [[1; 2]; [3]] → (- 1) ∉ c) as H.
  { intros c Hc. repeat (apply elem_of_cons in Hc as [->|Hc]);
      [| |by apply elem_of_nil in Hc];
      intros Hin; repeat (apply elem_of_cons in Hin as [?|Hin]);
      try lia; by apply elem_of_nil in Hin. }
  split; [exact H|].
  exact (dp_eliminate_one_polarity DP.canonical_union 1
           (DP.Solver [[1; 2]; [3]] (DP.Stats 0 0)) (or_intror H)).
Defined.

Lemma dp_vars_eliminated_bound_witness :
  (∀ c1 c2, DP.canonical_union c1 c2 ≡ₚ DP.canonical_union c1 c2)
  ∧ let s' := (DP.solve_loop DP.canonical_union 5
                 (DP.__init__ [[1; 2]; [-1; 2]; [-2]])).2 in
    (DP.vars_eliminated (DP._stats s') + size (formula_vars (DP._clauses s'))
     ≤ size (formula_vars [[1; 2]; [-1; 2]; [-2]]%Z))%nat.
Proof.
  assert (∀ c1 c2, DP.canonical_union c1 c2 ≡ₚ DP.canonical_union c1 c2)
    as H by reflexivity.
  split; [exact H|].
  exact (dp_vars_eliminated_bound DP.canonical_union H 5 [[1; 2]; [-1; 2]; [-2]]).
Defined.

Lemma dp_eliminate_preserves_sat_witness :
  (∀ c1 c2, DP.canonical_union c1 c2 ≡ₚ DP.canonical_union c1 c2)
  ∧ (1 ≠ 0)
  ∧ (satisfiable [[1; 2]; [-1; 3]] ↔ satisfiable [[3; 2]]).
Proof.
  assert (∀ c1 c2, DP.canonical_union c1 c2 ≡ₚ DP.canonical_union c1 c2)
    as H by reflexivity.
  split; [exact H|]. split; [lia|].
  refine (proj1 (dp_eliminate_preserves_sat DP.canonical_union H 1
            (DP.Solver [[1; 2]; [-1; 3]] (DP.Stats 0 0)) [[3; 2]]
            (DP.Solver [[3; 2]] (DP.Stats 1 1)) _ _ _)).
  - lia.
  - intros c Hc [H1 H2].
    repeat (apply elem_of_cons in Hc as [->|Hc]);
      [| |by apply elem_of_nil in Hc].
    + repeat (apply elem_of_cons in H2 as [?|H2]); try lia;
        by apply elem_of_nil in H2.
    + repeat (apply elem_of_cons in H1 as [?|H1]); try lia;
        by apply elem_of_nil in H1.
  - vm_compute. reflexivity.
Defined.

Lemma dp_eliminate_counts_witness :
  DP._eliminate DP.canonical_union 1
    (DP.Solver [[1; 2]; [1; 3]; [-1; 4]; [-1; 5]; [6]] (DP.Stats 0 0))
  = (Some [[6]; [4; 2]; [5; 2]; [3; 4]; [5; 3]],
     DP.Solver [[6]; [4; 2]; [5; 2]; [3; 4]; [5; 3]] (DP.Stats 1 4))
  ∧ (5 + 2 + 2 = 5 + 2 * 2)%nat.
Proof.
  assert (DP._eliminate DP.canonical_union 1
            (DP.Solver [[1; 2]; [1; 3]; [-1; 4]; [-1; 5]; [6]] (DP.Stats 0 0))
          = (Some [[6]; [4; 2]; [5; 2]; [3; 4]; [5; 3]],
             DP.Solver [[6]; [4; 2]; [5; 2]; [3; 4]; [5; 3]] (DP.Stats 1 4)))
    as H by (vm_compute; reflexivity).
  split; [exact H|].
  exact (proj1 (dp_eliminate_counts DP.canonical_union 1 _ _ _ H)).
Defined.

(** ** [DPLLSolver]: the simplification step *)

Lemma filter_ne_id (l : Z) (c : clause) :
  l ∉ c → filter (λ x, x ≠ l) c = c.
Proof.
  induction c as [|x c IH]; [done|]. intros Hl.
  apply not_elem_of_cons in Hl as [Hx Hc].
  rewrite filter_cons_True by done. by rewrite IH.
Qed.

Lemma filter_ne_nil (l : Z) (c : clause) :
  filter (λ x, x ≠ l) c = [] ↔ ∀ x, x ∈ c → x = l.
Proof.
  split.
  - intros Hnil x Hx. destruct (decide (x = l)) as [|Hne]; [done|].
    assert (x ∈ filter (λ x, x ≠ l) c) as Hin
      by (by apply list_elem_of_filter).
    rewrite Hnil in Hin. by apply elem_of_nil in Hin.
  - intros Hall. apply elem_of_nil_inv. intros x [Hne Hx]%list_elem_of_filter.
    by apply Hne, Hall.
Qed.

Lemma simplify_loop_Some lit cs acc new :
  DPLL.simplify_loop lit cs acc = Some new →
  new = acc ++ (filter (λ x, x ≠ - lit) <$> filter (λ c, lit ∉ c) cs)
  ∧ ∀ c, c ∈ cs → lit ∉ c → (- lit) ∈ c → ∃ x, x ∈ c ∧ x ≠ - lit.
Proof.
  revert acc. induction cs as [|c cs IH]; intros acc; cbn [DPLL.simplify_loop].
  - intros [= <-]. split; [by rewrite app_nil_r|].
    intros c Hc. by apply elem_of_nil in Hc.
  - destruct (decide (lit ∈ c)) as [Hl|Hl].
    + intros [-> Hall]%IH. rewrite filter_cons_False by (by intros ?).
      split; [done|]. intros c' [->|Hc']%elem_of_cons; [done|by apply Hall].
    + rewrite filter_cons_True by done. rewrite fmap_cons.
      destruct (decide (- lit ∈ c)) as [Hn|Hn].
      * destruct (filter (λ x, x ≠ - lit) c) as [|x r] eqn:Hf; [done|].
        intros [-> Hall]%IH. split; [by rewrite <- app_assoc|].
        intros c' [->|Hc']%elem_of_cons; [|by apply Hall].
        intros _ _. exists x.
        assert (x ∈ filter (λ x, x ≠ - lit) c) as [? ?]%list_elem_of_filter
          by (rewrite Hf; left).
        done.
      * intros [-> Hall]%IH. rewrite filter_ne_id by done.
        split; [by rewrite <- app_assoc|].
        intros c' [->|Hc']%elem_of_cons; [done|by apply Hall].
Qed.

Lemma simplify_loop_None lit cs acc :
  DPLL.simplify_loop lit cs acc = None →
  ∃ c, c ∈ cs ∧ (lit ∉ c) ∧ c ≠ [] ∧ ∀ x, x ∈ c → x = - lit.
Proof.
  revert acc. induction cs as [|c cs IH]; intros acc; cbn [DPLL.simplify_loop];
    [done|].
  destruct (decide (lit ∈ c)) as [Hl|Hl].
  - intros (c' & ? & ?)%IH. exists c'. split; [by right|done].
  - destruct (decide (- lit ∈ c)) as [Hn|Hn].
    + destruct (filter (λ x, x ≠ - lit) c) as [|x r] eqn:Hf.
      * intros _. exists c. split_and!; [left|done| |by apply filter_ne_nil].
        intros ->. by apply elem_of_nil in Hn.
      * intros (c' & ? & ?)%IH. exists c'. split; [by right|done].
    + intros (c' & ? & ?)%IH. exists c'. split; [by right|done].
Qed.

(** X8.  [_simplify(clauses, lit)] in closed form: when it succeeds, the
    result is the clauses without [lit], in order, each with its
    occurrences of [-lit] removed; it returns [None] only if some
    non-empty clause without [lit] consists of [-lit] alone, and
    succeeds only if there is no such clause. *)
Theorem dpll_simplify_spec (clauses : formula) (lit : Z) :
  match DPLL._simplify clauses lit with
  | Some new =>
      new = (filter (λ x, x ≠ - lit) <$> filter (λ c, lit ∉ c) clauses)
      ∧ ∀ c, c ∈ clauses → lit ∉ c → (- lit) ∈ c → ∃ x, x ∈ c ∧ x ≠ - lit
  | None =>
      ∃ c, c ∈ clauses ∧ (lit ∉ c) ∧ c ≠ [] ∧ ∀ x, x ∈ c → x = - lit
  end.
Proof.
  unfold DPLL._simplify.
  destruct (DPLL.simplify_loop lit clauses []) as [new|] eqn:H.
  - by apply simplify_loop_Some in H.
  - by apply simplify_loop_None in H.
Qed.

Lemma simplify_Some cs lit new :
  DPLL._simplify cs lit = Some new →
  new = (filter (λ x, x ≠ - lit) <$> filter (λ c, lit ∉ c) cs).
Proof. intros H. by apply simplify_loop_Some in H as [? _]. Qed.

Lemma simplify_None cs lit :
  DPLL._simplify cs lit = None →
  ∃ c, c ∈ cs ∧ (lit ∉ c) ∧ c ≠ [] ∧ ∀ x, x ∈ c → x = - lit.
Proof. apply simplify_loop_None. Qed.

(** The clauses of the result, seen from the argument. *)
Lemma elem_of_simplify cs lit new c' :
  DPLL._simplify cs lit = Some new →
  c' ∈ new ↔ ∃ c, c ∈ cs ∧ (lit ∉ c) ∧ c' = filter (λ x, x ≠ - lit) c.
Proof.
  intros ->%simplify_Some. rewrite list_elem_of_fmap. split.
  - intros (c & -> & [? ?]%list_elem_of_filter). by exists c.
  - intros (c & ? & ? & ->). exists c. split; [done|].
    by apply list_elem_of_filter.
Qed.

Lemma simplify_vars cs lit new :
  DPLL._simplify cs lit = Some new →
  formula_vars new ⊆ formula_vars cs ∖ {[Z.abs lit]}.
Proof.
  intros Hs x (c' & l & Hc' & Hl & ->)%elem_of_formula_vars.
  apply (elem_of_simplify _ _ _ _ Hs) in Hc' as (c & Hc & Hlit & ->).
  apply list_elem_of_filter in Hl as [Hne Hl].
  apply elem_of_difference. split.
  - apply elem_of_formula_vars. by exists c, l.
  - rewrite elem_of_singleton. intros Habs.
    assert (l = lit ∨ l = - lit) as [->| ->] by lia; done.
Qed.

(** ** [DPLLSolver]: the verdict *)

Lemma simplify_sat_back cs lit new a :
  DPLL._simplify cs lit = Some new →
  formula_true a new = true → formula_true (force a lit) cs = true.
Proof.
  intros Hs Hnew. rewrite formula_true_elem in Hnew.
  apply formula_true_elem. intros c Hc. apply clause_true_elem.
  destruct (decide (lit ∈ c)) as [Hl|Hl].
  { exists lit. split; [done|apply lit_true_force_any]. }
  assert (filter (λ x, x ≠ - lit) c ∈ new) as Hin.
  { apply (elem_of_simplify _ _ _ _ Hs). by exists c. }
  apply Hnew, clause_true_elem in Hin as (x & [Hne Hx]%list_elem_of_filter & Ht).
  exists x. split; [done|]. rewrite lit_true_force_other; [done| |done].
  by intros ->.
Qed.

Lemma lit_true_opp' a l : l ≠ 0 → lit_true a l = true → lit_true a (- l) = false.
Proof. intros Hl Ht. by rewrite lit_true_opp, Ht. Qed.

Lemma simplify_sat_fwd cs lit a :
  formula_true a cs = true →
  lit_true a lit = true ∨ lit = 0 →
  ∃ new, DPLL._simplify cs lit = Some new ∧ formula_true a new = true.
Proof.
  intros Hcs Hlit. rewrite formula_true_elem in Hcs.
  assert (∀ c, c ∈ cs → lit ∉ c →
            clause_true a (filter (λ x, x ≠ - lit) c) = true) as Hred.
  { intros c Hc Hl. apply Hcs, clause_true_elem in Hc as (x & Hx & Ht).
    apply clause_true_elem. exists x. split; [|done].
    apply list_elem_of_filter. split; [|done]. intros ->.
    destruct Hlit as [Hlit| ->]; [|done].
    destruct (decide (lit = 0)) as [->|Hne]; [done|].
    rewrite (lit_true_opp' a lit) in Ht; done. }
  destruct (DPLL._simplify cs lit) as [new|] eqn:Hs.
  - exists new. split; [done|]. apply formula_true_elem. intros c' Hc'.
    apply (elem_of_simplify _ _ _ _ Hs) in Hc' as (c & Hc & Hl & ->).
    by apply Hred.
  - apply simplify_None in Hs as (c & Hc & Hl & Hne & Hall). exfalso.
    specialize (Hred c Hc Hl).
    apply filter_ne_nil in Hall. by rewrite Hall in Hred.
Qed.

Lemma find_unit_true cs u a :
  DPLL._find_unit cs = Some u → formula_true a cs = true →
  lit_true a u = true.
Proof.
  intros Hu%find_unit_elem Hcs. rewrite formula_true_elem in Hcs.
  apply Hcs in Hu. cbn in Hu. by rewrite orb_false_r in Hu.
Qed.

Lemma unit_loop_sat fuel cs m st r m' st' :
  DPLL.unit_loop fuel cs m st = DPLL.Ret (r, m', st') →
  (∀ cs', r = Some cs' → satisfiable cs' → satisfiable cs)
  ∧ (∀ a, formula_true a cs = true →
       ∃ cs', r = Some cs' ∧ formula_true a cs' = true).
Proof.
  revert cs m st. induction fuel as [|fuel IH]; intros cs m st;
    cbn [DPLL.unit_loop]; [done|].
  destruct (DPLL._find_unit cs) as [u|] eqn:Hu.
  - destruct (DPLL._simplify cs u) as [cs1|] eqn:Hs.
    + intros [Hback Hfwd]%IH. split.
      * intros cs' Hr [a Ha]%(Hback _ Hr). exists (force a u).
        by eapply simplify_sat_back.
      * intros a Ha.
        destruct (simplify_sat_fwd cs u a Ha) as (new & Hnew & Hta).
        { left. by eapply find_unit_true. }
        rewrite Hs in Hnew. injection Hnew as <-. by apply Hfwd.
    + intros [= <- <- <-]. split; [done|]. intros a Ha. exfalso.
      destruct (simplify_sat_fwd cs u a Ha) as (new & Hnew & _).
      { left. by eapply find_unit_true. }
      by rewrite Hs in Hnew.
  - intros [= <- <- <-]. split.
    + by intros cs' [= <-].
    + intros a Ha. by exists cs.
Qed.

Lemma pure_filter_sat_back (cs : formula) p a :
  (∀ c, c ∈ cs → (- p) ∉ c) →
  formula_true a (filter (λ c, p ∉ c) cs) = true →
  formula_true (force a p) cs = true.
Proof.
  intros Hpure Hf. rewrite formula_true_elem in Hf.
  apply formula_true_elem. intros c Hc. apply clause_true_elem.
  destruct (decide (p ∈ c)) as [Hp|Hp].
  { exists p. split; [done|apply lit_true_force_any]. }
  assert (c ∈ filter (λ c, p ∉ c) cs) as Hin by (by apply list_elem_of_filter).
  apply Hf, clause_true_elem in Hin as (x & Hx & Ht).
  exists x. split; [done|]. rewrite lit_true_force_other; [done|..].
  - by intros ->.
  - intros ->. by apply (Hpure c).
Qed.

Lemma filter_formula_true {P : clause → Prop} `{∀ c, Decision (P c)}
    (cs : formula) a :
  formula_true a cs = true → formula_true a (filter P cs) = true.
Proof.
  rewrite !formula_true_elem. intros Hcs c [_ Hc]%list_elem_of_filter.
  by apply Hcs.
Qed.

Lemma pure_loop_sat fuel cs m st r m' st' :
  DPLL.pure_loop fuel cs m st = DPLL.Ret (r, m', st') →
  ∃ cs', r = Some cs'
    ∧ (satisfiable cs' → satisfiable cs)
    ∧ (∀ a, formula_true a cs = true → formula_true a cs' = true).
Proof.
  revert cs m st. induction fuel as [|fuel IH]; intros cs m st;
    cbn [DPLL.pure_loop]; [done|].
  destruct (DPLL._find_pure cs) as [p|] eqn:Hp.
  - intros (cs' & -> & Hback & Hfwd)%IH. exists cs'. split; [done|]. split.
    + intros [a Ha]%Hback. exists (force a p).
      apply pure_filter_sat_back; [|done].
      by apply find_pure_spec in Hp as [_ ?].
    + intros a Ha. by apply Hfwd, filter_formula_true.
  - intros [= <- <- <-]. by exists cs.
Qed.

Lemma propagate_sat fuel cs m st r m' st' :
  DPLL._propagate fuel cs m st = DPLL.Ret (r, m', st') →
  (∀ cs', r = Some cs' → satisfiable cs' → satisfiable cs)
  ∧ (∀ a, formula_true a cs = true →
       ∃ cs', r = Some cs' ∧ formula_true a cs' = true).
Proof.
  unfold DPLL._propagate.
  destruct (DPLL.unit_loop fuel cs m st) as [[[[cs1|] m1] st1]| |] eqn:Hu;
    [| |done..].
  - apply unit_loop_sat in Hu as [Hb1 Hf1].
    intros (cs' & -> & Hb2 & Hf2)%pure_loop_sat. split.
    + intros ? [= <-] Hsat. by apply (Hb1 cs1), Hb2.
    + intros a (? & [= <-] & Ha)%Hf1. exists cs'. split; [done|by apply Hf2].
  - apply unit_loop_sat in Hu as [Hb1 Hf1]. intros [= <- <- <-]. done.
Qed.

Lemma branch_Some rec truths pivot cs m st r st' :
  DPLL.branch rec truths pivot cs m st = DPLL.Ret (Some r, st') →
  ∃ (t : bool) new st1,
    t ∈ truths
    ∧ DPLL._simplify cs (if t then pivot else - pivot) = Some new
    ∧ rec new (<[Z.abs pivot := t]> m) st1 = DPLL.Ret (Some r, st').
Proof.
  revert st. induction truths as [|t truths IH]; intros st; cbn [DPLL.branch];
    [done|].
  destruct (DPLL._simplify cs (if t then pivot else - pivot))
    as [new|] eqn:Hs.
  - destruct (rec new (<[Z.abs pivot := t]> m) st)
      as [[[r1|] st1]| |] eqn:Hrec; [| |done..].
    + intros [= -> ->]. exists t, new, st. split_and!; [left|done..].
    + intros (t' & new' & st2 & ? & ? & ?)%IH. exists t', new', st2.
      split_and!; [by right|done..].
  - intros (t' & new' & st2 & ? & ? & ?)%IH. exists t', new', st2.
    split_and!; [by right|done..].
Qed.

Lemma branch_None rec truths pivot cs m st st' :
  DPLL.branch rec truths pivot cs m st = DPLL.Ret (None, st') →
  ∀ (t : bool) new, t ∈ truths →
    DPLL._simplify cs (if t then pivot else - pivot) = Some new →
    ∃ st1 st2, rec new (<[Z.abs pivot := t]> m) st1 = DPLL.Ret (None, st2).
Proof.
  revert st. induction truths as [|t truths IH]; intros st; cbn [DPLL.branch].
  - intros _ t new Ht. by apply elem_of_nil in Ht.
  - destruct (DPLL._simplify cs (if t then pivot else - pivot))
      as [new|] eqn:Hs.
    + destruct (rec new (<[Z.abs pivot := t]> m) st)
        as [[[r1|] st1]| |] eqn:Hrec; [done| |done..].
      intros Hb t' new' [->|Ht']%elem_of_cons Hs'.
      * rewrite Hs in Hs'. injection Hs' as <-. by exists st, st1.
      * by eapply IH.
    + intros Hb t' new' [->|Ht']%elem_of_cons Hs'.
      * by rewrite Hs in Hs'.
      * by eapply IH.
Qed.

Lemma solve_rec_sat fuel cs m st r st' :
  DPLL.solve_rec fuel cs m st = DPLL.Ret (r, st') →
  match r with
  | Some _ => satisfiable cs
  | None => ¬ satisfiable cs
  end.
Proof.
  revert cs m st r st'. induction fuel as [|fuel IH]; intros cs m st r st';
    cbn [DPLL.solve_rec]; [done|].
  destruct (DPLL._propagate (S fuel) cs m st)
    as [[[[cs1|] m1] st1]| |] eqn:Hp; [| |done..].
  - apply propagate_sat in Hp as [Hback Hfwd].
    destruct cs1 as [|[|pivot c] cs1]; [|done|].
    + intros [= <- <-]. apply (Hback []); [done|]. by exists (λ _, true).
    + destruct r as [r|].
      * intros (t & new & st2 & _ & Hs & Hrec)%branch_Some.
        apply IH in Hrec as [a Ha]. apply (Hback _ eq_refl).
        eexists. by eapply simplify_sat_back.
      * intros Hb [a Ha]. apply Hfwd in Ha as (? & [= <-] & Ha).
        pose proof (branch_None _ _ _ _ _ _ _ Hb) as Hnone.
        assert (∃ t : bool, lit_true a (if t then pivot else - pivot) = true
                            ∨ (if t then pivot else - pivot) = 0) as [t Ht].
        { destruct (decide (pivot = 0)) as [->|Hne]; [exists true; by right|].
          destruct (lit_true a pivot) eqn:Hl; [exists true; by left|].
          exists false. left. by rewrite lit_true_opp, Hl. }
        destruct (simplify_sat_fwd _ _ a Ha Ht) as (new & Hs & Hnew).
        destruct (Hnone t new) as (st2 & st3 & Hrec); [|done|].
        { destruct t; [left|right; left]. }
        apply IH in Hrec. apply Hrec. by exists a.
  - apply propagate_sat in Hp as [_ Hfwd]. intros [= <- <-] [a Ha].
    by apply Hfwd in Ha as (? & ? & _).
Qed.

Lemma solve_sat fuel cnf r st :
  DPLL.solve fuel cnf = DPLL.Ret (r, st) →
  match r with
  | Some _ => satisfiable cnf
  | None => ¬ satisfiable cnf
  end.
Proof. unfold DPLL.solve. rewrite list_fmap_id. apply solve_rec_sat. Qed.

(** X9.  A model returned by [DPLLSolver.solve] means that the formula
    is satisfiable, also where the model itself is not one of its
    models. *)
Theorem dpll_sat_verdict_sound (fuel : nat) (cnf : formula) m st :
  DPLL.solve fuel cnf = DPLL.Ret (Some m, st) → satisfiable cnf.
Proof.
  apply (solve_sat fuel cnf (Some m)).
Qed.

(** X10.  [None] returned by [DPLLSolver.solve] means that no valuation
    satisfies the formula. *)
Theorem dpll_unsat_verdict_sound (fuel : nat) (cnf : formula) st :
  DPLL.solve fuel cnf = DPLL.Ret (None, st) → ¬ satisfiable cnf.
Proof.
  apply (solve_sat fuel cnf None).
Qed.

Lemma dpll_sat_verdict_sound_witness :
  DPLL.solve 5 [[-1; 2]; [1; -2]]
  = DPLL.Ret (Some {[1 := true; 2 := false]}, DPLL.Stats 1 0 1 0)
  ∧ satisfiable [[-1; 2]; [1; -2]].
Proof.
  assert (DPLL.solve 5 [[-1; 2]; [1; -2]]
          = DPLL.Ret (Some {[1 := true; 2 := false]}, DPLL.Stats 1 0 1 0))
    as H by (vm_compute; reflexivity).
  split; [exact H|]. exact (dpll_sat_verdict_sound _ _ _ _ H).
Defined.

Lemma dpll_unsat_verdict_sound_witness :
  DPLL.solve 5 [[1; 2]; [-1; 2]; [-2]] = DPLL.Ret (None, DPLL.Stats 0 0 2 0)
  ∧ ¬ satisfiable [[1; 2]; [-1; 2]; [-2]].
Proof.
  assert (DPLL.solve 5 [[1; 2]; [-1; 2]; [-2]]
          = DPLL.Ret (None, DPLL.Stats 0 0 2 0))
    as H by (vm_compute; reflexivity).
  split; [exact H|]. exact (dpll_unsat_verdict_sound _ _ _ H).
Defined.

(** ** [DPLLSolver]: the two rules of [_propagate] *)

Lemma find_none_iff {A} (f : A → bool) (l : list A) :
  find f l = None ↔ ∀ x, x ∈ l → f x = false.
Proof.
  induction l as [|y l IH]; cbn.
  - split; [|done]. intros _ x Hx. by apply elem_of_nil in Hx.
  - destruct (f y) eqn:Hy.
    + split; [done|]. intros H. rewrite H in Hy; [done|left].
    + rewrite IH. split.
      * intros H x [->|Hx]%elem_of_cons; [done|by apply H].
      * intros H x Hx. apply H. by right.
Qed.

Lemma find_pure_None (cs : formula) :
  DPLL._find_pure cs = None
  ↔ ∀ c l, c ∈ cs → l ∈ c → ∃ c', c' ∈ cs ∧ (- l) ∈ c'.
Proof.
  unfold DPLL._find_pure. rewrite fmap_None, find_none_iff. split.
  - intros H c l Hc Hl.
    assert (l ∈ (DPLL.count_literals cs).*1) as Hk
      by (apply count_literals_keys; by exists c).
    apply list_elem_of_fmap in Hk as ([k n] & -> & Hkn).
    apply H in Hkn. apply bool_decide_eq_false in Hkn.
    apply dec_stable in Hkn. by apply count_literals_keys in Hkn.
  - intros H [k n] Hkn. apply bool_decide_eq_false. intros Hnot. apply Hnot.
    assert (k ∈ (DPLL.count_literals cs).*1) as Hk.
    { apply list_elem_of_fmap. by exists (k, n). }
    apply count_literals_keys in Hk as (c & Hc & Hl).
    apply count_literals_keys. by eapply H.
Qed.

Lemma find_unit_None (cs : formula) :
  DPLL._find_unit cs = None ↔ ∀ c, c ∈ cs → length c ≠ 1%nat.
Proof.
  induction cs as [|c cs IH].
  - split; [|done]. intros _ c Hc. by apply elem_of_nil in Hc.
  - destruct c as [|l [|l' c]]; cbn [DPLL._find_unit].
    + rewrite IH. split.
      * intros H c [->|Hc]%elem_of_cons; [done|by apply H].
      * intros H c Hc. apply H. by right.
    + split; [done|]. intros H. exfalso. apply (H [l]); [left|done].
    + rewrite IH. split.
      * intros H c' [->|Hc]%elem_of_cons; [done|by apply H].
      * intros H c' Hc. apply H. by right.
Qed.

(** X11.  [_find_pure] returns a literal that occurs in the clauses and
    whose negation occurs in none of them, and it returns [None] exactly
    when every literal that occurs has its negation in some clause. *)
Theorem dpll_find_pure_spec (clauses : formula) :
  (∀ p, DPLL._find_pure clauses = Some p →
        (∃ c, c ∈ clauses ∧ p ∈ c) ∧ ∀ c, c ∈ clauses → (- p) ∉ c)
  ∧ (DPLL._find_pure clauses = None
     ↔ ∀ c l, c ∈ clauses → l ∈ c → ∃ c', c' ∈ clauses ∧ (- l) ∈ c').
Proof.
  split; [intros p; apply find_pure_spec|apply find_pure_None].
Qed.

Lemma unit_loop_no_unit fuel cs m st cs' m' st' :
  DPLL.unit_loop fuel cs m st = DPLL.Ret (Some cs', m', st') →
  DPLL._find_unit cs' = None.
Proof.
  revert cs m st. induction fuel as [|fuel IH]; intros cs m st;
    cbn [DPLL.unit_loop]; [done|].
  destruct (DPLL._find_unit cs) as [u|] eqn:Hu.
  - destruct (DPLL._simplify cs u) as [cs1|]; [apply IH|done].
  - by intros [= <- <- <-].
Qed.

Lemma pure_loop_fixpoint fuel cs m st cs' m' st' :
  DPLL.pure_loop fuel cs m st = DPLL.Ret (Some cs', m', st') →
  DPLL._find_pure cs' = None ∧ ∀ c, c ∈ cs' → c ∈ cs.
Proof.
  revert cs m st. induction fuel as [|fuel IH]; intros cs m st;
    cbn [DPLL.pure_loop]; [done|].
  destruct (DPLL._find_pure cs) as [p|] eqn:Hp.
  - intros [Hnone Hsub]%IH. split; [done|]. intros c Hc%Hsub.
    by apply list_elem_of_filter in Hc as [_ ?].
  - by intros [= <- <- <-].
Qed.

(** X12.  The clause set that [_propagate] hands to the decision step is
    a fixed point of both rules: it has no unit clause and no pure
    literal. *)
Theorem dpll_propagate_fixpoint (fuel : nat) (clauses : formula) m st
    clauses' m' st' :
  DPLL._propagate fuel clauses m st = DPLL.Ret (Some clauses', m', st') →
  (∀ c, c ∈ clauses' → length c ≠ 1%nat)
  ∧ (∀ c l, c ∈ clauses' → l ∈ c → ∃ c', c' ∈ clauses' ∧ (- l) ∈ c').
Proof.
  unfold DPLL._propagate.
  destruct (DPLL.unit_loop fuel clauses m st) as [[[[cs1|] m1] st1]| |] eqn:Hu;
    [|done..].
  apply unit_loop_no_unit in Hu. rewrite find_unit_None in Hu.
  intros [Hnone Hsub]%pure_loop_fixpoint. split.
  - intros c Hc. by apply Hu, Hsub.
  - by apply find_pure_None.
Qed.

Lemma dpll_propagate_fixpoint_witness :
  DPLL._propagate 9 [[1; 2]; [-1; -2]; [3]; [4; -3; 1]] ∅ (DPLL.Stats 0 0 0 0)
  = DPLL.Ret (Some [[1; 2]; [-1; -2]], {[3 := true; 4 := true]},
              DPLL.Stats 0 0 1 1)
  ∧ ∀ c : list Z, c ∈ [[1; 2]; [-1; -2]] → length c ≠ 1%nat.
Proof.
  assert (DPLL._propagate 9 [[1; 2]; [-1; -2]; [3]; [4; -3; 1]] ∅
            (DPLL.Stats 0 0 0 0)
          = DPLL.Ret (Some [[1; 2]; [-1; -2]], {[3 := true; 4 := true]},
                      DPLL.Stats 0 0 1 1))
    as H by (vm_compute; reflexivity).
  split; [exact H|].
  exact (proj1 (dpll_propagate_fixpoint _ _ _ _ _ _ _ H)).
Defined.

(** ** [DPLLSolver]: the model and the counters *)

Lemma model_formula_elem (M : gmap Z bool) (cs : formula) :
  DPLL.model_formula M cs = true
  ↔ ∀ c, c ∈ cs → ∃ l, l ∈ c ∧ M !! Z.abs l = Some (0 <? l).
Proof.
  unfold DPLL.model_formula, DPLL.model_clause, DPLL.model_lit.
  rewrite forallb_forall. split.
  - intros H c Hc%list_elem_of_In. apply H, existsb_exists in Hc
      as (l & Hl%list_elem_of_In & Hm%bool_decide_eq_true).
    by exists l.
  - intros H c Hc%list_elem_of_In. apply H in Hc as (l & Hl & Hm).
    apply existsb_exists. exists l. split; [by apply list_elem_of_In|].
    by apply bool_decide_eq_true.
Qed.

Lemma simplify_model_back cs u cs1 (M : gmap Z bool) :
  DPLL._simplify cs u = Some cs1 →
  M !! Z.abs u = Some (0 <? u) →
  DPLL.model_formula M cs1 = true → DPLL.model_formula M cs = true.
Proof.
  intros Hs Hu. rewrite !model_formula_elem. intros H1 c Hc.
  destruct (decide (u ∈ c)) as [Hin|Hin]; [by exists u|].
  destruct (H1 (filter (λ x, x ≠ - u) c))
    as (l & [_ Hl]%list_elem_of_filter & Hm).
  { apply (elem_of_simplify _ _ _ _ Hs). by exists c. }
  by exists l.
Qed.

Lemma filter_model_back (cs : formula) p (M : gmap Z bool) :
  M !! Z.abs p = Some (0 <? p) →
  DPLL.model_formula M (filter (λ c, p ∉ c) cs) = true →
  DPLL.model_formula M cs = true.
Proof.
  intros Hp. rewrite !model_formula_elem. intros H1 c Hc.
  destruct (decide (p ∈ c)) as [Hin|Hin]; [by exists p|].
  apply H1. by apply list_elem_of_filter.
Qed.

Lemma find_unit_var cs u :
  DPLL._find_unit cs = Some u → Z.abs u ∈ formula_vars cs.
Proof.
  intros Hu%find_unit_elem. apply elem_of_formula_vars.
  exists [u], u. split_and!; [done|left|done].
Qed.

Lemma find_pure_var cs p :
  DPLL._find_pure cs = Some p → Z.abs p ∈ formula_vars cs.
Proof.
  intros [(c & Hc & Hp) _]%find_pure_spec. apply elem_of_formula_vars.
  by exists c, p.
Qed.

Lemma filter_pure_vars (cs : formula) p :
  DPLL._find_pure cs = Some p →
  formula_vars (filter (λ c, p ∉ c) cs) ⊆ formula_vars cs ∖ {[Z.abs p]}.
Proof.
  intros [_ Hpure]%find_pure_spec x (c & l & Hc & Hl & ->)%elem_of_formula_vars.
  apply list_elem_of_filter in Hc as [Hp Hc].
  apply elem_of_difference. split.
  - apply elem_of_formula_vars. by exists c, l.
  - rewrite elem_of_singleton. intros Habs.
    assert (l = p ∨ l = - p) as [->| ->] by lia; [done|].
    by apply (Hpure c).
Qed.

Lemma unit_loop_stats fuel cs m st r m' st' :
  DPLL.unit_loop fuel cs m st = DPLL.Ret (r, m', st') →
  DPLL.decisions st' = DPLL.decisions st
  ∧ DPLL.backtracks st' = DPLL.backtracks st.
Proof.
  revert cs m st. induction fuel as [|fuel IH]; intros cs m st;
    cbn [DPLL.unit_loop]; [done|].
  destruct (DPLL._find_unit cs) as [u|].
  - destruct (DPLL._simplify cs u) as [cs1|].
    + by intros [? ?]%IH.
    + by intros [= <- <- <-].
  - by intros [= <- <- <-].
Qed.

Lemma pure_loop_stats fuel cs m st r m' st' :
  DPLL.pure_loop fuel cs m st = DPLL.Ret (r, m', st') →
  DPLL.decisions st' = DPLL.decisions st
  ∧ DPLL.backtracks st' = DPLL.backtracks st.
Proof.
  revert cs m st. induction fuel as [|fuel IH]; intros cs m st;
    cbn [DPLL.pure_loop]; [done|].
  destruct (DPLL._find_pure cs) as [p|].
  - by intros [? ?]%IH.
  - by intros [= <- <- <-].
Qed.

Lemma propagate_stats fuel cs m st r m' st' :
  DPLL._propagate fuel cs m st = DPLL.Ret (r, m', st') →
  DPLL.decisions st' = DPLL.decisions st
  ∧ DPLL.backtracks st' = DPLL.backtracks st.
Proof.
  unfold DPLL._propagate.
  destruct (DPLL.unit_loop fuel cs m st) as [[[[cs1|] m1] st1]| |] eqn:Hu;
    [| |done..].
  - apply unit_loop_stats in Hu as [Hd Hb].
    intros [Hd' Hb']%pure_loop_stats. split; congruence.
  - apply unit_loop_stats in Hu as [Hd Hb]. by intros [= <- <- <-].
Qed.

Lemma model_step_refl cs m : model_step cs m cs m.
Proof. done. Qed.

Lemma model_step_trans cs1 m1 cs2 m2 cs3 m3 :
  model_step cs1 m1 cs2 m2 → model_step cs2 m2 cs3 m3 →
  model_step cs1 m1 cs3 m3.
Proof.
  intros (Hv1 & Hf1 & Hb1) (Hv2 & Hf2 & Hb2). split_and!.
  - set_solver.
  - intros k Hk. rewrite Hf2 by set_solver. by apply Hf1.
  - intros M HM H3. apply Hb1.
    + intros k Hk. rewrite <- Hf2 by done.
      destruct (decide (k ∈ formula_vars cs3)) as [Hin|Hin]; [set_solver|].
      by apply HM.
    + by apply Hb2.
Qed.

Lemma model_step_assign cs (m : gmap Z bool) l cs1 :
  Z.abs l ∈ formula_vars cs →
  formula_vars cs1 ⊆ formula_vars cs ∖ {[Z.abs l]} →
  (∀ M : gmap Z bool, M !! Z.abs l = Some (0 <? l) →
     DPLL.model_formula M cs1 = true → DPLL.model_formula M cs = true) →
  model_step cs m cs1 (<[Z.abs l := (0 <? l)]> m).
Proof.
  intros Hl Hv Hb. split_and!.
  - set_solver.
  - intros k Hk. apply lookup_insert_ne. by intros <-.
  - intros M HM. apply Hb. rewrite HM by set_solver.
    apply lookup_insert_eq.
Qed.

Lemma unit_loop_model fuel cs m st cs' m' st' :
  DPLL.unit_loop fuel cs m st = DPLL.Ret (Some cs', m', st') →
  model_step cs m cs' m'.
Proof.
  revert cs m st. induction fuel as [|fuel IH]; intros cs m st;
    cbn [DPLL.unit_loop]; [done|].
  destruct (DPLL._find_unit cs) as [u|] eqn:Hu.
  - destruct (DPLL._simplify cs u) as [cs1|] eqn:Hs; [|done].
    intros H%IH. eapply model_step_trans; [|exact H].
    apply model_step_assign.
    + by apply find_unit_var.
    + by apply simplify_vars.
    + intros M. by apply simplify_model_back.
  - intros [= <- <- <-]. apply model_step_refl.
Qed.

Lemma pure_loop_model fuel cs m st cs' m' st' :
  DPLL.pure_loop fuel cs m st = DPLL.Ret (Some cs', m', st') →
  model_step cs m cs' m'.
Proof.
  revert cs m st. induction fuel as [|fuel IH]; intros cs m st;
    cbn [DPLL.pure_loop]; [done|].
  destruct (DPLL._find_pure cs) as [p|] eqn:Hp.
  - intros H%IH. eapply model_step_trans; [|exact H].
    apply model_step_assign.
    + by apply find_pure_var.
    + by apply filter_pure_vars.
    + intros M. by apply filter_model_back.
  - intros [= <- <- <-]. apply model_step_refl.
Qed.

Lemma propagate_model fuel cs m st cs' m' st' :
  DPLL._propagate fuel cs m st = DPLL.Ret (Some cs', m', st') →
  model_step cs m cs' m'.
Proof.
  unfold DPLL._propagate.
  destruct (DPLL.unit_loop fuel cs m st) as [[[[cs1|] m1] st1]| |] eqn:Hu;
    [|done..].
  apply unit_loop_model in Hu. intros Hp%pure_loop_model.
  by eapply model_step_trans.
Qed.

Lemma branch_stats rec truths pivot cs m st r st' :
  (∀ new m1 st1 r1 st2, rec new m1 st1 = DPLL.Ret (r1, st2) →
     (DPLL.decisions st1 ≤ DPLL.decisions st2)%nat
     ∧ (DPLL.backtracks st2 - DPLL.backtracks st1
        ≤ 2 * (DPLL.decisions st2 - DPLL.decisions st1))%nat
     ∧ (DPLL.backtracks st1 ≤ DPLL.backtracks st2)%nat
     ∧ (r1 = None →
        (DPLL.backtracks st2 - DPLL.backtracks st1
         = 2 * (DPLL.decisions st2 - DPLL.decisions st1))%nat)) →
  DPLL.branch rec truths pivot cs m st = DPLL.Ret (r, st') →
  (DPLL.decisions st ≤ DPLL.decisions st')%nat
  ∧ (DPLL.backtracks st ≤ DPLL.backtracks st')%nat
  ∧ (DPLL.backtracks st' - DPLL.backtracks st
     ≤ length truths + 2 * (DPLL.decisions st' - DPLL.decisions st))%nat
  ∧ (r = None →
     (DPLL.backtracks st' - DPLL.backtracks st
      = length truths + 2 * (DPLL.decisions st' - DPLL.decisions st))%nat).
Proof.
  intros Hrec. revert st. induction truths as [|t truths IH]; intros st;
    cbn [DPLL.branch length].
  - intros [= <- <-]. split_and!; [lia..|]. intros _. lia.
  - destruct (DPLL._simplify cs (if t then pivot else - pivot)) as [new|].
    + destruct (rec new (<[Z.abs pivot := t]> m) st)
        as [[[r1|] st1]| |] eqn:Hr; [| |done..].
      * intros [= <- <-]. apply Hrec in Hr as (? & ? & ? & _).
        split_and!; [lia..|done].
      * apply Hrec in Hr as (? & ? & ? & Heq). specialize (Heq eq_refl).
        intros (? & ? & ? & Hnone)%IH. cbn in *.
        split_and!; [lia..|]. intros Hr. specialize (Hnone Hr). lia.
    + intros (? & ? & ? & Hnone)%IH. cbn in *.
      split_and!; [lia..|]. intros Hr. specialize (Hnone Hr). lia.
Qed.

Lemma solve_rec_stats fuel cs m st r st' :
  DPLL.solve_rec fuel cs m st = DPLL.Ret (r, st') →
  (DPLL.decisions st ≤ DPLL.decisions st')%nat
  ∧ (DPLL.backtracks st' - DPLL.backtracks st
     ≤ 2 * (DPLL.decisions st' - DPLL.decisions st))%nat
  ∧ (DPLL.backtracks st ≤ DPLL.backtracks st')%nat
  ∧ (r = None →
     (DPLL.backtracks st' - DPLL.backtracks st
      = 2 * (DPLL.decisions st' - DPLL.decisions st))%nat).
Proof.
  revert cs m st r st'. induction fuel as [|fuel IH]; intros cs m st r st';
    cbn [DPLL.solve_rec]; [done|].
  destruct (DPLL._propagate (S fuel) cs m st)
    as [[[[cs1|] m1] st1]| |] eqn:Hp; [| |done..].
  - apply propagate_stats in Hp as [Hd Hb].
    destruct cs1 as [|[|pivot c] cs1]; [|done|].
    + intros [= <- <-]. split_and!; [lia..|done].
    + intros (? & ? & ? & Hnone)%branch_stats; [|intros *; apply IH].
      cbn in *. split_and!; [lia..|]. intros Hr. specialize (Hnone Hr). lia.
  - apply propagate_stats in Hp as [Hd Hb]. intros [= <- <-].
    split_and!; [lia..|]. intros _. lia.
Qed.

(** X13.  The counters of a finished search: there are at most two
    backtracks for each decision, and exactly two when the verdict is
    UNSAT. *)
Theorem dpll_backtracks_bound (fuel : nat) (cnf : formula) r st :
  DPLL.solve fuel cnf = DPLL.Ret (r, st) →
  (DPLL.backtracks st ≤ 2 * DPLL.decisions st)%nat
  ∧ (r = None → DPLL.backtracks st = (2 * DPLL.decisions st)%nat).
Proof.
  unfold DPLL.solve. intros (? & ? & ? & Hnone)%solve_rec_stats. cbn in *.
  split; [lia|]. intros Hr. specialize (Hnone Hr). lia.
Qed.

Lemma dpll_backtracks_bound_witness :
  DPLL.solve 9 [[1; 2]; [-1; 2]; [1; -2]; [-1; -2]]
  = DPLL.Ret (None, DPLL.Stats 1 2 2 0)
  ∧ (2 ≤ 2 * 1)%nat.
Proof.
  assert (DPLL.solve 9 [[1; 2]; [-1; 2]; [1; -2]; [-1; -2]]
          = DPLL.Ret (None, DPLL.Stats 1 2 2 0))
    as H by (vm_compute; reflexivity).
  split; [exact H|].
  exact (proj1 (dpll_backtracks_bound _ _ _ _ H)).
Defined.

Lemma branch_frame rec truths pivot cs m st r st' :
  Z.abs pivot ∈ formula_vars cs →
  (∀ new m1 st1 r1 st2, rec new m1 st1 = DPLL.Ret (Some r1, st2) →
     ∀ k, k ∉ formula_vars new → r1 !! k = m1 !! k) →
  DPLL.branch rec truths pivot cs m st = DPLL.Ret (Some r, st') →
  ∀ k, k ∉ formula_vars cs → r !! k = m !! k.
Proof.
  intros Hpivot Hrec (t & new & st1 & _ & Hs & Hr)%branch_Some k Hk.
  apply simplify_vars in Hs.
  rewrite (Hrec _ _ _ _ _ Hr) by set_solver.
  apply lookup_insert_ne. by intros <-.
Qed.

Lemma solve_rec_frame fuel cs m st r st' :
  DPLL.solve_rec fuel cs m st = DPLL.Ret (Some r, st') →
  ∀ k, k ∉ formula_vars cs → r !! k = m !! k.
Proof.
  revert cs m st r st'. induction fuel as [|fuel IH]; intros cs m st r st';
    cbn [DPLL.solve_rec]; [done|].
  destruct (DPLL._propagate (S fuel) cs m st)
    as [[[[cs1|] m1] st1]| |] eqn:Hp; [|done..].
  apply propagate_model in Hp as (Hv & Hf & _).
  destruct cs1 as [|[|pivot c] cs1]; [|done|].
  - intros [= <- <-]. exact Hf.
  - intros Hb k Hk. rewrite <- Hf by done.
    eapply branch_frame; [|intros *; apply IH|exact Hb|set_solver].
    apply elem_of_formula_vars. exists (pivot :: c), pivot.
    split_and!; [left|left|done].
Qed.

(** X14.  A model returned by [DPLLSolver.solve] assigns only variables
    of the formula. *)
Theorem dpll_model_domain (fuel : nat) (cnf : formula) m st :
  DPLL.solve fuel cnf = DPLL.Ret (Some m, st) →
  dom m ⊆ formula_vars cnf.
Proof.
  unfold DPLL.solve. rewrite list_fmap_id. intros H k Hk.
  destruct (decide (k ∈ formula_vars cnf)) as [|Hnot]; [done|].
  apply elem_of_dom in Hk as [b Hb].
  rewrite (solve_rec_frame _ _ _ _ _ _ H k Hnot) in Hb. done.
Qed.

Lemma dpll_model_domain_witness :
  DPLL.solve 5 [[-1; 2]; [1; -2]]
  = DPLL.Ret (Some {[1 := true; 2 := false]}, DPLL.Stats 1 0 1 0)
  ∧ dom ({[1 := true; 2 := false]} : gmap Z bool)
    ⊆ formula_vars [[-1; 2]; [1; -2]].
Proof.
  assert (DPLL.solve 5 [[-1; 2]; [1; -2]]
          = DPLL.Ret (Some {[1 := true; 2 := false]}, DPLL.Stats 1 0 1 0))
    as H by (vm_compute; reflexivity).
  split; [exact H|]. exact (dpll_model_domain _ _ _ _ H).
Defined.

Lemma solve_rec_no_decision fuel cs m st r st' :
  DPLL.solve_rec fuel cs m st = DPLL.Ret (Some r, st') →
  DPLL.decisions st' = DPLL.decisions st →
  DPLL.model_formula r cs = true.
Proof.
  destruct fuel as [|fuel]; cbn [DPLL.solve_rec]; [done|].
  destruct (DPLL._propagate (S fuel) cs m st)
    as [[[[cs1|] m1] st1]| |] eqn:Hp; [|done..].
  pose proof (propagate_stats _ _ _ _ _ _ _ Hp) as [Hd _].
  apply propagate_model in Hp as (_ & _ & Hback).
  destruct cs1 as [|[|pivot c] cs1]; [|done|].
  - intros [= <- <-] _. by apply Hback.
  - intros (? & _)%branch_stats; [|intros *; apply solve_rec_stats].
    cbn in *. lia.
Qed.

(** X15.  When the search ends without a decision (unit propagation and
    pure-literal elimination suffice), the model returned makes a literal
    of every clause of the formula true. *)
Theorem dpll_model_without_decision (fuel : nat) (cnf : formula) m st :
  DPLL.solve fuel cnf = DPLL.Ret (Some m, st) →
  DPLL.decisions st = 0%nat →
  DPLL.model_formula m cnf = true.
Proof.
  unfold DPLL.solve. rewrite list_fmap_id. intros H Hd.
  by eapply solve_rec_no_decision.
Qed.

Lemma dpll_model_without_decision_witness :
  DPLL.solve 5 [[1; 2]; [-1]]
  = DPLL.Ret (Some {[1 := false; 2 := true]}, DPLL.Stats 0 0 2 0)
  ∧ DPLL.model_formula {[1 := false; 2 := true]} [[1; 2]; [-1]] = true.
Proof.
  assert (DPLL.solve 5 [[1; 2]; [-1]]
          = DPLL.Ret (Some {[1 := false; 2 := true]}, DPLL.Stats 0 0 2 0))
    as H by (vm_compute; reflexivity).
  split; [exact H|].
  exact (dpll_model_without_decision _ _ _ _ H eq_refl).
Defined.

(** ** [DPLLSolver]: the recursion limit *)

Lemma unit_loop_mono fuel fuel' cs m st x :
  DPLL.unit_loop fuel cs m st = DPLL.Ret x → (fuel ≤ fuel')%nat →
  DPLL.unit_loop fuel' cs m st = DPLL.Ret x.
Proof.
  revert fuel' cs m st. induction fuel as [|fuel IH]; intros fuel' cs m st;
    [done|].
  intros Hrun Hle. destruct fuel' as [|fuel']; [lia|].
  cbn [DPLL.unit_loop] in *.
  destruct (DPLL._find_unit cs) as [u|]; [|done].
  destruct (DPLL._simplify cs u) as [cs1|]; [|done].
  apply IH; [done|lia].
Qed.

Lemma pure_loop_mono fuel fuel' cs m st x :
  DPLL.pure_loop fuel cs m st = DPLL.Ret x → (fuel ≤ fuel')%nat →
  DPLL.pure_loop fuel' cs m st = DPLL.Ret x.
Proof.
  revert fuel' cs m st. induction fuel as [|fuel IH]; intros fuel' cs m st;
    [done|].
  intros Hrun Hle. destruct fuel' as [|fuel']; [lia|].
  cbn [DPLL.pure_loop] in *.
  destruct (DPLL._find_pure cs) as [p|]; [|done].
  apply IH; [done|lia].
Qed.

Lemma propagate_mono fuel fuel' cs m st x :
  DPLL._propagate fuel cs m st = DPLL.Ret x → (fuel ≤ fuel')%nat →
  DPLL._propagate fuel' cs m st = DPLL.Ret x.
Proof.
  unfold DPLL._propagate. intros Hrun Hle.
  destruct (DPLL.unit_loop fuel cs m st) as [[[[cs1|] m1] st1]| |] eqn:Hu;
    [| |done..].
  - rewrite (unit_loop_mono _ _ _ _ _ _ Hu Hle). by eapply pure_loop_mono.
  - by rewrite (unit_loop_mono _ _ _ _ _ _ Hu Hle).
Qed.

Lemma branch_limited_agrees recL rec truths pivot cs m st r :
  (∀ reduced m' st' r',
     recL reduced m' st' = DPLL.Within (DPLL.Ret r') →
     rec reduced m' st' = DPLL.Ret r') →
  DPLL.branch_limited recL truths pivot cs m st = DPLL.Within (DPLL.Ret r) →
  DPLL.branch rec truths pivot cs m st = DPLL.Ret r.
Proof.
  intros Hrec. revert st. induction truths as [|t truths IH]; intros st;
    cbn [DPLL.branch_limited DPLL.branch].
  - by intros [= <-].
  - destruct (DPLL._simplify cs (if t then pivot else - pivot)) as [reduced|];
      [|apply IH].
    destruct (recL reduced (<[Z.abs pivot := t]> m) st)
      as [[[[result|] st']| |]|] eqn:HL; [| |done..].
    + rewrite (Hrec _ _ _ _ HL). by intros [= <-].
    + rewrite (Hrec _ _ _ _ HL). apply IH.
Qed.

(** Within the limit the run is the run of [solve_rec]. *)
Lemma solve_rec_limited_agrees depth fuel fuel' cs m st r :
  DPLL.solve_rec_limited fuel depth cs m st = DPLL.Within (DPLL.Ret r) →
  (fuel + depth ≤ fuel')%nat →
  DPLL.solve_rec fuel' cs m st = DPLL.Ret r.
Proof.
  revert fuel' cs m st r. induction depth as [|depth IH];
    intros fuel' cs m st r; [done|].
  intros Hrun Hle. destruct fuel' as [|fuel']; [lia|].
  cbn [DPLL.solve_rec_limited DPLL.solve_rec] in *.
  destruct (DPLL._propagate fuel cs m st) as [[[[cs1|] m1] st1]| |] eqn:Hp;
    [| |done..].
  - rewrite (propagate_mono _ (S fuel') _ _ _ _ Hp) by lia.
    destruct cs1 as [|[|pivot c] cs1]; [by injection Hrun as <-|done|].
    eapply branch_limited_agrees; [|exact Hrun].
    intros reduced m' st' r' Hr. eapply IH; [exact Hr|lia].
  - rewrite (propagate_mono _ (S fuel') _ _ _ _ Hp) by lia.
    by injection Hrun as <-.
Qed.

Lemma branch_limited_safe rec truths pivot cs m st :
  (∀ reduced m' st', all_nonempty reduced →
     rec reduced m' st' ≠ DPLL.Within DPLL.IndexError) →
  all_nonempty cs →
  DPLL.branch_limited rec truths pivot cs m st ≠ DPLL.Within DPLL.IndexError.
Proof.
  intros Hrec Hcs. revert st.
  induction truths as [|truth truths IH]; intros st; [done|].
  cbn [DPLL.branch_limited].
  destruct (DPLL._simplify cs (if truth then pivot else - pivot))
    as [reduced|] eqn:Hs; [|apply IH].
  pose proof (Hrec reduced (<[Z.abs pivot := truth]> m) st
                (simplify_nonempty _ _ _ Hs Hcs)) as Hok.
  destruct (rec reduced (<[Z.abs pivot := truth]> m) st)
    as [[[[result|] st']| |]|]; [done|apply IH|done..].
Qed.

Lemma solve_rec_limited_safe fuel depth cs m st :
  all_nonempty cs →
  DPLL.solve_rec_limited fuel depth cs m st ≠ DPLL.Within DPLL.IndexError.
Proof.
  revert cs m st. induction depth as [|depth IH]; intros cs m st Hcs; [done|].
  cbn [DPLL.solve_rec_limited].
  pose proof (propagate_no_error fuel cs m st) as Herr.
  destruct (DPLL._propagate fuel cs m st)
    as [[[[[|c cs1]|] m1] st1]| |] eqn:Hp; [done| |done..].
  apply propagate_nonempty in Hp; [|done].
  destruct c as [|pivot c]; [by apply Forall_cons in Hp as [? _]|].
  apply branch_limited_safe; [|done]. intros reduced m' st' Hr. by apply IH.
Qed.

Lemma branch_limited_ends n k truths pivot cs m st :
  (∀ (t : bool) reduced,
     DPLL._simplify cs (if t then pivot else - pivot) = Some reduced →
     ∀ m' st', ∃ res, ∀ fuel d, (n ≤ fuel)%nat → (k ≤ d)%nat →
       DPLL.solve_rec_limited fuel d reduced m' st'
       = DPLL.Within (DPLL.Ret res)) →
  ∃ res, ∀ fuel d, (n ≤ fuel)%nat → (k ≤ d)%nat →
    DPLL.branch_limited (DPLL.solve_rec_limited fuel d) truths pivot cs m st
    = DPLL.Within (DPLL.Ret res).
Proof.
  intros Hrec. revert st. induction truths as [|t truths IH]; intros st.
  { by exists (None, st). }
  cbn [DPLL.branch_limited].
  destruct (DPLL._simplify cs (if t then pivot else - pivot))
    as [reduced|] eqn:Hs; [|apply IH].
  destruct (Hrec t reduced Hs (<[Z.abs pivot := t]> m) st)
    as ([[result|] st'] & Hrun).
  - exists (Some result, st'). intros fuel d Hf Hd. by rewrite Hrun.
  - destruct (IH (DPLL.incr_backtracks st')) as (res & Hrest).
    exists res. intros fuel d Hf Hd. rewrite Hrun by done. by apply Hrest.
Qed.

Lemma simplify_vars_lt cs pivot c (t : bool) reduced :
  (pivot :: c) ∈ cs →
  DPLL._simplify cs (if t then pivot else - pivot) = Some reduced →
  (size (formula_vars reduced) < size (formula_vars cs))%nat.
Proof.
  intros Hc Hs. apply simplify_vars in Hs.
  assert (Z.abs pivot ∈ formula_vars cs) as Hin.
  { apply elem_of_formula_vars. exists (pivot :: c), pivot.
    split_and!; [done|left|done]. }
  assert (Z.abs (if t then pivot else - pivot) = Z.abs pivot) as Habs
    by (destruct t; lia).
  rewrite Habs in Hs. apply subset_size. split.
  - intros x Hx. apply Hs in Hx. by apply elem_of_difference in Hx as [? _].
  - intros Hsub. specialize (Hs _ (Hsub _ Hin)).
    apply elem_of_difference in Hs as [_ Hnot]. apply Hnot.
    by apply elem_of_singleton.
Qed.

(** With room for one more nested call than the formula has variables
    (and fuel for the loops) the run ends within the limit, in one fixed
    result. *)
Lemma solve_rec_limited_ends k :
  ∀ n cs m st,
    (size (formula_vars cs) < k)%nat → (lit_count cs < n)%nat →
    all_nonempty cs →
    ∃ res, ∀ fuel d, (n ≤ fuel)%nat → (k ≤ d)%nat →
      DPLL.solve_rec_limited fuel d cs m st = DPLL.Within (DPLL.Ret res).
Proof.
  induction k as [|k IH]; intros n cs m st Hk Hn Hcs; [lia|].
  destruct (propagate_total n cs m st Hn) as (r & m1 & st1 & Hrun & Hprop).
  destruct r as [[|c cs1]|].
  - exists (Some m1, st1). intros fuel [|d] Hf Hd; [lia|].
    cbn [DPLL.solve_rec_limited]. by rewrite Hrun.
  - destruct (Hprop _ eq_refl) as [Hsize Hne]. specialize (Hne Hcs).
    pose proof (Hrun n ltac:(lia)) as (Hvars & _)%propagate_model.
    destruct c as [|pivot c]; [by apply Forall_cons in Hne as [? _]|].
    destruct (branch_limited_ends n k [true; false] pivot
                ((pivot :: c) :: cs1) m1 (DPLL.incr_decisions st1))
      as (res & Hbranch).
    { intros t reduced Hs m' st'. apply IH.
      - pose proof (simplify_vars_lt _ pivot c t reduced ltac:(left) Hs).
        apply subseteq_size in Hvars. lia.
      - assert (lit_count reduced < lit_count ((pivot :: c) :: cs1))%nat;
          [|lia].
        eapply (simplify_size _ _ _ (pivot :: c)); [exact Hs|left|].
        destruct t; [left; left|right; rewrite Z.opp_involutive; left].
      - by eapply simplify_nonempty. }
    exists res. intros fuel [|d] Hf Hd; [lia|].
    cbn [DPLL.solve_rec_limited]. rewrite Hrun by done.
    apply Hbranch; [done|lia].
  - exists (None, st1). intros fuel [|d] Hf Hd; [lia|].
    cbn [DPLL.solve_rec_limited]. by rewrite Hrun.
Qed.

(** C10.  If every clause of the input is non-empty, [DPLLSolver.solve]
    never raises [IndexError] at [clauses[0][0]], whatever the fuel, and
    neither does it under a recursion limit, whatever the limit.  If the
    interpreter has room for more nested calls of [solve] than the
    formula has variables, then with more fuel than literal occurrences
    the run ends within the limit in one fixed result, a model or
    [None]. *)
Theorem dpll_pivot_in_bounds (cnf : formula) :
  Forall (λ c, c ≠ []) cnf →
  (∀ fuel, DPLL.solve fuel cnf ≠ DPLL.IndexError)
  ∧ (∀ fuel depth,
       DPLL.solve_limited fuel depth cnf ≠ DPLL.Within DPLL.IndexError)
  ∧ ∃ result st, ∀ fuel depth,
      (lit_count cnf < fuel)%nat →
      (size (formula_vars cnf) < depth)%nat →
      DPLL.solve_limited fuel depth cnf
      = DPLL.Within (DPLL.Ret (result, st)).
Proof.
  intros Hcnf. unfold DPLL.solve, DPLL.solve_limited. rewrite list_fmap_id.
  split_and!.
  - intros fuel. by apply solve_rec_safe.
  - intros fuel depth. by apply solve_rec_limited_safe.
  - destruct (solve_rec_limited_ends (S (size (formula_vars cnf)))
                (S (lit_count cnf)) cnf ∅ (DPLL.Stats 0 0 0 0))
      as ([result st] & Hrun); [lia|lia|done|].
    exists result, st. intros fuel depth Hf Hd. apply Hrun; lia.
Qed.

Lemma dpll_pivot_in_bounds_witness :
  Forall (λ c : list Z, c ≠ []) [[1; -2]; [2; -3]; [3; -1]]
  ∧ DPLL.solve 5 [[1; -2]; [2; -3]; [3; -1]]
    = DPLL.Ret (Some {[1 := true; 3 := true; 2 := true]}, DPLL.Stats 1 0 2 0)
  ∧ (∀ fuel, DPLL.solve fuel [[1; -2]; [2; -3]; [3; -1]] ≠ DPLL.IndexError)
  ∧ DPLL.solve_limited 7 4 [[1; -2]; [2; -3]; [3; -1]]
    = DPLL.Within
        (DPLL.Ret (Some {[1 := true; 3 := true; 2 := true]}, DPLL.Stats 1 0 2 0))
  ∧ DPLL.solve_limited 7 1 [[1; -2]; [2; -3]; [3; -1]] = DPLL.RecursionError.
Proof.
  assert (Forall (λ c : list Z, c ≠ []) [[1; -2]; [2; -3]; [3; -1]]) as H.
  { repeat constructor; discriminate. }
  split; [exact H|]. split; [vm_compute; reflexivity|].
  destruct (dpll_pivot_in_bounds [[1; -2]; [2; -3]; [3; -1]] H)
    as (Hsafe & _ & _).
  split; [exact Hsafe|]. split; vm_compute; reflexivity.
Defined.

(** X16.  On a formula without an empty clause [DPLLSolver.solve]
    decides satisfiability: with room for more nested calls than the
    formula has variables and more fuel than literal occurrences, it
    returns a model exactly when the formula is satisfiable, and [None]
    exactly when it is not. *)
Theorem dpll_decides (fuel depth : nat) (cnf : formula) :
  all_nonempty cnf →
  (lit_count cnf < fuel)%nat →
  (size (formula_vars cnf) < depth)%nat →
  ((∃ m st, DPLL.solve_limited fuel depth cnf
            = DPLL.Within (DPLL.Ret (Some m, st)))
   ↔ satisfiable cnf)
  ∧ ((∃ st, DPLL.solve_limited fuel depth cnf
            = DPLL.Within (DPLL.Ret (None, st)))
     ↔ ¬ satisfiable cnf).
Proof.
  intros Hne Hfuel Hdepth. unfold DPLL.solve_limited. rewrite list_fmap_id.
  destruct (solve_rec_limited_ends (S (size (formula_vars cnf)))
              (S (lit_count cnf)) cnf ∅ (DPLL.Stats 0 0 0 0))
    as ([r st] & Hrun); [lia|lia|done|].
  specialize (Hrun fuel depth ltac:(lia) ltac:(lia)). rewrite Hrun.
  pose proof (solve_rec_limited_agrees _ _ _ _ _ _ _ Hrun (Nat.le_refl _))
    as Hsat%solve_rec_sat.
  destruct r as [m|].
  - split; split.
    + done.
    + intros _. by exists m, st.
    + by intros [st' [=]].
    + done.
  - split; split.
    + by intros (m & st' & [=]).
    + done.
    + done.
    + intros _. by exists st.
Qed.

Lemma dpll_decides_witness :
  all_nonempty [[1; -2]; [2; -3]; [3; -1]]
  ∧ (lit_count [[1; -2]; [2; -3]; [3; -1]]%Z < 7)%nat
  ∧ (size (formula_vars [[1; -2]; [2; -3]; [3; -1]]%Z) < 4)%nat
  ∧ ((∃ m st, DPLL.solve_limited 7 4 [[1; -2]; [2; -3]; [3; -1]]
              = DPLL.Within (DPLL.Ret (Some m, st)))
     ↔ satisfiable [[1; -2]; [2; -3]; [3; -1]]).
Proof.
  assert (all_nonempty [[1; -2]; [2; -3]; [3; -1]]) as Hne
    by (repeat constructor; discriminate).
  assert (lit_count [[1; -2]; [2; -3]; [3; -1]]%Z < 7)%nat as Hfuel
    by (cbn; lia).
  assert (size (formula_vars [[1; -2]; [2; -3]; [3; -1]]%Z) < 4)%nat as Hdepth
    by (vm_compute; lia).
  split; [exact Hne|]. split; [exact Hfuel|]. split; [exact Hdepth|].
  exact (proj1 (dpll_decides 7 4 [[1; -2]; [2; -3]; [3; -1]] Hne Hfuel Hdepth)).
Defined.

(** ** [ResolutionEngine]: the state after [solve] *)

Lemma init_bookkeeping cs : bookkeeping cs (Resolution.__init__ cs).
Proof.
  exists []. cbn. rewrite app_nil_r. split_and!; try done.
  - constructor.
  - intros c Hc. by apply elem_of_nil in Hc.
Qed.

Lemma add_resolvents_bookkeeping cs rs s :
  Forall (resolvent_of cs) rs →
  bookkeeping cs s →
  bookkeeping cs (Resolution.add_resolvents rs s).2.
Proof.
  revert s. induction rs as [|c rs IH]; intros s Hrs Hs; [done|].
  apply Forall_cons in Hrs as [Hc Hrs].
  cbn [Resolution.add_resolvents].
  cbn [Resolution.clauses_seen Resolution.clauses_initial
       Resolution.derived_indices Resolution.pairs Resolution.pool
       Resolution.total_count].
  destruct Hs as (new & Hpool & Hini & Hseen & Hder & Htot & Hnd & Hnew & Hp).
  destruct (decide (c ∉ Resolution.clauses_seen s)) as [Hfresh|Hold].
  - set (s2 := Resolution.State _ _ _ _ _ _).
    assert (bookkeeping cs s2) as Hs2.
    { exists (new ++ [c]). unfold s2. cbn. rewrite Hseen in Hfresh.
      rewrite elem_of_list_to_set, elem_of_app in Hfresh.
      split_and!.
      - by rewrite Hpool, app_assoc.
      - done.
      - rewrite Hseen, !list_to_set_app_L. cbn. set_solver.
      - rewrite Hder, Htot, length_app, seq_app. done.
      - rewrite Htot, length_app. cbn. lia.
      - apply NoDup_app. split_and!; [done| |apply NoDup_singleton].
        intros x Hx ->%list_elem_of_singleton. apply Hfresh. by right.
      - intros x [Hx| ->%list_elem_of_singleton]%elem_of_app; [by apply Hnew|].
        split; [|done]. intros Hin. apply Hfresh. by left.
      - rewrite length_app. cbn. lia. }
    destruct (decide (c = ∅)); [exact Hs2|by apply IH].
  - apply IH; [done|]. exists new. cbn. split_and!; try done. lia.
Qed.

Lemma add_resolvents_exit rs s :
  let r := Resolution.add_resolvents rs s in
  (r.1 = Some (Resolution.Returned true) → ∅ ∈ Resolution.pool r.2)
  ∧ (r.1 = None →
     (∀ c, c ∈ rs → c ∈ Resolution.clauses_seen r.2)
     ∧ (∅ ∈ Resolution.clauses_seen r.2 → ∅ ∈ Resolution.clauses_seen s)).
Proof.
  revert s. induction rs as [|c rs IH]; intros s; cbn zeta.
  { cbn. split; [done|]. intros _. split; [|done].
    intros c Hc. by apply elem_of_nil in Hc. }
  cbn [Resolution.add_resolvents].
  cbn [Resolution.clauses_seen Resolution.clauses_initial
       Resolution.derived_indices Resolution.pairs Resolution.pool
       Resolution.total_count].
  destruct (decide (c ∉ Resolution.clauses_seen s)) as [Hfresh|Hold].
  - set (s2 := Resolution.State _ _ _ _ _ _).
    destruct (decide (c = ∅)) as [->|Hne].
    + cbn [fst snd]. split; [|done]. intros _. unfold s2. cbn.
      apply elem_of_app. right. left.
    + destruct (IH s2) as [Htrue Hnone]. split; [done|].
      intros [Hall Hempty]%Hnone. split.
      * intros x [->|Hx]%elem_of_cons; [|by apply Hall].
        pose proof (add_resolvents_step rs s2) as (_ & _ & Hsub & _).
        apply Hsub. unfold s2. cbn.
        apply elem_of_union. left. by apply elem_of_singleton.
      * intros He%Hempty. unfold s2 in He. cbn in He.
        apply elem_of_union in He as [He%elem_of_singleton|He];
          [congruence|done].
  - set (s1 := Resolution.State _ _ _ _ _ _).
    destruct (IH s1) as [Htrue Hnone]. split; [done|].
    intros [Hall Hempty]%Hnone. split; [|done].
    intros x [->|Hx]%elem_of_cons; [|by apply Hall].
    pose proof (add_resolvents_step rs s1) as (_ & _ & Hsub & _).
    apply Hsub. unfold s1. cbn. by apply dec_stable.
Qed.

Section Resolution_more.
Variable set_iter : nat → gset Z → list Z.
Hypothesis set_iter_perm : ∀ i s, set_iter i s ≡ₚ elements s.

Lemma elem_of_resolve_pair i lhs rhs c :
  c ∈ Resolution._resolve_pair set_iter i lhs rhs
  ↔ ∃ lit, lit ∈ lhs ∧ (- lit) ∈ rhs
           ∧ c = (lhs ∖ {[ lit ]}) ∪ (rhs ∖ {[ - lit ]}).
Proof.
  unfold Resolution._resolve_pair. rewrite list_elem_of_fmap. split.
  - intros (lit & -> & [Hr Hl]%list_elem_of_filter).
    rewrite set_iter_perm, elem_of_elements in Hl. by exists lit.
  - intros (lit & Hl & Hr & ->). exists lit. split; [done|].
    apply list_elem_of_filter. split; [done|].
    by rewrite set_iter_perm, elem_of_elements.
Qed.

Lemma loop_j_post cs i js s :
  (i < length cs)%nat →
  Forall (λ j, (i < j < length cs)%nat) js →
  bookkeeping cs s →
  loop_post set_iter cs (λ i' j', i' = i ∧ j' ∈ js) s
            (Resolution.loop_j set_iter i js s).
Proof.
  revert s. induction js as [|j js IH]; intros s Hi Hjs Hs.
  { cbn. split_and!; [done..|]. intros _. split; [|done].
    intros ????? [_ H]. by apply elem_of_nil in H. }
  apply Forall_cons in Hjs as [Hj Hjs]. cbn [Resolution.loop_j].
  pose proof Hs as (new & Hpool & _).
  destruct (lookup_lt_is_Some_2 cs i Hi) as [lhs Hlhs].
  destruct (lookup_lt_is_Some_2 cs j) as [rhs Hrhs]; [lia|].
  rewrite Hpool, (lookup_app_l_Some _ _ _ _ Hlhs),
    (lookup_app_l_Some _ _ _ _ Hrhs).
  set (rs := Resolution._resolve_pair set_iter i lhs rhs).
  assert (Forall (resolvent_of cs) rs) as Hrs.
  { apply Forall_forall. intros c (lit & ? & ? & ->)%elem_of_resolve_pair.
    exists i, j, lit, lhs, rhs. split_and!; [lia|done..]. }
  pose proof (add_resolvents_bookkeeping cs rs s Hrs Hs) as Hbook.
  pose proof (add_resolvents_exit rs s) as [Htrue Hnone]. cbn zeta in *.
  pose proof (add_resolvents_step rs s) as (_ & _ & _ & Hf & Hr & _).
  destruct (Resolution.add_resolvents rs s) as [[e|] s1] eqn:Hadd;
    cbn [fst snd] in *.
  - split_and!; [done|done|done].
  - destruct (Hnone eq_refl) as [Hall Hempty].
    destruct (IH s1 Hi Hjs Hbook) as (Hb & Ht & Hn).
    pose proof (loop_j_step set_iter i js s1) as Hstep.
    split_and!; [done..|].
    intros [Hdone He]%Hn. split; [|by intros ?%He%Hempty].
    intros i' j' lhs' rhs' c [-> [->|Hin]%elem_of_cons] Hl' Hr' Hc.
    + rewrite Hlhs in Hl'. rewrite Hrhs in Hr'.
      injection Hl' as <-. injection Hr' as <-.
      destruct Hstep as (_ & _ & Hsub & _).
      * destruct Hbook as (new1 & -> & _). rewrite length_app. lia.
      * destruct Hbook as (new1 & -> & _).
        eapply Forall_impl; [exact Hjs|]. cbn. intros ? ?.
        rewrite length_app. lia.
      * apply Hsub. cbn. by apply Hall.
    + by apply (Hdone i j' lhs' rhs' c).
Qed.

Lemma loop_i_post cs idx s :
  Forall (λ i, (i < length cs)%nat) idx →
  bookkeeping cs s →
  loop_post set_iter cs (λ i j, i ∈ idx ∧ (i < j < length cs)%nat) s
            (Resolution.loop_i set_iter (length cs) idx s).
Proof.
  revert s. induction idx as [|i idx IH]; intros s Hidx Hs.
  { cbn. split_and!; [done..|]. intros _. split; [|done].
    intros ????? [H _]. by apply elem_of_nil in H. }
  apply Forall_cons in Hidx as [Hi Hidx]. cbn [Resolution.loop_i].
  assert (Forall (λ j, (i < j < length cs)%nat)
            (seq (S i) (length cs - S i))) as Hjs.
  { apply Forall_forall. intros j Hj%list_elem_of_In%in_seq. lia. }
  pose proof (loop_j_post cs i _ s Hi Hjs Hs) as (Hbook & Htrue & Hnone).
  destruct (Resolution.loop_j set_iter i _ s) as [[e|] s1] eqn:Hloop;
    cbn [fst snd] in *.
  - split_and!; [done|done|done].
  - destruct (Hnone eq_refl) as [Hall Hempty].
    destruct (IH s1 Hidx Hbook) as (Hb & Ht & Hn).
    pose proof (loop_i_step set_iter (length cs) idx s1) as Hstep.
    split_and!; [done..|].
    intros [Hdone He]%Hn. split; [|by intros ?%He%Hempty].
    intros i' j' lhs' rhs' c [[->|Hin]%elem_of_cons Hlt] Hl' Hr' Hc.
    + destruct Hstep as (_ & _ & Hsub & _).
      * destruct Hbook as (new1 & -> & _). rewrite length_app. lia.
      * done.
      * apply Hsub. cbn. apply (Hall i j' lhs' rhs' c); [|done..].
        split; [done|]. apply list_elem_of_In, in_seq. lia.
    + by apply (Hdone i' j' lhs' rhs' c).
Qed.

Lemma pass_post cs :
  loop_post set_iter cs (λ i j, (i < j < length cs)%nat) (Resolution.__init__ cs)
            (Resolution.pass set_iter (Resolution.__init__ cs)).
Proof.
  unfold Resolution.pass. cbn [Resolution.pool Resolution.__init__].
  destruct (loop_i_post cs (seq 0 (length cs)) (Resolution.__init__ cs))
    as (Hb & Ht & Hn).
  { apply Forall_forall. intros i Hi%list_elem_of_In%in_seq. lia. }
  { apply init_bookkeeping. }
  split_and!; [done..|]. intros [Hdone He]%Hn. split; [|done].
  intros i j lhs rhs c Hij. apply Hdone. split; [|done].
  apply list_elem_of_In, in_seq. lia.
Qed.

Lemma solve_loop_state fuel cs :
  (Resolution.solve_loop set_iter (S fuel) (Resolution.__init__ cs)).2
  = (Resolution.pass set_iter (Resolution.__init__ cs)).2
  ∧ (Resolution.solve_loop set_iter (S fuel) (Resolution.__init__ cs)).1
    = match (Resolution.pass set_iter (Resolution.__init__ cs)).1 with
      | None => Some (Resolution.Returned false)
      | r => r
      end.
Proof.
  rewrite solve_loop_one_pass by apply init_counts.
  by destruct (Resolution.pass set_iter _) as [[e|] s'].
Qed.

Lemma empty_resolvent (lhs rhs : gset Z) lit :
  lit ∈ lhs → (- lit) ∈ rhs →
  (lhs ∖ {[ lit ]}) ∪ (rhs ∖ {[ - lit ]}) = ∅ →
  lhs = {[ lit ]} ∧ rhs = {[ - lit ]}.
Proof.
  intros Hl Hr He.
  assert (∀ x, x ∉ (lhs ∖ {[ lit ]}) ∪ (rhs ∖ {[ - lit ]})) as Hnone.
  { intros x. rewrite He. apply not_elem_of_empty. }
  split; apply set_eq; intros x; rewrite elem_of_singleton;
    (split; [|by intros ->]); intros Hx;
    destruct (decide (x = lit)) as [|Hne1];
    destruct (decide (x = - lit)) as [|Hne2]; try done;
    exfalso; apply (Hnone x), elem_of_union;
    [left|left|right|right]; apply elem_of_difference;
    (split; [done|by rewrite elem_of_singleton]).
Qed.

Lemma solve_true_iff fuel cs :
  Resolution.solve set_iter (S fuel) cs = Some (Resolution.Returned true)
  ↔ (∅ ∉ cs)
    ∧ ∃ (i j : nat) l, (i < j)%nat ∧ cs !! i = Some {[ l ]}
                       ∧ cs !! j = Some {[ - l ]}.
Proof.
  unfold Resolution.solve.
  destruct (solve_loop_state fuel cs) as [_ ->].
  pose proof (pass_post cs) as (Hbook & Htrue & Hnone).
  pose proof (pass_pass_step set_iter (Resolution.__init__ cs))
    as (_ & _ & _ & Hf & Hr & Hseen).
  destruct (Resolution.pass set_iter (Resolution.__init__ cs))
    as [[[[]|]|] s']; cbn [fst snd] in *; try done.
  - split; [intros _|done].
    specialize (Hseen eq_refl).
    cbn [Resolution.clauses_seen Resolution.__init__] in Hseen.
    rewrite elem_of_list_to_set in Hseen.
    split; [done|].
    destruct Hbook as (new & Hpool & _ & _ & _ & _ & _ & Hnew & _).
    specialize (Htrue eq_refl). rewrite Hpool in Htrue.
    apply elem_of_app in Htrue as [?|Hin]; [done|].
    apply Hnew in Hin as [_ (i & j & lit & lhs & rhs & ? & ? & ? & ? & ? & He)].
    symmetry in He. apply empty_resolvent in He as [-> ->]; [|done..].
    by exists i, j, lit.
  - split; [done|]. intros [Hempty (i & j & l & Hij & Hl & Hr')]. exfalso.
    destruct (Hnone eq_refl) as [Hdone He].
    apply Hempty. rewrite <- (elem_of_list_to_set (C := gset (gset Z))).
    apply He. apply (Hdone i j {[ l ]} {[ - l ]} ∅); [|done..|].
    + apply lookup_lt_Some in Hr'. lia.
    + apply elem_of_resolve_pair. exists l.
      split_and!; [by apply elem_of_singleton..|].
      apply set_eq. intros x. rewrite elem_of_union, !elem_of_difference.
      rewrite elem_of_empty. tauto.
Qed.

(** X17.  What [ResolutionEngine.solve] answers, for every input and
    every enumeration order of the sets: it always returns after its
    first pass, and it returns [True] (UNSAT) exactly when the input
    does not hold the empty clause and holds two unit clauses [{l}] and
    [{-l}], the first before the second. *)
Theorem resolution_verdict (fuel : nat) (cs : list (gset Z)) :
  (∃ b, Resolution.solve set_iter (S fuel) cs = Some (Resolution.Returned b))
  ∧ (Resolution.solve set_iter (S fuel) cs = Some (Resolution.Returned true)
     ↔ (∅ ∉ cs)
       ∧ ∃ (i j : nat) l, (i < j)%nat ∧ cs !! i = Some {[ l ]}
                          ∧ cs !! j = Some {[ - l ]}).
Proof.
  split; [|apply solve_true_iff].
  destruct (solve_one_pass set_iter fuel cs) as [-> Hb]. exact Hb.
Qed.

Lemma frozenset_singleton (c : clause) l :
  Resolution.frozenset c = {[ l ]} → c ≠ [] ∧ ∀ x, x ∈ c → x = l.
Proof.
  unfold Resolution.frozenset. intros H. split.
  - intros ->. cbn in H. set_solver.
  - intros x Hx. assert (x ∈ (list_to_set c : gset Z)) as Hin
      by (by apply elem_of_list_to_set).
    rewrite H in Hin. by apply elem_of_singleton in Hin.
Qed.

Lemma unit_clause_true a (c : clause) l :
  c ≠ [] → (∀ x, x ∈ c → x = l) → clause_true a c = true →
  lit_true a l = true.
Proof.
  intros _ Hall (x & Hx & Ht)%clause_true_elem.
  by rewrite <- (Hall x Hx).
Qed.

(** X18.  On clauses without the literal [0], the answer [True] of
    [ResolutionEngine.solve] is right: the formula is unsatisfiable. *)
Theorem resolution_unsat_verdict_sound (fuel : nat) (cnf : formula) :
  (∀ c, c ∈ cnf → 0 ∉ c) →
  Resolution.solve set_iter fuel (Resolution.frozenset <$> cnf)
  = Some (Resolution.Returned true) →
  ¬ satisfiable cnf.
Proof.
  intros Hzero Hsolve [a Ha].
  destruct fuel as [|fuel]; [done|].
  apply solve_true_iff in Hsolve as [_ (i & j & l & _ & Hi & Hj)].
  apply list_lookup_fmap_Some in Hi as (c1 & Hf1 & Hc1).
  apply list_lookup_fmap_Some in Hj as (c2 & Hf2 & Hc2).
  symmetry in Hf1, Hf2.
  apply frozenset_singleton in Hf1 as [Hne1 Hall1].
  apply frozenset_singleton in Hf2 as [Hne2 Hall2].
  apply list_elem_of_lookup_2 in Hc1, Hc2.
  rewrite formula_true_elem in Ha.
  pose proof (unit_clause_true a c1 l Hne1 Hall1 (Ha _ Hc1)) as H1.
  pose proof (unit_clause_true a c2 (- l) Hne2 Hall2 (Ha _ Hc2)) as H2.
  assert (l ≠ 0) as Hl.
  { intros ->. destruct c1 as [|x c1]; [done|].
    apply (Hzero (x :: c1) Hc1). rewrite (Hall1 x) by left. left. }
  rewrite lit_true_opp, H1 in H2; done.
Qed.

Lemma solve_loop_bookkeeping fuel cs :
  bookkeeping cs (Resolution.solve_loop set_iter fuel (Resolution.__init__ cs)).2.
Proof.
  destruct fuel as [|fuel]; [apply init_bookkeeping|].
  destruct (solve_loop_state fuel cs) as [-> _]. apply pass_post.
Qed.

(** X19.  The state [ResolutionEngine.solve] leaves behind: the pool is
    the input followed by the derived clauses, which are pairwise
    distinct and not among the input; [clauses_seen] is the set of the
    clauses of the pool; [derived_indices] lists the 1-based positions of
    the derived clauses in the pool; and [stats["pairs"]] is at least the
    number of derived clauses. *)
Theorem resolution_bookkeeping (fuel : nat) (cs : list (gset Z)) :
  let s := (Resolution.solve_loop set_iter fuel (Resolution.__init__ cs)).2 in
  ∃ new,
    Resolution.pool s = cs ++ new
    ∧ Resolution.clauses_initial s = cs
    ∧ Resolution.clauses_seen s = list_to_set (Resolution.pool s)
    ∧ NoDup new ∧ (∀ c, c ∈ new → c ∉ cs)
    ∧ Resolution.derived_indices s = seq (S (length cs)) (length new)
    ∧ (∀ k n, Resolution.derived_indices s !! k = Some n →
              Resolution.pool s !! pred n = new !! k)
    ∧ size (Resolution.clauses_seen s)
      = (size (list_to_set cs : gset (gset Z)) + length new)%nat
    ∧ (length new ≤ Resolution.pairs s)%nat.
Proof.
  intros s.
  destruct (solve_loop_bookkeeping fuel cs)
    as (new & Hpool & Hini & Hseen & Hder & Htot & Hnd & Hnew & Hp).
  fold s in Hpool, Hini, Hseen, Hder, Htot, Hp.
  exists new. split_and!; try done.
  - by rewrite Hpool.
  - intros c Hc. by apply Hnew.
  - intros k n. rewrite Hder, Hpool. intros Hk.
    apply lookup_seq in Hk as [-> Hk]. cbn.
    rewrite lookup_app_r by lia. f_equal. lia.
  - rewrite Hseen, list_to_set_app_L, size_union.
    + by rewrite (size_list_to_set new).
    + intros c Hc1%elem_of_list_to_set Hc2%elem_of_list_to_set.
      by apply (Hnew c).
Qed.

(** X20.  When [ResolutionEngine.solve] answers [False], [clauses_seen]
    holds the input clauses and the resolvents of two input clauses (the
    first at an earlier position than the second), and nothing else:
    resolvents of derived clauses are never formed. *)
Theorem resolution_one_level (fuel : nat) (cs : list (gset Z)) :
  Resolution.solve set_iter (S fuel) cs = Some (Resolution.Returned false) →
  let s := (Resolution.solve_loop set_iter (S fuel) (Resolution.__init__ cs)).2 in
  ∀ c, c ∈ Resolution.clauses_seen s ↔ c ∈ cs ∨ resolvent_of cs c.
Proof.
  unfold Resolution.solve. intros Hsolve. cbv zeta. intros c.
  destruct (solve_loop_state fuel cs) as [-> Hv]. rewrite Hv in Hsolve.
  pose proof (pass_post cs) as (Hbook & _ & Hnone).
  pose proof (pass_pass_step set_iter (Resolution.__init__ cs))
    as (_ & _ & _ & Hf & _).
  destruct (Resolution.pass set_iter (Resolution.__init__ cs))
    as [[e|] s']; cbn [fst snd] in *; [done|].
  destruct (Hnone eq_refl) as [Hdone _].
  destruct Hbook as (new & _ & _ & Hseen & _ & _ & _ & Hnew & _).
  split.
  - rewrite Hseen, elem_of_list_to_set, elem_of_app.
    intros [?|?%Hnew]; [by left|right; tauto].
  - intros [Hc|(i & j & lit & lhs & rhs & Hij & Hl & Hr & ? & ? & ->)].
    { rewrite Hseen, elem_of_list_to_set, elem_of_app. by left. }
    apply (Hdone i j lhs rhs); [|done..|].
    + apply lookup_lt_Some in Hr. lia.
    + apply elem_of_resolve_pair. by exists lit.
Qed.

End Resolution_more.

Lemma canonical_iter_perm i (s : gset Z) :
  Resolution.canonical_iter i s ≡ₚ elements s.
Proof. reflexivity. Qed.

Lemma resolution_verdict_witness :
  (∀ i (s : gset Z), Resolution.canonical_iter i s ≡ₚ elements s)
  ∧ ∃ b, Resolution.solve Resolution.canonical_iter 1 [{[ 1 ]}; {[ -1 ]}]
         = Some (Resolution.Returned b).
Proof.
  split; [exact canonical_iter_perm|].
  exact (proj1 (resolution_verdict Resolution.canonical_iter
                  canonical_iter_perm 0 [{[ 1 ]}; {[ -1 ]}])).
Defined.

Lemma resolution_unsat_verdict_sound_witness :
  (∀ i (s : gset Z), Resolution.canonical_iter i s ≡ₚ elements s)
  ∧ (∀ c : list Z, c ∈ [[1]; [-1]] → 0 ∉ c)
  ∧ Resolution.solve Resolution.canonical_iter 1
      (Resolution.frozenset <$> [[1]; [-1]])
    = Some (Resolution.Returned true)
  ∧ ¬ satisfiable [[1]; [-1]].
Proof.
  assert (∀ c : list Z, c ∈ [[1]; [-1]] → 0 ∉ c) as Hzero.
  { intros c Hc. repeat (apply elem_of_cons in Hc as [->|Hc]);
      [| |by apply elem_of_nil in Hc];
      intros Hin; repeat (apply elem_of_cons in Hin as [?|Hin]);
      try lia; by apply elem_of_nil in Hin. }
  assert (Resolution.solve Resolution.canonical_iter 1
            (Resolution.frozenset <$> [[1]; [-1]])
          = Some (Resolution.Returned true)) as Hrun
    by (vm_compute; reflexivity).
  split; [exact canonical_iter_perm|]. split; [exact Hzero|].
  split; [exact Hrun|].
  exact (resolution_unsat_verdict_sound Resolution.canonical_iter
           canonical_iter_perm 1 [[1]; [-1]] Hzero Hrun).
Defined.

Lemma resolution_bookkeeping_witness :
  (∀ i (s : gset Z), Resolution.canonical_iter i s ≡ₚ elements s)
  ∧ let s := (Resolution.solve_loop Resolution.canonical_iter 1
                (Resolution.__init__ [{[ 1; 2 ]}; {[ -1; 3 ]}])).2 in
    ∃ new, Resolution.pool s = [{[ 1; 2 ]}; {[ -1; 3 ]}] ++ new.
Proof.
  split; [exact canonical_iter_perm|]. intros s.
  destruct (resolution_bookkeeping Resolution.canonical_iter
              canonical_iter_perm 1 [{[ 1; 2 ]}; {[ -1; 3 ]}])
    as (new & Hpool & _).
  exists new. exact Hpool.
Defined.

Lemma resolution_one_level_witness :
  (∀ i (s : gset Z), Resolution.canonical_iter i s ≡ₚ elements s)
  ∧ Resolution.solve Resolution.canonical_iter 1 [{[ 1; 2 ]}; {[ -1; 3 ]}]
    = Some (Resolution.Returned false)
  ∧ ({[ 2; 3 ]} : gset Z)
    ∈ Resolution.clauses_seen
        (Resolution.solve_loop Resolution.canonical_iter 1
           (Resolution.__init__ [{[ 1; 2 ]}; {[ -1; 3 ]}])).2.
Proof.
  assert (Resolution.solve Resolution.canonical_iter 1
            [{[ 1; 2 ]}; {[ -1; 3 ]}]
          = Some (Resolution.Returned false)) as Hrun
    by (vm_compute; reflexivity).
  split; [exact canonical_iter_perm|]. split; [exact Hrun|].
  apply (resolution_one_level Resolution.canonical_iter canonical_iter_perm
           0 [{[ 1; 2 ]}; {[ -1; 3 ]}] Hrun).
  right. exists 0%nat, 1%nat, 1, {[ 1; 2 ]}, {[ -1; 3 ]}.
  split_and!; [lia|done|done|set_solver|set_solver|].
  apply set_eq. intros x. set_unfold. lia.
Defined.

(** ** The readers of DIMACS files *)

Section readers.
Variable is_space : N → bool.
Variable int : list N → option Z.

Lemma lstrip_head s ch rest :
  Py.lstrip is_space s = ch :: rest → is_space ch = false.
Proof.
  induction s as [|x s IH]; cbn; [done|].
  destruct (is_space x) eqn:Hx; [done|]. by intros [= <- _].
Qed.

Lemma lstrip_spaces s :
  Forall (λ ch, is_space ch = true) s → Py.lstrip is_space s = [].
Proof.
  induction 1 as [|x s Hx _ IH]; cbn; [done|]. by rewrite Hx.
Qed.

Lemma strip_spaces s :
  Forall (λ ch, is_space ch = true) (Py.strip is_space s) →
  Py.strip is_space s = [].
Proof.
  unfold Py.strip. intros H.
  destruct (Py.lstrip is_space (rev (Py.lstrip is_space s)))
    as [|ch rest] eqn:Hl; [done|].
  apply lstrip_head in Hl. rewrite Forall_forall in H.
  rewrite H in Hl; [done|]. cbn. apply elem_of_app. right. left.
Qed.

Lemma split_from_nil word s :
  Py.split_from is_space word s = [] →
  word = [] ∧ Forall (λ ch, is_space ch = true) s.
Proof.
  revert word. induction s as [|ch s IH]; intros word; cbn.
  - by destruct word.
  - destruct (is_space ch) eqn:Hch.
    + destruct word; [|done]. intros [_ ?]%IH. by split; [|constructor].
    + intros [Hw _]%IH. by destruct word.
Qed.

Lemma split_strip_nonempty s ch rest :
  Py.strip is_space s = ch :: rest →
  Py.split is_space (ch :: rest) ≠ [].
Proof.
  intros Hs Hsplit. apply split_from_nil in Hsplit as [_ Hall].
  rewrite <- Hs in Hall. apply strip_spaces in Hall. by rewrite Hall in Hs.
Qed.

Lemma mapM_nil_inv {A B} (f : A → option B) l :
  mapM f l = Some [] → l = [].
Proof.
  destruct l as [|x l]; [done|]. cbn.
  destruct (f x); [|done]. cbn. by destruct (mapM f l).
Qed.

Lemma load_loop_parse_loop lines (cnf : formula) :
  ResolutionReader.load_loop is_space int lines (Resolution.frozenset <$> cnf)
  = fmap (M := list) Resolution.frozenset
      <$> DPReader.parse_loop is_space int lines cnf.
Proof.
  revert cnf. induction lines as [|line lines IH]; intros cnf; cbn; [done|].
  destruct (Py.strip is_space line) as [|ch rest] eqn:Hs; [apply IH|].
  destruct (Py.is_comment ch); [apply IH|].
  destruct (mapM int _) as [lits|] eqn:Hm; [|done].
  destruct lits as [|l lits].
  - apply mapM_nil_inv in Hm. by apply split_strip_nonempty in Hs.
  - rewrite <- IH. by rewrite fmap_app.
Qed.

(** X21.  [load_dimacs] of [resolution.py] reads what [parse_dimacs] of
    [dp.py] reads, clause by clause as a [frozenset], and fails on the
    same files; the test [if lits] of [dp.py] never fails, since a
    stripped non-empty line has a token. *)
Theorem load_dimacs_parse_dimacs (lines : list (list N)) :
  ResolutionReader.load_dimacs is_space int lines
  = fmap (M := list) Resolution.frozenset
      <$> DPReader.parse_dimacs is_space int lines.
Proof. apply (load_loop_parse_loop lines []). Qed.

Lemma dpll_parse_loop_nonempty lines acc f :
  DPLLReader.parse_loop is_space int lines acc = Some f →
  all_nonempty acc → all_nonempty f.
Proof.
  revert acc. induction lines as [|line lines IH]; intros acc; cbn.
  - by intros [= <-].
  - destruct line as [|ch rest]; [apply IH|].
    destruct (Py.is_comment ch); [apply IH|].
    destruct (mapM int _) as [lits|]; [|done].
    destruct (DPLLReader.pop_zero lits) as [|l c] eqn:Hp; [apply IH|].
    intros Hf Hacc. apply (IH _ Hf). apply Forall_app. split; [done|].
    by constructor.
Qed.

(** X22.  The formula [parse_dimacs] of [dpll.py] returns has no empty
    clause, so [DPLLSolver.solve] never raises [IndexError] on a formula
    read from a file, and within the recursion limit it returns a model
    or [None]. *)
Theorem dpll_reads_no_empty_clause (lines : list (list N)) (cnf : formula) :
  DPLLReader.parse_dimacs is_space int lines = Some cnf →
  Forall (λ c, c ≠ []) cnf
  ∧ (∀ fuel, DPLL.solve fuel cnf ≠ DPLL.IndexError)
  ∧ (∀ fuel depth,
       DPLL.solve_limited fuel depth cnf ≠ DPLL.Within DPLL.IndexError)
  ∧ ∃ result st, ∀ fuel depth,
      (lit_count cnf < fuel)%nat →
      (size (formula_vars cnf) < depth)%nat →
      DPLL.solve_limited fuel depth cnf
      = DPLL.Within (DPLL.Ret (result, st)).
Proof.
  intros Hparse.
  assert (all_nonempty cnf) as Hne.
  { eapply dpll_parse_loop_nonempty; [exact Hparse|constructor]. }
  split; [exact Hne|]. unfold DPLL.solve, DPLL.solve_limited.
  rewrite list_fmap_id. split_and!.
  - intros fuel. by apply solve_rec_safe.
  - intros fuel depth. by apply solve_rec_limited_safe.
  - destruct (solve_rec_limited_ends (S (size (formula_vars cnf)))
                (S (lit_count cnf)) cnf ∅ (DPLL.Stats 0 0 0 0))
      as ([result st] & Hrun); [lia|lia|done|].
    exists result, st. intros fuel depth Hf Hd. apply Hrun; lia.
Qed.

Lemma removelast_snoc {A} (l : list A) x : removelast (l ++ [x]) = l.
Proof. by rewrite removelast_last. Qed.

Lemma pop_zero_snoc c : DPLLReader.pop_zero (c ++ [0]) = c.
Proof.
  unfold DPLLReader.pop_zero. rewrite last_snoc. apply removelast_snoc.
Qed.

Lemma readers_agree_loop lines (acc : formula) :
  Forall (well_formed_line is_space int) lines →
  DPLLReader.parse_loop is_space int lines acc
  = DPReader.parse_loop is_space int lines acc.
Proof.
  intros Hwf. revert acc. induction Hwf as [|line lines [Hhead Hnum] _ IH];
    intros acc; [done|].
  cbn [DPLLReader.parse_loop DPReader.parse_loop].
  destruct line as [|ch rest]; [apply IH|].
  cbn [head from_option] in Hhead, Hnum.
  destruct (Py.strip is_space (ch :: rest)) as [|ch' rest'] eqn:Hs;
    cbn [head from_option] in Hhead.
  - rewrite Hhead. cbn. apply IH.
  - rewrite Hhead in *.
    destruct (Py.is_comment ch') eqn:Hc; [apply IH|].
    destruct (mapM int (Py.split is_space (ch' :: rest'))) as [lits|] eqn:Hm;
      [|done].
    destruct (Hnum eq_refl lits eq_refl) as [->|(c & Hc0 & ->)].
    + cbn. apply IH.
    + rewrite pop_zero_snoc, removelast_snoc.
      destruct c as [|l c]; [done|]. cbn. apply IH.
Qed.

(** X23.  On a file whose lines are well formed (no [c] or [p] hidden
    behind leading whitespace; every clause line at least one literal
    followed by a single final [0]) [parse_dimacs] of [dpll.py] and
    [parse_dimacs] of [dp.py] return the same formula, or both fail. *)
Theorem readers_agree (lines : list (list N)) :
  Forall (well_formed_line is_space int) lines →
  DPLLReader.parse_dimacs is_space int lines
  = DPReader.parse_dimacs is_space int lines.
Proof. apply readers_agree_loop. Qed.

End readers.

Lemma dpll_reads_no_empty_clause_witness :
  DPLLReader.parse_dimacs Py.ascii_space Py.decimal
    [[99; 32; 120; 10]; [49; 32; 45; 50; 32; 48; 10]; [48; 10]; [50; 32; 48]]%N
  = Some [[1; -2]; [2]]
  ∧ Forall (λ c : list Z, c ≠ []) [[1; -2]; [2]].
Proof.
  assert (DPLLReader.parse_dimacs Py.ascii_space Py.decimal
            [[99; 32; 120; 10]; [49; 32; 45; 50; 32; 48; 10]; [48; 10];
             [50; 32; 48]]%N
          = Some [[1; -2]; [2]]) as H by (vm_compute; reflexivity).
  split; [exact H|].
  exact (proj1 (dpll_reads_no_empty_clause _ _ _ _ H)).
Defined.

Lemma readers_agree_witness :
  Forall (well_formed_line Py.ascii_space Py.decimal)
    [[99; 32; 120; 10]; [10]; [49; 32; 45; 50; 32; 48; 10]]%N
  ∧ DPLLReader.parse_dimacs Py.ascii_space Py.decimal
      [[99; 32; 120; 10]; [10]; [49; 32; 45; 50; 32; 48; 10]]%N
    = DPReader.parse_dimacs Py.ascii_space Py.decimal
        [[99; 32; 120; 10]; [10]; [49; 32; 45; 50; 32; 48; 10]]%N.
Proof.
  assert (Forall (well_formed_line Py.ascii_space Py.decimal)
            [[99; 32; 120; 10]; [10]; [49; 32; 45; 50; 32; 48; 10]]%N) as H.
  { repeat apply Forall_cons_2; [| | |constructor].
    - split; [reflexivity|]. intros Hc. vm_compute in Hc. discriminate.
    - split; [reflexivity|]. intros _ lits Hl. vm_compute in Hl.
      left. congruence.
    - split; [reflexivity|]. intros _ lits Hl. vm_compute in Hl.
      right. exists [1; -2]. split; [discriminate|].
      injection Hl as <-. reflexivity. }
  split; [exact H|]. exact (readers_agree _ _ _ H).
Defined.

(** ** Calls with explicit arguments *)

Lemma kept_two_inv (h h' : Store.store) (w1 w2 : Store.loc) :
  kept [w1; w2] h h' →
  ∀ l o, h !! l = Some o → l ≠ w1 → l ≠ w2 → h' !! l = Some o.
Proof.
  intros Hk l o Hl H1 H2. apply Hk; [done|].
  intros [->|[->|Hin%elem_of_nil]%elem_of_cons]%elem_of_cons; done.
Qed.

(** X24.  [_propagate(clauses, model)] updates the dictionary it is
    given in place: after the call the object [model] holds the model
    that [_propagate] computes, the counters are updated, and every other
    object of the store, the caller's clause list among them, is as
    before; the clause list returned holds the propagated clauses. *)
Theorem dpll_propagate_in_place (self : StoreDPLL.solver) (fuel : nat)
    (h : Store.store) (clauses model : Store.loc) (F : formula)
    (m : gmap Z bool) (st : DPLL.stats) :
  is_formula h clauses F →
  h !! model = Some (Store.Dict m) →
  h !! StoreDPLL._stats self = Some (Store.DPLLCounters st) →
  ∃ r h',
    StoreDPLL._propagate fuel self clauses model h = Some (r, h')
    ∧ (∀ l o, h !! l = Some o → l ≠ model → l ≠ StoreDPLL._stats self →
              h' !! l = Some o)
    ∧ is_formula h' clauses F
    ∧ propagated h' model (StoreDPLL._stats self) r
        (DPLL._propagate fuel F m st).
Proof.
  intros Hf Hm Hst.
  assert (wp (StoreDPLL._propagate fuel self clauses model)
            (λ r h', kept [model; StoreDPLL._stats self] h h'
                     ∧ propagated h' model (StoreDPLL._stats self) r
                         (DPLL._propagate fuel F m st)) h) as Hwp.
  { eapply wp_propagate; [done..|]. by intros h' r Hk Hp. }
  destruct Hwp as (r & h' & Hrun & Hk & Hp). exists r, h'.
  split_and!; [done| | |done].
  - by apply kept_two_inv.
  - eapply is_formula_kept_ws; [done..|]. by eapply scalars_2.
Qed.

(** X25.  [solve(clauses, model)], called with both arguments, returns
    what the embedding over values returns and writes, among the objects
    that exist at the call, only to the dictionary [model] and to the
    counters: the clause list it is given is not changed. *)
Theorem dpll_solve_with_arguments (self : StoreDPLL.solver) (fuel : nat)
    (h : Store.store) (clauses model : Store.loc) (F : formula)
    (m : gmap Z bool) (st : DPLL.stats) :
  is_formula h clauses F →
  h !! model = Some (Store.Dict m) →
  h !! StoreDPLL._stats self = Some (Store.DPLLCounters st) →
  ∃ r h',
    StoreDPLL.solve_rec fuel self clauses model h = Some (r, h')
    ∧ (∀ l o, h !! l = Some o → l ≠ model → l ≠ StoreDPLL._stats self →
              h' !! l = Some o)
    ∧ is_formula h' clauses F
    ∧ solved h' (StoreDPLL._stats self) r (DPLL.solve_rec fuel F m st).
Proof.
  intros Hf Hm Hst.
  assert (wp (StoreDPLL.solve_rec fuel self clauses model)
            (λ r h', kept [model; StoreDPLL._stats self] h h'
                     ∧ solved h' (StoreDPLL._stats self) r
                         (DPLL.solve_rec fuel F m st)) h) as Hwp.
  { eapply wp_dpll_solve_rec; [done..|]. by intros h' r Hk Hp. }
  destruct Hwp as (r & h' & Hrun & Hk & Hp). exists r, h'.
  split_and!; [done| | |done].
  - by apply kept_two_inv.
  - eapply is_formula_kept_ws; [done..|]. by eapply scalars_2.
Qed.

Lemma dpll_propagate_in_place_witness :
  is_formula (store_with_model [[1; 2]; [-1]] ∅ (DPLL.Stats 0 0 0 0)) 2%nat
    [[1; 2]; [-1]]
  ∧ ∃ r h',
      StoreDPLL._propagate 4 (StoreDPLL.Solver 2%nat 4%nat) 2%nat 3%nat
        (store_with_model [[1; 2]; [-1]] ∅ (DPLL.Stats 0 0 0 0))
      = Some (r, h')
      ∧ is_formula h' 2%nat [[1; 2]; [-1]].
Proof.
  assert (is_formula (store_with_model [[1; 2]; [-1]] ∅ (DPLL.Stats 0 0 0 0))
            2%nat [[1; 2]; [-1]]) as H.
  { exists [0; 1]%nat. split; [reflexivity|]. by repeat constructor. }
  split; [exact H|].
  destruct (dpll_propagate_in_place (StoreDPLL.Solver 2%nat 4%nat) 4
              _ 2%nat 3%nat _ ∅ (DPLL.Stats 0 0 0 0) H eq_refl eq_refl)
    as (r & h' & Hrun & _ & Hf & _).
  by exists r, h'.
Defined.

Lemma dpll_solve_with_arguments_witness :
  is_formula (store_with_model [[1; 2]; [-1]] ∅ (DPLL.Stats 0 0 0 0)) 2%nat
    [[1; 2]; [-1]]
  ∧ ∃ r h',
      StoreDPLL.solve_rec 4 (StoreDPLL.Solver 2%nat 4%nat) 2%nat 3%nat
        (store_with_model [[1; 2]; [-1]] ∅ (DPLL.Stats 0 0 0 0))
      = Some (r, h')
      ∧ is_formula h' 2%nat [[1; 2]; [-1]].
Proof.
  assert (is_formula (store_with_model [[1; 2]; [-1]] ∅ (DPLL.Stats 0 0 0 0))
            2%nat [[1; 2]; [-1]]) as H.
  { exists [0; 1]%nat. split; [reflexivity|]. by repeat constructor. }
  split; [exact H|].
  destruct (dpll_solve_with_arguments (StoreDPLL.Solver 2%nat 4%nat) 4
              _ 2%nat 3%nat _ ∅ (DPLL.Stats 0 0 0 0) H eq_refl eq_refl)
    as (r & h' & Hrun & _ & Hf & _).
  by exists r, h'.
Defined.
